(** * dichtruyen: the translation orchestration engine

    A shallow embedding of the service layer ([services/geminiService.ts],
    [services/claudeService.ts]) and of the batch orchestrator ([App.tsx]).

    Conventions of the embedding.
    - The text that the code works on (what the models answer, the extracted
      text, the strings inside the parsed JSON, the targets of the segments)
      is a JavaScript string as the language has it: the list of its UTF-16
      code units ([jsstr]).  [trim], [charAt], [toUpperCase], [indexOf],
      [substring] and the regular expressions of the code are the functions
      below, on code units.
    - A string that the code only passes on, compares or tests for being
      empty (a key, a model name, an identifier, a MIME type, the data of an
      image), and the message of an error, is a Rocq [string]; a literal
      that stands where text is expected is read as its code units.
    - A JavaScript number that the code only compares, decrements or doubles
      is a [Z].
    - [await]ed calls of the two SDKs and [setTimeout] sleeps are effects:
      they are recorded, in order, in a trace, and what a call answers is
      decided by an environment that sees the whole history.  A call of an
      SDK is one event, whatever the SDK does below it to get its answer.
    - [console.log], [console.warn] and [console.error] are not modelled. *)

From Stdlib Require Import String Ascii List ZArith NArith Bool Arith Lia.
From Equations Require Import Equations.
Import ListNotations.

Local Open Scope string_scope.
Local Open Scope Z_scope.

(* ===================================================================== *)
(** * Strings *)
(* ===================================================================== *)

(** ** Messages and keys *)

Definition is_lower (c : ascii) : bool :=
  ((97 <=? nat_of_ascii c) && (nat_of_ascii c <=? 122))%nat.

Definition is_upper (c : ascii) : bool :=
  ((65 <=? nat_of_ascii c) && (nat_of_ascii c <=? 90))%nat.

Definition lower_char (c : ascii) : ascii :=
  if is_upper c then ascii_of_nat (nat_of_ascii c + 32) else c.

Fixpoint map_chars (f : ascii -> ascii) (s : string) : string :=
  match s with
  | EmptyString => EmptyString
  | String c rest => String (f c) (map_chars f rest)
  end.

(** [message.toLowerCase()], for the test of [isQuotaError].  The needles of
    that test are made of letters that nothing but the letters of ASCII
    lowercase to, so that the characters of a message above 127, which a
    Rocq [string] carries along as caseless, play no part in it. *)
Definition toLowerCase : string -> string := map_chars lower_char.

(** [s.includes(needle)] *)
Fixpoint includes (s needle : string) : bool :=
  if String.prefix needle s then true
  else match s with
       | EmptyString => false
       | String _ rest => includes rest needle
       end.

(** The value of a string in a boolean context: only the empty string is
    falsy. *)
Definition nonempty (s : string) : bool :=
  match s with EmptyString => false | String _ _ => true end.

(** ** Text: the code units of a JavaScript string *)

Definition jsstr := list N.

(** The code units of a literal of the code. *)
Definition js (s : string) : jsstr :=
  map N_of_ascii (list_ascii_of_string s).

Coercion js : string >-> jsstr.

Definition LF : N := 10%N.

(** The value of a text in a boolean context. *)
Definition nonempty_text (s : jsstr) : bool :=
  match s with [] => false | _ :: _ => true end.

Definition is_ascii_lower (c : N) : bool := ((97 <=? c) && (c <=? 122))%N.

Definition is_ascii_upper (c : N) : bool := ((65 <=? c) && (c <=? 90))%N.

Definition is_ascii_digit (c : N) : bool := ((48 <=? c) && (c <=? 57))%N.

Definition is_ascii_letter (c : N) : bool :=
  is_ascii_lower c || is_ascii_upper c.

(** The class [\w] of a regular expression without the [u] and [i] flags:
    [[A-Za-z0-9_]]. *)
Definition is_word_char (c : N) : bool :=
  is_ascii_letter c || is_ascii_digit c || (c =? 95)%N.

(** What [String.prototype.trim] strips: the white space and the line
    terminators of ECMAScript (TAB, VT, FF, the space separators of
    Unicode, the byte order mark; LF, CR, LS, PS). *)
Definition is_space (c : N) : bool :=
  (((9 <=? c) && (c <=? 13)) || (c =? 0x20) || (c =? 0xA0) || (c =? 0x1680)
   || ((0x2000 <=? c) && (c <=? 0x200A)) || (c =? 0x2028) || (c =? 0x2029)
   || (c =? 0x202F) || (c =? 0x205F) || (c =? 0x3000) || (c =? 0xFEFF))%N.

(** [String.prototype.toUpperCase] on a string of one code unit: the full
    uppercase mapping of Unicode (14.0), which can give more than one code
    unit.  A run [(a, n, s, u)] maps the [n] code units [a], [a + s],
    [a + 2 s], ... to [u], [u + s], [u + 2 s], ...; [special_casing] lists
    the code units whose uppercase form is longer.  Every other code unit,
    lone surrogates among them, is its own uppercase form. *)
Definition case_runs : list (N * N * N * N) :=
 [
  (0x61, 26, 1, 0x41); (0xB5, 1, 1, 0x39C); (0xE0, 23, 1, 0xC0);
   (0xF8, 7, 1, 0xD8); (0xFF, 1, 1, 0x178); (0x101, 24, 2, 0x100);
   (0x131, 1, 1, 0x49); (0x133, 3, 2, 0x132); (0x13A, 8, 2, 0x139);
   (0x14B, 23, 2, 0x14A); (0x17A, 3, 2, 0x179); (0x17F, 1, 1, 0x53);
   (0x180, 1, 1, 0x243); (0x183, 2, 2, 0x182); (0x188, 1, 1, 0x187);
   (0x18C, 1, 1, 0x18B); (0x192, 1, 1, 0x191); (0x195, 1, 1, 0x1F6);
   (0x199, 1, 1, 0x198); (0x19A, 1, 1, 0x23D); (0x19E, 1, 1, 0x220);
   (0x1A1, 3, 2, 0x1A0); (0x1A8, 1, 1, 0x1A7); (0x1AD, 1, 1, 0x1AC);
   (0x1B0, 1, 1, 0x1AF); (0x1B4, 2, 2, 0x1B3); (0x1B9, 1, 1, 0x1B8);
   (0x1BD, 1, 1, 0x1BC); (0x1BF, 1, 1, 0x1F7); (0x1C5, 1, 1, 0x1C4);
   (0x1C6, 1, 1, 0x1C4); (0x1C8, 1, 1, 0x1C7); (0x1C9, 1, 1, 0x1C7);
   (0x1CB, 1, 1, 0x1CA); (0x1CC, 1, 1, 0x1CA); (0x1CE, 8, 2, 0x1CD);
   (0x1DD, 1, 1, 0x18E); (0x1DF, 9, 2, 0x1DE); (0x1F2, 1, 1, 0x1F1);
   (0x1F3, 1, 1, 0x1F1); (0x1F5, 1, 1, 0x1F4); (0x1F9, 20, 2, 0x1F8);
   (0x223, 9, 2, 0x222); (0x23C, 1, 1, 0x23B); (0x23F, 2, 1, 0x2C7E);
   (0x242, 1, 1, 0x241); (0x247, 5, 2, 0x246); (0x250, 1, 1, 0x2C6F);
   (0x251, 1, 1, 0x2C6D); (0x252, 1, 1, 0x2C70); (0x253, 1, 1, 0x181);
   (0x254, 1, 1, 0x186); (0x256, 2, 1, 0x189); (0x259, 1, 1, 0x18F);
   (0x25B, 1, 1, 0x190); (0x25C, 1, 1, 0xA7AB); (0x260, 1, 1, 0x193);
   (0x261, 1, 1, 0xA7AC); (0x263, 1, 1, 0x194); (0x265, 1, 1, 0xA78D);
   (0x266, 1, 1, 0xA7AA); (0x268, 1, 1, 0x197); (0x269, 1, 1, 0x196);
   (0x26A, 1, 1, 0xA7AE); (0x26B, 1, 1, 0x2C62); (0x26C, 1, 1, 0xA7AD);
   (0x26F, 1, 1, 0x19C); (0x271, 1, 1, 0x2C6E); (0x272, 1, 1, 0x19D);
   (0x275, 1, 1, 0x19F); (0x27D, 1, 1, 0x2C64); (0x280, 1, 1, 0x1A6);
   (0x282, 1, 1, 0xA7C5); (0x283, 1, 1, 0x1A9); (0x287, 1, 1, 0xA7B1);
   (0x288, 1, 1, 0x1AE); (0x289, 1, 1, 0x244); (0x28A, 2, 1, 0x1B1);
   (0x28C, 1, 1, 0x245); (0x292, 1, 1, 0x1B7); (0x29D, 1, 1, 0xA7B2);
   (0x29E, 1, 1, 0xA7B0); (0x345, 1, 1, 0x399); (0x371, 2, 2, 0x370);
   (0x377, 1, 1, 0x376); (0x37B, 3, 1, 0x3FD); (0x3AC, 1, 1, 0x386);
   (0x3AD, 3, 1, 0x388); (0x3B1, 17, 1, 0x391); (0x3C2, 1, 1, 0x3A3);
   (0x3C3, 9, 1, 0x3A3); (0x3CC, 1, 1, 0x38C); (0x3CD, 2, 1, 0x38E);
   (0x3D0, 1, 1, 0x392); (0x3D1, 1, 1, 0x398); (0x3D5, 1, 1, 0x3A6);
   (0x3D6, 1, 1, 0x3A0); (0x3D7, 1, 1, 0x3CF); (0x3D9, 12, 2, 0x3D8);
   (0x3F0, 1, 1, 0x39A); (0x3F1, 1, 1, 0x3A1); (0x3F2, 1, 1, 0x3F9);
   (0x3F3, 1, 1, 0x37F); (0x3F5, 1, 1, 0x395); (0x3F8, 1, 1, 0x3F7);
   (0x3FB, 1, 1, 0x3FA); (0x430, 32, 1, 0x410); (0x450, 16, 1, 0x400);
   (0x461, 17, 2, 0x460); (0x48B, 27, 2, 0x48A); (0x4C2, 7, 2, 0x4C1);
   (0x4CF, 1, 1, 0x4C0); (0x4D1, 48, 2, 0x4D0); (0x561, 38, 1, 0x531);
   (0x10D0, 43, 1, 0x1C90); (0x10FD, 3, 1, 0x1CBD); (0x13F8, 6, 1, 0x13F0);
   (0x1C80, 1, 1, 0x412); (0x1C81, 1, 1, 0x414); (0x1C82, 1, 1, 0x41E);
   (0x1C83, 2, 1, 0x421); (0x1C85, 1, 1, 0x422); (0x1C86, 1, 1, 0x42A);
   (0x1C87, 1, 1, 0x462); (0x1C88, 1, 1, 0xA64A); (0x1D79, 1, 1, 0xA77D);
   (0x1D7D, 1, 1, 0x2C63); (0x1D8E, 1, 1, 0xA7C6); (0x1E01, 75, 2, 0x1E00);
   (0x1E9B, 1, 1, 0x1E60); (0x1EA1, 48, 2, 0x1EA0); (0x1F00, 8, 1, 0x1F08);
   (0x1F10, 6, 1, 0x1F18); (0x1F20, 8, 1, 0x1F28); (0x1F30, 8, 1, 0x1F38);
   (0x1F40, 6, 1, 0x1F48); (0x1F51, 4, 2, 0x1F59); (0x1F60, 8, 1, 0x1F68);
   (0x1F70, 2, 1, 0x1FBA); (0x1F72, 4, 1, 0x1FC8); (0x1F76, 2, 1, 0x1FDA);
   (0x1F78, 2, 1, 0x1FF8); (0x1F7A, 2, 1, 0x1FEA); (0x1F7C, 2, 1, 0x1FFA);
   (0x1FB0, 2, 1, 0x1FB8); (0x1FBE, 1, 1, 0x399); (0x1FD0, 2, 1, 0x1FD8);
   (0x1FE0, 2, 1, 0x1FE8); (0x1FE5, 1, 1, 0x1FEC); (0x214E, 1, 1, 0x2132);
   (0x2170, 16, 1, 0x2160); (0x2184, 1, 1, 0x2183); (0x24D0, 26, 1, 0x24B6);
   (0x2C30, 48, 1, 0x2C00); (0x2C61, 1, 1, 0x2C60); (0x2C65, 1, 1, 0x23A);
   (0x2C66, 1, 1, 0x23E); (0x2C68, 3, 2, 0x2C67); (0x2C73, 1, 1, 0x2C72);
   (0x2C76, 1, 1, 0x2C75); (0x2C81, 50, 2, 0x2C80); (0x2CEC, 2, 2, 0x2CEB);
   (0x2CF3, 1, 1, 0x2CF2); (0x2D00, 38, 1, 0x10A0); (0x2D27, 1, 1, 0x10C7);
   (0x2D2D, 1, 1, 0x10CD); (0xA641, 23, 2, 0xA640); (0xA681, 14, 2, 0xA680);
   (0xA723, 7, 2, 0xA722); (0xA733, 31, 2, 0xA732); (0xA77A, 2, 2, 0xA779);
   (0xA77F, 5, 2, 0xA77E); (0xA78C, 1, 1, 0xA78B); (0xA791, 2, 2, 0xA790);
   (0xA794, 1, 1, 0xA7C4); (0xA797, 10, 2, 0xA796); (0xA7B5, 8, 2, 0xA7B4);
   (0xA7C8, 2, 2, 0xA7C7); (0xA7D1, 1, 1, 0xA7D0); (0xA7D7, 2, 2, 0xA7D6);
   (0xA7F6, 1, 1, 0xA7F5); (0xAB53, 1, 1, 0xA7B3); (0xAB70, 80, 1, 0x13A0);
   (0xFF41, 26, 1, 0xFF21)
 ]%N.

Definition special_casing : list (N * list N) :=
 [
  (0xDF, [0x53; 0x53]); (0x149, [0x2BC; 0x4E]); (0x1F0, [0x4A; 0x30C]);
   (0x390, [0x399; 0x308; 0x301]); (0x3B0, [0x3A5; 0x308; 0x301]);
   (0x587, [0x535; 0x552]); (0x1E96, [0x48; 0x331]); (0x1E97, [0x54; 0x308]);
   (0x1E98, [0x57; 0x30A]); (0x1E99, [0x59; 0x30A]); (0x1E9A, [0x41; 0x2BE]);
   (0x1F50, [0x3A5; 0x313]); (0x1F52, [0x3A5; 0x313; 0x300]);
   (0x1F54, [0x3A5; 0x313; 0x301]); (0x1F56, [0x3A5; 0x313; 0x342]);
   (0x1F80, [0x1F08; 0x399]); (0x1F81, [0x1F09; 0x399]);
   (0x1F82, [0x1F0A; 0x399]); (0x1F83, [0x1F0B; 0x399]);
   (0x1F84, [0x1F0C; 0x399]); (0x1F85, [0x1F0D; 0x399]);
   (0x1F86, [0x1F0E; 0x399]); (0x1F87, [0x1F0F; 0x399]);
   (0x1F88, [0x1F08; 0x399]); (0x1F89, [0x1F09; 0x399]);
   (0x1F8A, [0x1F0A; 0x399]); (0x1F8B, [0x1F0B; 0x399]);
   (0x1F8C, [0x1F0C; 0x399]); (0x1F8D, [0x1F0D; 0x399]);
   (0x1F8E, [0x1F0E; 0x399]); (0x1F8F, [0x1F0F; 0x399]);
   (0x1F90, [0x1F28; 0x399]); (0x1F91, [0x1F29; 0x399]);
   (0x1F92, [0x1F2A; 0x399]); (0x1F93, [0x1F2B; 0x399]);
   (0x1F94, [0x1F2C; 0x399]); (0x1F95, [0x1F2D; 0x399]);
   (0x1F96, [0x1F2E; 0x399]); (0x1F97, [0x1F2F; 0x399]);
   (0x1F98, [0x1F28; 0x399]); (0x1F99, [0x1F29; 0x399]);
   (0x1F9A, [0x1F2A; 0x399]); (0x1F9B, [0x1F2B; 0x399]);
   (0x1F9C, [0x1F2C; 0x399]); (0x1F9D, [0x1F2D; 0x399]);
   (0x1F9E, [0x1F2E; 0x399]); (0x1F9F, [0x1F2F; 0x399]);
   (0x1FA0, [0x1F68; 0x399]); (0x1FA1, [0x1F69; 0x399]);
   (0x1FA2, [0x1F6A; 0x399]); (0x1FA3, [0x1F6B; 0x399]);
   (0x1FA4, [0x1F6C; 0x399]); (0x1FA5, [0x1F6D; 0x399]);
   (0x1FA6, [0x1F6E; 0x399]); (0x1FA7, [0x1F6F; 0x399]);
   (0x1FA8, [0x1F68; 0x399]); (0x1FA9, [0x1F69; 0x399]);
   (0x1FAA, [0x1F6A; 0x399]); (0x1FAB, [0x1F6B; 0x399]);
   (0x1FAC, [0x1F6C; 0x399]); (0x1FAD, [0x1F6D; 0x399]);
   (0x1FAE, [0x1F6E; 0x399]); (0x1FAF, [0x1F6F; 0x399]);
   (0x1FB2, [0x1FBA; 0x399]); (0x1FB3, [0x391; 0x399]);
   (0x1FB4, [0x386; 0x399]); (0x1FB6, [0x391; 0x342]);
   (0x1FB7, [0x391; 0x342; 0x399]); (0x1FBC, [0x391; 0x399]);
   (0x1FC2, [0x1FCA; 0x399]); (0x1FC3, [0x397; 0x399]);
   (0x1FC4, [0x389; 0x399]); (0x1FC6, [0x397; 0x342]);
   (0x1FC7, [0x397; 0x342; 0x399]); (0x1FCC, [0x397; 0x399]);
   (0x1FD2, [0x399; 0x308; 0x300]); (0x1FD3, [0x399; 0x308; 0x301]);
   (0x1FD6, [0x399; 0x342]); (0x1FD7, [0x399; 0x308; 0x342]);
   (0x1FE2, [0x3A5; 0x308; 0x300]); (0x1FE3, [0x3A5; 0x308; 0x301]);
   (0x1FE4, [0x3A1; 0x313]); (0x1FE6, [0x3A5; 0x342]);
   (0x1FE7, [0x3A5; 0x308; 0x342]); (0x1FF2, [0x1FFA; 0x399]);
   (0x1FF3, [0x3A9; 0x399]); (0x1FF4, [0x38F; 0x399]);
   (0x1FF6, [0x3A9; 0x342]); (0x1FF7, [0x3A9; 0x342; 0x399]);
   (0x1FFC, [0x3A9; 0x399]); (0xFB00, [0x46; 0x46]); (0xFB01, [0x46; 0x49]);
   (0xFB02, [0x46; 0x4C]); (0xFB03, [0x46; 0x46; 0x49]);
   (0xFB04, [0x46; 0x46; 0x4C]); (0xFB05, [0x53; 0x54]);
   (0xFB06, [0x53; 0x54]); (0xFB13, [0x544; 0x546]); (0xFB14, [0x544; 0x535]);
   (0xFB15, [0x544; 0x53B]); (0xFB16, [0x54E; 0x546]);
   (0xFB17, [0x544; 0x53D])
 ]%N.

Fixpoint expand_run (a : N) (n : nat) (s u : N) : list (N * list N) :=
  match n with
  | O => []
  | S n' => (a, [u]) :: expand_run (a + s)%N n' s (u + s)%N
  end.

Definition upper_table : list (N * list N) :=
  Eval vm_compute in
    (flat_map (fun r => match r with
                        | (a, n, s, u) => expand_run a (N.to_nat n) s u
                        end) case_runs
     ++ special_casing)%list.

Fixpoint lookup_upper (c : N) (table : list (N * list N)) : option jsstr :=
  match table with
  | [] => None
  | (k, u) :: rest => if (k =? c)%N then Some u else lookup_upper c rest
  end.

Definition toUpperCase1 (c : N) : jsstr :=
  match lookup_upper c upper_table with
  | Some u => u
  | None => [c]
  end.

(** [s.slice(1)] *)
Definition slice1 (s : jsstr) : jsstr :=
  match s with
  | [] => []
  | _ :: rest => rest
  end.

Fixpoint trimStart (s : jsstr) : jsstr :=
  match s with
  | [] => []
  | c :: rest => if is_space c then trimStart rest else s
  end.

Fixpoint trimEnd (s : jsstr) : jsstr :=
  match s with
  | [] => []
  | c :: rest =>
      match trimEnd rest with
      | [] => if is_space c then [] else [c]
      | r => c :: r
      end
  end.

(** [s.trim()] *)
Definition trim (s : jsstr) : jsstr := trimEnd (trimStart s).

(** [s.indexOf(c)] for a one-character needle; [None] stands for [-1]. *)
Fixpoint indexOf (c : N) (s : jsstr) : option nat :=
  match s with
  | [] => None
  | d :: rest =>
      if (d =? c)%N then Some 0%nat
      else option_map S (indexOf c rest)
  end.

(** [s.lastIndexOf(c)] for a one-character needle. *)
Fixpoint lastIndexOf (c : N) (s : jsstr) : option nat :=
  match s with
  | [] => None
  | d :: rest =>
      match lastIndexOf c rest with
      | Some k => Some (S k)
      | None => if (d =? c)%N then Some 0%nat else None
      end
  end.

(** [s.substring(from, from + len)] for indices within [s]. *)
Definition substring (from len : nat) (s : jsstr) : jsstr :=
  firstn len (skipn from s).

(** [s.startsWith(needle)], the test of a regular expression for a literal
    at the current position. *)
Fixpoint prefix (needle s : jsstr) : bool :=
  match needle, s with
  | [], _ => true
  | _ :: _, [] => false
  | a :: needle', b :: s' => (a =? b)%N && prefix needle' s'
  end.

(* ===================================================================== *)
(** * Text normalizer

    The post-processing that both services apply to the [target] of every
    segment ([geminiService.ts] lines 230-238, [claudeService.ts] the same
    statements):
<<
      if (target.length > 0) {
        target = target.charAt(0).toUpperCase() + target.slice(1);
      }
      target = target.replace(/\bi\b/g, 'I');
>> *)
(* ===================================================================== *)

(** Rule 1.  [charAt(0)] is the first code unit; its uppercase form may be
    longer than one code unit. *)
Definition capitalizeFirst (target : jsstr) : jsstr :=
  match target with
  | [] => target
  | c :: _ => (toUpperCase1 c ++ slice1 target)%list
  end.

(** Is the character that follows (the head of [rest]) a word character?
    At the end of the string there is none. *)
Definition word_ahead (rest : jsstr) : bool :=
  match rest with
  | [] => false
  | d :: _ => is_word_char d
  end.

(** What [target.replace(/\bi\b/g, 'I')] writes for the code unit [c], given
    whether the one behind it is a word character and what follows.  Since
    [i] is a word character, [\b] holds before it exactly when the code unit
    behind is not one (or there is none), and after it exactly when the one
    ahead is not one (or there is none). *)
Definition rule2_char (word_behind : bool) (c : N) (rest : jsstr) : N :=
  if (c =? 105)%N && negb word_behind && negb (word_ahead rest)
  then 73%N else c.

(** Rule 2.  The scan goes left to right; [word_behind] is false at the start
    of the string.  A match is one code unit long and its replacement is a
    word character too, so the matches are found on the original text. *)
Fixpoint replace_i (word_behind : bool) (s : jsstr) : jsstr :=
  match s with
  | [] => []
  | c :: rest =>
      rule2_char word_behind c rest :: replace_i (is_word_char c) rest
  end.

Definition normalize (target : jsstr) : jsstr :=
  replace_i false (capitalizeFirst target).

(** Positions of a text, for stating what the rules achieve.  [behind p s k]
    tells whether a word character stands before index [k] of [s], where [p]
    answers for index 0. *)
Definition behind (p : bool) (s : jsstr) (k : nat) : bool :=
  match k with
  | O => p
  | S j => match nth_error s j with
           | Some c => is_word_char c
           | None => false
           end
  end.

Definition word_before (s : jsstr) (k : nat) : bool := behind false s k.

Definition word_after (s : jsstr) (k : nat) : bool :=
  match nth_error s (S k) with
  | Some c => is_word_char c
  | None => false
  end.

(** A standalone lowercase [i] at index [k]: a match of [/\bi\b/].  The
    expression has neither the [u] nor the [i] flag, so the word characters
    of [\b] are those of [A-Za-z0-9_]: an [i] that follows a letter outside
    ASCII and ends a word, as in [t\u00F4i], is a match. *)
Definition standalone_i (s : jsstr) (k : nat) : Prop :=
  nth_error s k = Some 105%N /\
  word_before s k = false /\ word_after s k = false.

(* ===================================================================== *)
(** * JavaScript values, thrown errors, JSON *)
(* ===================================================================== *)

(** What an error object may carry under [status], [code] or [error.code]. *)
Inductive JsVal :=
| VUndef
| VNum (n : Z)
| VStr (s : string).

Definition truthy (v : JsVal) : bool :=
  match v with
  | VUndef => false
  | VNum n => negb (n =? 0)
  | VStr s => nonempty s
  end.

(** [a || b] *)
Definition js_or (a b : JsVal) : JsVal := if truthy a then a else b.

(** [v === n] for a number literal [n]. *)
Definition is_num (v : JsVal) (n : Z) : bool :=
  match v with
  | VNum m => m =? n
  | _ => false
  end.

(** A thrown value.  [stringified] is what [JSON.stringify] makes of it and
    [isError] whether it is an [instanceof Error]. *)
Record JsError := mkJsError {
  err_status : JsVal;            (* error.status *)
  err_code : JsVal;              (* error.code *)
  err_inner_code : JsVal;        (* error.error.code *)
  err_message : option string;   (* error.message *)
  err_type : option string;      (* error.type *)
  stringified : string;
  isError : bool
}.

(** [new Error(msg)] *)
Definition newError (msg : string) : JsError :=
  {| err_status := VUndef; err_code := VUndef; err_inner_code := VUndef;
     err_message := Some msg; err_type := None;
     stringified := "{}"; isError := true |}.

(** [error?.message || fallback] *)
Definition message_or (e : JsError) (fallback : string) : string :=
  match err_message e with
  | Some m => if nonempty m then m else fallback
  | None => fallback
  end.

(** [error?.status || error?.code || error?.error?.code] *)
Definition errorCode (e : JsError) : JsVal :=
  js_or (js_or (err_status e) (err_code e)) (err_inner_code e).

(** [error?.message || JSON.stringify(error)] *)
Definition errorMessage (e : JsError) : string :=
  message_or e (stringified e).

(** [geminiService.ts] lines 27-35. *)
Definition isQuotaError (e : JsError) : bool :=
  is_num (errorCode e) 429
  || includes (errorMessage e) "429"
  || includes (toLowerCase (errorMessage e)) "quota"
  || includes (toLowerCase (errorMessage e)) "resource_exhausted".

(** A value produced by [JSON.parse].  Of a number only being zero or not
    matters to the code. *)
#[warnings="-register-all"]
Inductive Json :=
| JNull
| JBool (b : bool)
| JNum (n : Z)
| JStr (s : jsstr)
| JArr (items : list Json)
| JObj (fields : list (string * Json)).

Fixpoint assoc (k : string) (fields : list (string * Json)) : option Json :=
  match fields with
  | [] => None
  | (k', v) :: rest => if String.eqb k' k then Some v else assoc k rest
  end.

(** [v.k] for a [v] that is not [null]; [None] is [undefined]. *)
Definition get_field (k : string) (v : Json) : option Json :=
  match v with
  | JObj fields => assoc k fields
  | _ => None
  end.

Definition json_truthy (v : option Json) : bool :=
  match v with
  | None | Some JNull => false
  | Some (JBool b) => b
  | Some (JNum n) => negb (n =? 0)
  | Some (JStr s) => nonempty_text s
  | Some (JArr _) | Some (JObj _) => true
  end.

(** [v || d] for a property [v] that may be missing. *)
Definition json_or (v : option Json) (d : Json) : Json :=
  match v with
  | Some x => if json_truthy v then x else d
  | None => d
  end.

(* ===================================================================== *)
(** * The types of the application ([types.ts]) *)
(* ===================================================================== *)

Inductive SourceLanguage := KOREAN | SPANISH | AUTO.

(** The string value of each enum member. *)
Definition language_name (l : SourceLanguage) : string :=
  match l with
  | KOREAN => "Korean"
  | SPANISH => "Spanish"
  | AUTO => "Auto-Detect"
  end.

Inductive ModelProvider := GEMINI | CLAUDE.

Inductive AppState := IDLE | ANALYZING | SUCCESS | ERROR.

Record TranslationSegment := mkSegment {
  source : option Json;          (* seg.source, passed through as it is *)
  target : jsstr
}.

Record TranslationResult := mkResult {
  detectedLanguage : Json;
  segments : list TranslationSegment
}.

(* ===================================================================== *)
(** * Effects: calls of the SDKs and sleeps *)
(* ===================================================================== *)

(** The prompt of a [generateContent] request.  The translation prompt is a
    function of the language hint, which stands for it here. *)
Inductive GeminiPrompt :=
| OcrPrompt
| TranslationPrompt (sourceLanguage : SourceLanguage).

Record GeminiRequest := mkGeminiRequest {
  g_model : string;
  g_apiKey : option string;      (* the key the client was built with *)
  g_mimeType : string;
  g_data : string;
  g_prompt : GeminiPrompt;
  g_json : bool                  (* config.responseMimeType given *)
}.

(** What a call of [anthropic.messages.create] is given; system and user
    prompt are functions of the language hint and of the extracted text. *)
Record ClaudeRequest := mkClaudeRequest {
  c_model : string;
  c_apiKey : string;
  c_language : SourceLanguage;
  c_text : jsstr
}.

(** A block of [msg.content]: one of type ['text'], or one of another type. *)
Inductive ContentBlock :=
| TextBlock (text : jsstr)
| OtherBlock.

Inductive Event :=
| EvGemini (r : GeminiRequest)
| EvClaude (r : ClaudeRequest)
| EvWait (ms : Z).

(** A trace lists the events of a run, oldest first.  An event is a call
    that the code makes, not a message on the wire: the client of lines
    301-304 of [claudeService.ts] is built without [maxRetries], so that the
    Anthropic SDK may send the request of one [messages.create] call more
    than once before the call settles; what it sends is below this model,
    and the outcome of an [EvClaude] event is the outcome of the call. *)
Definition Trace := list Event.

Inductive Outcome (A : Type) :=
| Ok (a : A)
| Throw (e : JsError).
Arguments Ok {A} a.
Arguments Throw {A} e.

(** The remote world: how a call of an SDK settles, given everything that
    happened before it.  A [generateContent] answer is the [text] of the
    response, which may be missing. *)
Record Env := mkEnv {
  gemini : Trace -> GeminiRequest -> Outcome (option jsstr);
  claude : Trace -> ClaudeRequest -> Outcome (list ContentBlock)
}.

(** An [async] computation: it reads the history, extends it and returns or
    throws. *)
Definition M (A : Type) : Type := Trace -> Outcome A * Trace.

Definition ret {A} (a : A) : M A := fun t => (Ok a, t).

Definition throw {A} (e : JsError) : M A := fun t => (Throw e, t).

Definition bind {A B} (m : M A) (f : A -> M B) : M B :=
  fun t =>
    match m t with
    | (Ok a, t') => f a t'
    | (Throw e, t') => (Throw e, t')
    end.

(** [try { m } catch (error) { handler error }] *)
Definition try_catch {A} (m : M A) (handler : JsError -> M A) : M A :=
  fun t =>
    match m t with
    | (Ok a, t') => (Ok a, t')
    | (Throw e, t') => handler e t'
    end.

Notation "x <- m ;; k" := (bind m (fun x => k))
  (at level 61, m at next level, right associativity).
Notation "m ;;; k" := (bind m (fun _ => k))
  (at level 61, right associativity).

(** [wait(ms)], [geminiService.ts] line 12. *)
Definition wait (ms : Z) : M unit :=
  fun t => (Ok tt, (t ++ [EvWait ms])%list).

(** [client.models.generateContent(request)] *)
Definition generateContent (env : Env) (r : GeminiRequest)
    : M (option jsstr) :=
  fun t => (gemini env t r, (t ++ [EvGemini r])%list).

(** [anthropic.messages.create(request)]: one call of the SDK. *)
Definition messagesCreate (env : Env) (r : ClaudeRequest) : M (list ContentBlock) :=
  fun t => (claude env t r, (t ++ [EvClaude r])%list).

(* ===================================================================== *)
(** * Backoff retrier ([geminiService.ts] lines 38-53) *)
(* ===================================================================== *)

(** The test [isQuotaError(error) && retries > 0] is made on a [sumbool], so
    that the recursive call is known to have fewer retries left: the
    recursion is on [retries]. *)
Equations? retryWithBackoff {T : Type} (operation : M T) (retries delay : Z)
  : M T by wf (Z.to_nat retries) lt :=
  retryWithBackoff operation retries delay :=
    try_catch operation (fun error =>
      match sumbool_of_bool (isQuotaError error && (0 <? retries)) with
      | left _ =>
          wait delay ;;;
          retryWithBackoff operation (retries - 1) (delay * 2)
      | right _ => throw error
      end).
Proof.
  apply andb_prop in e as [_ Hpos]. apply Z.ltb_lt in Hpos. lia.
Qed.

Definition default_retries : Z := 3.
Definition default_delay : Z := 2000.

(* ===================================================================== *)
(** * Picking the JSON text out of a model's answer *)
(* ===================================================================== *)

Definition fence_json : jsstr := "```json".
Definition fence : jsstr := "```".
Definition newline : jsstr := [LF].

(** The rest of [s] after the first occurrence of [needle]. *)
Fixpoint find_after (needle s : jsstr) : option jsstr :=
  if prefix needle s then Some (skipn (List.length needle) s)
  else match s with
       | [] => None
       | _ :: rest => find_after needle rest
       end.

(** The part of [s] before the first occurrence of [needle]. *)
Fixpoint take_until (needle s : jsstr) : option jsstr :=
  if prefix needle s then Some []
  else match s with
       | [] => None
       | c :: rest => option_map (cons c) (take_until needle rest)
       end.

(** [text.match(/```json\n([\s\S]*?)\n```/)], giving the captured group: the
    shortest text between the first opening fence and a closing fence after
    it. *)
Definition match_fenced (text : jsstr) : option jsstr :=
  match find_after (fence_json ++ newline)%list text with
  | Some rest => take_until (newline ++ fence)%list rest
  | None => None
  end.

(** [text.replace(/```json\n?|\n?```/g, '')]: at each position the first
    alternative is tried before the second; [skip] counts the code units of
    the current match that are still to be dropped. *)
Fixpoint strip_fences (skip : nat) (s : jsstr) : jsstr :=
  match s with
  | [] => []
  | c :: rest =>
      match skip with
      | S k => strip_fences k rest
      | O =>
          if prefix (fence_json ++ newline)%list s then strip_fences 7 rest
          else if prefix fence_json s then strip_fences 6 rest
          else if prefix (newline ++ fence)%list s then strip_fences 3 rest
          else if prefix fence s then strip_fences 2 rest
          else c :: strip_fences 0 rest
      end
  end.

(** [claudeService.ts], "Robust JSON extraction".  123 and 125 are the two
    braces. *)
Definition claude_json_text (text : jsstr) : jsstr :=
  match indexOf 123 text, lastIndexOf 125 text with
  | Some firstBrace, Some lastBrace =>
      if (firstBrace <? lastBrace)%nat
      then substring firstBrace (lastBrace + 1 - firstBrace) text
      else trim (strip_fences 0 text)
  | _, _ => trim (strip_fences 0 text)
  end.

(** [msg.content.find(c => c.type === 'text')], then [.text]. *)
Fixpoint find_text (content : list ContentBlock) : option jsstr :=
  match content with
  | [] => None
  | TextBlock text :: _ => Some text
  | OtherBlock :: rest => find_text rest
  end.

(* ===================================================================== *)
(** * The two services *)
(* ===================================================================== *)

(** Run-time faults of the post-processing, thrown by the engine as a
    [TypeError]. *)
Inductive Fault :=
| NullParsed                      (* parsed.segments with parsed === null *)
| NullSegment                     (* seg.target with seg === null *)
| BadTarget (v : Json).           (* charAt / replace of a non-string *)

Definition OCR_MODEL : string := "gemini-3-flash-preview".
Definition TRANSLATION_MODEL_PRO : string := "gemini-3-pro-preview".
Definition TRANSLATION_MODEL_FLASH : string := "gemini-3-flash-preview".

(** A credential as the code passes it around: [None] is [undefined]. *)
Definition key_truthy (k : option string) : bool :=
  match k with
  | Some s => nonempty s
  | None => false
  end.

(** [a || b] on credentials. *)
Definition key_or (a b : option string) : option string :=
  if key_truthy a then a else b.

Definition lift {A} (o : Outcome A) : M A := fun t => (o, t).

Section Services.

(** The remote world. *)
Variable env : Env.

(** [JSON.parse]; when it throws, it throws the engine's [SyntaxError]. *)
Variable JSON_parse : jsstr -> Outcome Json.

(** The message the engine gives to the [TypeError] of a fault. *)
Variable typeErrorMessage : Fault -> string.

(** [process.env.API_KEY] and [process.env.CLAUDE_API_KEY]. *)
Variable API_KEY : option string.
Variable CLAUDE_API_KEY : option string.

Definition typeError (f : Fault) : JsError := newError (typeErrorMessage f).

(** [geminiService.ts] lines 15-24; a client is known by its key. *)
Definition getAiClient (apiKey : option string) : option string :=
  key_or apiKey API_KEY.

(** The body of [segments.map(...)] of both services.  [seg.target || '']
    is the target itself when that is a string. *)
Definition postProcess (seg : Json) : Outcome TranslationSegment :=
  match seg with
  | JNull => Throw (typeError NullSegment)
  | _ =>
      match get_field "target" seg with
      | Some (JStr target) =>
          Ok {| source := get_field "source" seg;
                target := normalize target |}
      | Some v =>
          if json_truthy (Some v) then Throw (typeError (BadTarget v))
          else Ok {| source := get_field "source" seg;
                     target := normalize [] |}
      | None =>
          Ok {| source := get_field "source" seg;
                target := normalize [] |}
      end
  end.

Fixpoint map_postProcess (segs : list Json) : Outcome (list TranslationSegment) :=
  match segs with
  | [] => Ok []
  | seg :: rest =>
      match postProcess seg with
      | Throw e => Throw e
      | Ok s =>
          match map_postProcess rest with
          | Throw e => Throw e
          | Ok ss => Ok (s :: ss)
          end
      end
  end.

(** The request of lines 74-89. *)
Definition ocrRequest (base64Image mimeType : string) (ai : option string)
    : GeminiRequest :=
  {| g_model := OCR_MODEL; g_apiKey := ai;
     g_mimeType := mimeType; g_data := base64Image;
     g_prompt := OcrPrompt; g_json := false |}.

(** The request of lines 172-190. *)
Definition translationRequest (base64Image mimeType : string)
    (sourceLanguage : SourceLanguage) (model : string)
    (client : option string) : GeminiRequest :=
  {| g_model := model; g_apiKey := client;
     g_mimeType := mimeType; g_data := base64Image;
     g_prompt := TranslationPrompt sourceLanguage; g_json := true |}.

(** [geminiService.ts] lines 56-102. *)
Definition extractTextFromImage (base64Image mimeType : string)
    (apiKey : option string) : M jsstr :=
  let ai := getAiClient apiKey in
  try_catch
    (response <- retryWithBackoff
         (generateContent env (ocrRequest base64Image mimeType ai))
         default_retries default_delay ;;
     match response with
     | Some text => if nonempty_text text then ret (trim text) else ret []
     | None => ret []
     end)
    (fun error =>
       if isQuotaError error
       then throw (newError "Gemini API Quota Exceeded (OCR). Please check your API key.")
       else throw (newError "Failed to extract text from image using Gemini.")).

(** [executeTranslation], [geminiService.ts] lines 171-191. *)
Definition executeTranslation (base64Image mimeType : string)
    (sourceLanguage : SourceLanguage) (model : string)
    (client : option string) : M (option jsstr) :=
  retryWithBackoff
    (generateContent env
       (translationRequest base64Image mimeType sourceLanguage model client))
    default_retries default_delay.

(** Lines 196-207: premium first, standard on a quota failure. *)
Definition translateWithFallback (base64Image mimeType : string)
    (sourceLanguage : SourceLanguage) (apiKey proApiKey : option string)
    : M (option jsstr) :=
  let flashClient := getAiClient apiKey in
  let proClient := getAiClient (key_or proApiKey apiKey) in
  try_catch
    (executeTranslation base64Image mimeType sourceLanguage
       TRANSLATION_MODEL_PRO proClient)
    (fun error =>
       if isQuotaError error
       then executeTranslation base64Image mimeType sourceLanguage
              TRANSLATION_MODEL_FLASH flashClient
       else throw error).

(** Lines 212-223. *)
Definition parseGeminiText (text : jsstr) : Outcome Json :=
  match JSON_parse text with
  | Ok parsed => Ok parsed
  | Throw _ =>
      match match_fenced text with
      | Some inner => JSON_parse inner
      | None => Throw (newError "Invalid JSON response from Gemini")
      end
  end.

(** Lines 225-251. *)
Definition buildGeminiResult (sourceLanguage : SourceLanguage)
    (parsed : Json) : Outcome TranslationResult :=
  match parsed with
  | JNull => Throw (typeError NullParsed)
  | _ =>
      let segmentsRaw :=
        match get_field "segments" parsed with
        | Some (JArr items) => items
        | _ => []
        end in
      match map_postProcess segmentsRaw with
      | Throw e => Throw e
      | Ok segments =>
          let detectedLanguage :=
            json_or (get_field "detectedLanguage" parsed)
              (JStr (language_name sourceLanguage)) in
          Ok {| detectedLanguage := detectedLanguage; segments := segments |}
      end
  end.

(** [translateImageContent], [geminiService.ts] lines 104-262. *)
Definition translateImageContent (base64Image mimeType : string)
    (sourceLanguage : SourceLanguage) (apiKey proApiKey : option string)
    : M TranslationResult :=
  try_catch
    (response <- translateWithFallback base64Image mimeType sourceLanguage
                   apiKey proApiKey ;;
     match response with
     | Some text =>
         if nonempty_text text then
           parsed <- lift (parseGeminiText text) ;;
           lift (buildGeminiResult sourceLanguage parsed)
         else throw (newError "No response from Gemini")
     | None => throw (newError "No response from Gemini")
     end)
    (fun error =>
       if isQuotaError error
       then throw (newError "Gemini API Quota Exceeded. Please check your API key in Settings.")
       else throw (newError "Failed to process image. Please try again.")).

(** [claudeService.ts], lines 428-451 of the listing. *)
Definition buildClaudeResult (sourceLanguage : SourceLanguage)
    (parsed : Json) : Outcome TranslationResult :=
  match parsed with
  | JNull => Throw (typeError NullParsed)
  | _ =>
      let mapped :=
        match get_field "segments" parsed with
        | Some (JArr items) => map_postProcess items
        | _ => Ok []
        end in
      match mapped with
      | Throw e => Throw e
      | Ok segments =>
          let detectedLanguage :=
            json_or (get_field "detectedLanguage" parsed)
              (match sourceLanguage with
               | AUTO => JStr "Unknown"
               | _ => JStr (language_name sourceLanguage)
               end) in
          Ok {| detectedLanguage := detectedLanguage; segments := segments |}
      end
  end.

(** The [catch] that closes [translateImageContentWithClaude]. *)
Definition claudeCatch (modelId : string) (error : JsError) : JsError :=
  if is_num (err_status error) 401 then
    newError "Invalid Claude API Key. Please check your key in Settings."
  else if is_num (err_status error) 404 then
    newError ("Model " ++ modelId ++ " not found. Please select a valid model in Settings.")
  else if match err_type error with
          | Some ty => String.eqb ty "overloaded_error"
          | None => false
          end then
    newError "Claude API is currently overloaded. Please try again in a moment."
  else
    let errorMessage := message_or error EmptyString in
    if includes errorMessage "Failed to parse response" then
      newError "Translation failed due to invalid response format."
    else if nonempty errorMessage then newError errorMessage
    else newError "Failed to translate text with Claude.".

(** Step 2 of [translateImageContentWithClaude]: the [try] block. *)
Definition claudeTranslate (sourceLanguage : SourceLanguage)
    (finalApiKey modelId : string) (extractedText : jsstr)
    : M TranslationResult :=
  msg <- messagesCreate env
           (mkClaudeRequest modelId finalApiKey sourceLanguage extractedText) ;;
  match find_text msg with
  | None => throw (newError "No text response from Claude")
  | Some text =>
      let jsonStr := claude_json_text text in
      match JSON_parse jsonStr with
      | Throw _ =>
          throw (newError "Failed to parse response. The model returned invalid JSON.")
      | Ok parsed => lift (buildClaudeResult sourceLanguage parsed)
      end
  end.

Definition emptyResult : TranslationResult :=
  {| detectedLanguage := JStr "Unknown"; segments := [] |}.

(** [translateImageContentWithClaude], [claudeService.ts]. *)
Definition translateImageContentWithClaude (base64Image mimeType : string)
    (sourceLanguage : SourceLanguage) (apiKey : option string)
    (modelId : string) (geminiApiKey : option string)
    : M TranslationResult :=
  match key_or apiKey CLAUDE_API_KEY with
  | Some finalApiKey =>
      if nonempty finalApiKey then
        extractedText <-
          try_catch (extractTextFromImage base64Image mimeType geminiApiKey)
            (fun ocrError =>
               throw (newError (message_or ocrError
                 "Gemini failed to extract text from the image. Cannot proceed with Claude translation."))) ;;
        if negb (nonempty_text extractedText)
           || (List.length (trim extractedText) =? 0)%nat
        then ret emptyResult
        else
          try_catch
            (claudeTranslate sourceLanguage finalApiKey modelId extractedText)
            (fun error => throw (claudeCatch modelId error))
      else throw (newError "Claude API Key is missing. Please add it in Settings.")
  | None => throw (newError "Claude API Key is missing. Please add it in Settings.")
  end.

End Services.

(* ===================================================================== *)
(** * Batch orchestrator ([App.tsx]) *)
(* ===================================================================== *)

(** [file] and [previewUrl] of an item play no part in the orchestration and
    are left out. *)
Record BatchItem := mkItem {
  id : string;
  base64Data : string;
  mimeType : string;
  status : AppState;
  result : option TranslationResult;
  error : option string
}.

(** A [translateItem] call suspended at its [await], with what its closure
    holds. *)
Record Attempt := mkAttempt {
  a_id : string;
  a_base64Data : string;
  a_mimeType : string;
  a_lang : SourceLanguage;
  a_provider : ModelProvider;
  a_claudeApiKey : string;
  a_claudeModelId : string;
  a_geminiApiKey : string;
  a_geminiProApiKey : string
}.

(** The component state, together with the rest of the running handler
    ([todo]: the items [newItems.forEach] has still to visit), the suspended
    calls ([pending]) and the calls of the SDKs and the sleeps of the calls
    that have settled so far ([network]). *)
Record App := mkApp {
  items : list BatchItem;
  sourceLang : SourceLanguage;
  modelProvider : ModelProvider;
  isSettingsOpen : bool;
  claudeApiKey : string;
  claudeModelId : string;
  geminiApiKey : string;
  geminiProApiKey : string;
  todo : list BatchItem;
  pending : list Attempt;
  network : Trace
}.

(** What [processFile] and [crypto.randomUUID] made of one chosen file. *)
Inductive FileRead :=
| Unreadable
| Readable (uuid base64 mime : string).

Inductive Action :=
| AddFiles (files : list FileRead)
| Dispatch
| Retry (item_id : string)
| Remove (item_id : string)
| ClearAll
| SaveSettings (cKey cModelId gKey gProKey : string)
| SetLanguage (l : SourceLanguage)
| SetProvider (p : ModelProvider)
| OpenSettings
| CloseSettings
| Complete (k : nat).             (* the k-th suspended call settles *)

Definition initialApp : App :=
  {| items := []; sourceLang := AUTO; modelProvider := CLAUDE;
     isSettingsOpen := false;
     claudeApiKey := EmptyString;
     claudeModelId := "claude-sonnet-4-5-20250929";
     geminiApiKey := EmptyString; geminiProApiKey := EmptyString;
     todo := []; pending := []; network := [] |}.

Definition setItems (f : list BatchItem -> list BatchItem) (app : App) : App :=
  {| items := f (items app); sourceLang := sourceLang app;
     modelProvider := modelProvider app; isSettingsOpen := isSettingsOpen app;
     claudeApiKey := claudeApiKey app; claudeModelId := claudeModelId app;
     geminiApiKey := geminiApiKey app; geminiProApiKey := geminiProApiKey app;
     todo := todo app; pending := pending app; network := network app |}.

Definition setIsSettingsOpen (b : bool) (app : App) : App :=
  {| items := items app; sourceLang := sourceLang app;
     modelProvider := modelProvider app; isSettingsOpen := b;
     claudeApiKey := claudeApiKey app; claudeModelId := claudeModelId app;
     geminiApiKey := geminiApiKey app; geminiProApiKey := geminiProApiKey app;
     todo := todo app; pending := pending app; network := network app |}.

Definition setSourceLang (l : SourceLanguage) (app : App) : App :=
  {| items := items app; sourceLang := l;
     modelProvider := modelProvider app; isSettingsOpen := isSettingsOpen app;
     claudeApiKey := claudeApiKey app; claudeModelId := claudeModelId app;
     geminiApiKey := geminiApiKey app; geminiProApiKey := geminiProApiKey app;
     todo := todo app; pending := pending app; network := network app |}.

Definition setModelProvider (p : ModelProvider) (app : App) : App :=
  {| items := items app; sourceLang := sourceLang app;
     modelProvider := p; isSettingsOpen := isSettingsOpen app;
     claudeApiKey := claudeApiKey app; claudeModelId := claudeModelId app;
     geminiApiKey := geminiApiKey app; geminiProApiKey := geminiProApiKey app;
     todo := todo app; pending := pending app; network := network app |}.

(** [handleSaveSettings], lines 40-50 (the copy in local storage is not
    modelled; loading the stored settings on mount amounts to such a save). *)
Definition handleSaveSettings (cKey cModelId gKey gProKey : string)
    (app : App) : App :=
  {| items := items app; sourceLang := sourceLang app;
     modelProvider := modelProvider app; isSettingsOpen := isSettingsOpen app;
     claudeApiKey := cKey; claudeModelId := cModelId;
     geminiApiKey := gKey; geminiProApiKey := gProKey;
     todo := todo app; pending := pending app; network := network app |}.

Definition setTodo (l : list BatchItem) (app : App) : App :=
  {| items := items app; sourceLang := sourceLang app;
     modelProvider := modelProvider app; isSettingsOpen := isSettingsOpen app;
     claudeApiKey := claudeApiKey app; claudeModelId := claudeModelId app;
     geminiApiKey := geminiApiKey app; geminiProApiKey := geminiProApiKey app;
     todo := l; pending := pending app; network := network app |}.

Definition setPending (l : list Attempt) (app : App) : App :=
  {| items := items app; sourceLang := sourceLang app;
     modelProvider := modelProvider app; isSettingsOpen := isSettingsOpen app;
     claudeApiKey := claudeApiKey app; claudeModelId := claudeModelId app;
     geminiApiKey := geminiApiKey app; geminiProApiKey := geminiProApiKey app;
     todo := todo app; pending := l; network := network app |}.

Definition setNetwork (t : Trace) (app : App) : App :=
  {| items := items app; sourceLang := sourceLang app;
     modelProvider := modelProvider app; isSettingsOpen := isSettingsOpen app;
     claudeApiKey := claudeApiKey app; claudeModelId := claudeModelId app;
     geminiApiKey := geminiApiKey app; geminiProApiKey := geminiProApiKey app;
     todo := todo app; pending := pending app; network := t |}.

(** [prev.map(i => i.id === item_id ? f(i) : i)] *)
Definition update_item (item_id : string) (f : BatchItem -> BatchItem)
    (prev : list BatchItem) : list BatchItem :=
  map (fun i => if String.eqb (id i) item_id then f i else i) prev.

(** [{ ...i, status: AppState.ERROR, error: msg }] *)
Definition with_error (msg : option string) (i : BatchItem) : BatchItem :=
  {| id := id i; base64Data := base64Data i; mimeType := mimeType i;
     status := ERROR; result := result i; error := msg |}.

(** [{ ...i, status: AppState.ANALYZING, error: null }] *)
Definition with_analyzing (i : BatchItem) : BatchItem :=
  {| id := id i; base64Data := base64Data i; mimeType := mimeType i;
     status := ANALYZING; result := result i; error := None |}.

(** [{ ...i, status: AppState.SUCCESS, result: translation }] *)
Definition with_success (translation : TranslationResult) (i : BatchItem)
    : BatchItem :=
  {| id := id i; base64Data := base64Data i; mimeType := mimeType i;
     status := SUCCESS; result := Some translation; error := error i |}.

Definition missingClaudeKey : string :=
  "Missing Claude API Key. Click the settings gear to add your key.".

Definition missingGeminiKey : string :=
  "Missing Gemini API Key (Required for OCR). Click the settings gear to add your key.".

Definition is_claude (p : ModelProvider) : bool :=
  match p with CLAUDE => true | GEMINI => false end.

(** [items.find(i => i.id === item_id)] *)
Definition find_item (item_id : string) (l : list BatchItem) : option BatchItem :=
  find (fun i => String.eqb (id i) item_id) l.

(** The items of lines 59-73: one per file that could be read. *)
Fixpoint newItems (files : list FileRead) : list BatchItem :=
  match files with
  | [] => []
  | Unreadable :: rest => newItems rest
  | Readable uuid base64 mime :: rest =>
      {| id := uuid; base64Data := base64; mimeType := mime;
         status := IDLE; result := None; error := None |} :: newItems rest
  end.

Fixpoint remove_nth {A} (k : nat) (l : list A) : list A :=
  match l, k with
  | [], _ => []
  | _ :: rest, O => rest
  | x :: rest, S k' => x :: remove_nth k' rest
  end.

(** What the application runs on: the remote world, [JSON.parse], the
    wording of the engine's [TypeError]s, and [process.env.API_KEY] and
    [process.env.CLAUDE_API_KEY]. *)
Record Runtime := mkRuntime {
  rt_env : Env;
  rt_parse : jsstr -> Outcome Json;
  rt_typeErrorMessage : Fault -> string;
  rt_API_KEY : option string;
  rt_CLAUDE_API_KEY : option string
}.

Section Orchestrator.

Variable rt : Runtime.

(** The two checks of lines 92 and 104-105. *)
Definition missesClaudeKey (provider : ModelProvider) (app : App) : bool :=
  is_claude provider && negb (nonempty (claudeApiKey app))
  && negb (key_truthy (rt_CLAUDE_API_KEY rt)).

Definition hasGeminiKey (app : App) : bool :=
  nonempty (geminiApiKey app) || key_truthy (rt_API_KEY rt).

(** [translateItem], lines 88-116 and the call of lines 120-137: the part
    that runs before the function suspends. *)
Definition translateItem (item : BatchItem) (lang : SourceLanguage)
    (provider : ModelProvider) (app : App) : App :=
  if missesClaudeKey provider app then
    setIsSettingsOpen true
      (setItems (update_item (id item) (with_error (Some missingClaudeKey))) app)
  else if negb (hasGeminiKey app) then
    setIsSettingsOpen true
      (setItems (update_item (id item) (with_error (Some missingGeminiKey))) app)
  else
    let app1 := setItems (update_item (id item) with_analyzing) app in
    setPending
      ((pending app1 ++
       [{| a_id := id item; a_base64Data := base64Data item;
           a_mimeType := mimeType item;
           a_lang := lang; a_provider := provider;
           a_claudeApiKey := claudeApiKey app;
           a_claudeModelId := claudeModelId app;
           a_geminiApiKey := geminiApiKey app;
           a_geminiProApiKey := geminiProApiKey app |}])%list)
      app1.

(** The strategy call of lines 120-137. *)
Definition runStrategy (a : Attempt) : M TranslationResult :=
  match a_provider a with
  | CLAUDE =>
      translateImageContentWithClaude (rt_env rt) (rt_parse rt)
        (rt_typeErrorMessage rt) (rt_API_KEY rt) (rt_CLAUDE_API_KEY rt)
        (a_base64Data a) (a_mimeType a) (a_lang a)
        (Some (a_claudeApiKey a)) (a_claudeModelId a)
        (Some (a_geminiApiKey a))
  | GEMINI =>
      translateImageContent (rt_env rt) (rt_parse rt)
        (rt_typeErrorMessage rt) (rt_API_KEY rt)
        (a_base64Data a) (a_mimeType a) (a_lang a)
        (Some (a_geminiApiKey a)) (Some (a_geminiProApiKey a))
  end.

(** [translateItem], lines 118-151: what happens when the strategy call
    settles.  The calls of the SDKs and the sleeps of the attempt enter
    [network] together, at this point. *)
Definition translateItem_settle (a : Attempt) (app : App) : App :=
  match runStrategy a (network app) with
  | (Ok translation, t) =>
      setNetwork t
        (setItems (update_item (a_id a) (with_success translation)) app)
  | (Throw e, t) =>
      setNetwork t
        (setItems
           (update_item (a_id a)
              (with_error (if isError e then err_message e
                           else Some "Translation failed")))
           app)
  end.

(** [handleFileChange], lines 52-86, from [setItems] on, up to the [forEach],
    whose visits are left in [todo].  The handler holds the settings of the
    render in which the files were chosen.  In this transition system the
    visits read the settings of the state: they are those of the handler as
    long as no setting is changed while the files are read (the [await] of
    line 61) and visited, which is the case this system covers.  [visit],
    further down, is the visit for whatever settings the handler holds. *)
Definition handleFileChange (files : list FileRead) (app : App) : App :=
  setTodo (newItems files)
    (setItems (fun prev => (prev ++ newItems files)%list) app).

(** One visit of [newItems.forEach(item => translateItem(item, sourceLang,
    modelProvider))], with the settings of the state for those of the
    handler. *)
Definition dispatchNext (app : App) : App :=
  match todo app with
  | [] => app
  | item :: rest =>
      translateItem item (sourceLang app) (modelProvider app)
        (setTodo rest app)
  end.

(** [handleRetry], lines 154-160. *)
Definition handleRetry (item_id : string) (app : App) : App :=
  match find_item item_id (items app) with
  | Some item => translateItem item (sourceLang app) (modelProvider app) app
  | None => app
  end.

(** [handleRemove], lines 162-164. *)
Definition handleRemove (item_id : string) (app : App) : App :=
  setItems (filter (fun i => negb (String.eqb (id i) item_id))) app.

(** [handleClearAll], lines 190-192. *)
Definition handleClearAll (app : App) : App := setItems (fun _ => []) app.

Definition perform (act : Action) (app : App) : App :=
  match act with
  | AddFiles files => handleFileChange files app
  | Dispatch => dispatchNext app
  | Retry item_id => handleRetry item_id app
  | Remove item_id => handleRemove item_id app
  | ClearAll => handleClearAll app
  | SaveSettings cKey cModelId gKey gProKey =>
      handleSaveSettings cKey cModelId gKey gProKey app
  | SetLanguage l => setSourceLang l app
  | SetProvider p => setModelProvider p app
  | OpenSettings => setIsSettingsOpen true app
  | CloseSettings => setIsSettingsOpen false app
  | Complete k =>
      match nth_error (pending app) k with
      | Some a =>
          translateItem_settle a (setPending (remove_nth k (pending app)) app)
      | None => app
      end
  end.

(** When an action can happen.  A handler runs to its end before anything
    else does, so while [todo] is not empty only the next visit of the
    [forEach] can happen.  [handleRetry] is reached through the Retry button
    only, which is rendered for an item while the item is in the ERROR state
    (the JSX under [item.status === AppState.ERROR]).  The identifiers drawn
    by [crypto.randomUUID] are new and distinct.  That the language and
    provider buttons are disabled while an item is in ANALYZING is left out:
    the model allows more than the application does there. *)
Definition enabled (act : Action) (app : App) : Prop :=
  match act with
  | Dispatch => todo app <> []
  | AddFiles files =>
      todo app = [] /\
      NoDup (map id (newItems files)) /\
      (forall x, In x (map id (newItems files)) ->
         ~ In x (map id (items app)) /\ ~ In x (map a_id (pending app)))
  | Retry item_id =>
      todo app = [] /\
      exists item, In item (items app) /\ id item = item_id /\
                   status item = ERROR
  | Complete k => todo app = [] /\ (k < List.length (pending app))%nat
  | _ => todo app = []
  end.

Inductive reachable : App -> Prop :=
| reachable_initial : reachable initialApp
| reachable_step app act :
    reachable app -> enabled act app -> reachable (perform act app).

(** Does the action make a [translateItem] call that the credential checks
    turn down? *)
Definition rejected (act : Action) (app : App) : bool :=
  match act with
  | Dispatch | Retry _ =>
      missesClaudeKey (modelProvider app) app || negb (hasGeminiKey app)
  | _ => false
  end.

End Orchestrator.

(** The state of an item is coherent: a result exactly in SUCCESS, an error
    message exactly in ERROR. *)
Definition item_ok (i : BatchItem) : Prop :=
  match status i with
  | IDLE | ANALYZING => result i = None /\ error i = None
  | SUCCESS => (exists r, result i = Some r) /\ error i = None
  | ERROR => result i = None /\
             exists msg, error i = Some msg /\ msg <> EmptyString
  end.

(** The status changes of one translation attempt. *)
Definition lifecycle_edge (s s' : AppState) : Prop :=
  (s = IDLE /\ s' = ANALYZING) \/
  (s = ERROR /\ s' = ANALYZING) \/
  (s = ANALYZING /\ (s' = SUCCESS \/ s' = ERROR)).

(** Counting the calls of the SDKs. *)
Definition is_call (e : Event) : bool :=
  match e with
  | EvGemini _ | EvClaude _ => true
  | EvWait _ => false
  end.

Definition calls (t : Trace) : nat := List.length (filter is_call t).

Fixpoint total_delay (t : Trace) : Z :=
  match t with
  | [] => 0
  | EvWait ms :: rest => ms + total_delay rest
  | _ :: rest => total_delay rest
  end.

(** A call of the Extraction Provider: the OCR request. *)
Definition is_extraction (e : Event) : bool :=
  match e with
  | EvGemini r => match g_prompt r with OcrPrompt => true | _ => false end
  | _ => false
  end.

(** A translation call, of either provider. *)
Definition is_translation (e : Event) : bool :=
  match e with
  | EvGemini r =>
      match g_prompt r with TranslationPrompt _ => true | _ => false end
  | EvClaude _ => true
  | EvWait _ => false
  end.

(** No translation call comes before the first extraction call, and there is
    an extraction call if there is any call at all. *)
Fixpoint extraction_first (t : Trace) : bool :=
  match t with
  | [] => true
  | e :: rest =>
      if is_extraction e then true
      else if is_translation e then false
      else extraction_first rest
  end.

(* ===================================================================== *)
(** * Sample errors, requests and remote worlds *)
(* ===================================================================== *)

(** A rate-limit answer of the Gemini API. *)
Definition quotaError : JsError :=
  {| err_status := VNum 429; err_code := VUndef; err_inner_code := VUndef;
     err_message := Some "Resource has been exhausted (e.g. check quota).";
     err_type := None; stringified := "{}"; isError := true |}.

(** A failure that has nothing to do with quota. *)
Definition serverError : JsError :=
  {| err_status := VNum 500; err_code := VUndef; err_inner_code := VUndef;
     err_message := Some "Internal error encountered.";
     err_type := None; stringified := "{}"; isError := true |}.

Definition sampleRequest : GeminiRequest :=
  {| g_model := OCR_MODEL; g_apiKey := Some "key";
     g_mimeType := "image/png"; g_data := "AAAA";
     g_prompt := OcrPrompt; g_json := false |}.

(** The Gemini API fails on quota for its first [n] calls and answers [text]
    from then on; Claude answers [reply]. *)
Definition env_quota_then (n : nat) (text reply : jsstr) : Env :=
  {| gemini := fun t _ =>
       if (calls t <? n)%nat then Throw quotaError else Ok (Some text);
     claude := fun _ _ => Ok [TextBlock reply] |}.

(** An OCR answer that holds nothing to read: a no-break space, an
    ideographic space, a space and a line feed. *)
Definition blankAnswer : jsstr := [0xA0; 0x3000; 0x20; LF]%N.

(** An OCR answer with white space around the text: a no-break space and
    a byte order mark before it, an ideographic space and a line separator
    after it. *)
Definition paddedAnswer : jsstr :=
  ([0xA0; 0xFEFF] ++ js "hola" ++ [0x3000; 0x2028])%N%list.

(** The Gemini API always fails with the given error. *)
Definition env_failing (e : JsError) : Env :=
  {| gemini := fun _ _ => Throw e;
     claude := fun _ _ => Throw e |}.

(** A stand-in for [JSON.parse] that knows one text: the empty object.  The
    lemmas that use it parse nothing else. *)
Fixpoint jsstr_eqb (a b : jsstr) : bool :=
  match a, b with
  | [], [] => true
  | x :: a', y :: b' => (x =? y)%N && jsstr_eqb a' b'
  | _, _ => false
  end.

Definition parse_empty_object (s : jsstr) : Outcome Json :=
  if jsstr_eqb s "{}" then Ok (JObj [])
  else Throw (newError "Unexpected end of JSON input").

Definition plainTypeError (f : Fault) : string :=
  "Cannot read properties of null".

(** A runtime on the remote world [e], with no key in the process
    environment. *)
Definition runtime_on (e : Env) : Runtime :=
  {| rt_env := e; rt_parse := parse_empty_object;
     rt_typeErrorMessage := plainTypeError;
     rt_API_KEY := None; rt_CLAUDE_API_KEY := None |}.

(** Events that are the request [r] or a sleep. *)
Definition only_events (r : GeminiRequest) (evs : Trace) : Prop :=
  Forall (fun e => e = EvGemini r \/ exists ms, e = EvWait ms) evs.

(** An attempt with the Gemini provider and one with the Claude provider, on
    the same image, with every key set in the settings. *)
Definition geminiAttempt : Attempt :=
  {| a_id := "item-1"; a_base64Data := "AAAA"; a_mimeType := "image/png";
     a_lang := AUTO; a_provider := GEMINI;
     a_claudeApiKey := "claude-key"; a_claudeModelId := "claude-sonnet-4-5-20250929";
     a_geminiApiKey := "gemini-key"; a_geminiProApiKey := "pro-key" |}.

Definition claudeAttempt : Attempt :=
  {| a_id := "item-1"; a_base64Data := "AAAA"; a_mimeType := "image/png";
     a_lang := AUTO; a_provider := CLAUDE;
     a_claudeApiKey := "claude-key"; a_claudeModelId := "claude-sonnet-4-5-20250929";
     a_geminiApiKey := "gemini-key"; a_geminiProApiKey := "pro-key" |}.

(** A call of the standard sub-variant: a translation request to the Flash
    model. *)
Definition is_standard_call (e : Event) : bool :=
  match e with
  | EvGemini r =>
      String.eqb (g_model r) TRANSLATION_MODEL_FLASH &&
      match g_prompt r with TranslationPrompt _ => true | OcrPrompt => false end
  | _ => false
  end.

Definition standard_calls (t : Trace) : nat :=
  List.length (filter is_standard_call t).

(** The premium model is out of quota for good; every other model answers
    with the empty object. *)
Definition env_premium_exhausted : Env :=
  {| gemini := fun _ r =>
       if String.eqb (g_model r) TRANSLATION_MODEL_PRO then Throw quotaError
       else Ok (Some (js "{}"));
     claude := fun _ _ => Ok [TextBlock "{}"] |}.

(** [Array.isArray(v)] for a property [v] that may be missing. *)
Definition isArray (v : option Json) : bool :=
  match v with
  | Some (JArr _) => true
  | _ => false
  end.

(** The default of [claudeService.ts] for a missing [detectedLanguage]. *)
Definition claudeDefaultLanguage (sourceLanguage : SourceLanguage) : Json :=
  match sourceLanguage with
  | AUTO => JStr "Unknown"
  | _ => JStr (language_name sourceLanguage)
  end.

(** What the services throw: an [Error] with a message that is not empty. *)
Definition proper_error (e : JsError) : Prop :=
  isError e = true /\
  exists msg, err_message e = Some msg /\ msg <> EmptyString.

(** What holds of every state the orchestrator can reach: the items are
    coherent; a suspended call belongs to no item but one in ANALYZING; the
    items that the running handler has still to visit are in IDLE and have no
    suspended call; identifiers are not shared. *)
Record Inv (app : App) : Prop := mkInv {
  inv_items : forall i, In i (items app) -> item_ok i;
  inv_pending : forall a i, In a (pending app) -> In i (items app) ->
                            id i = a_id a -> status i = ANALYZING;
  inv_pending_nodup : NoDup (map a_id (pending app));
  inv_items_nodup : NoDup (map id (items app));
  inv_todo : forall x i, In x (todo app) -> In i (items app) ->
                         id i = id x -> status i = IDLE;
  inv_todo_fresh : forall x, In x (todo app) ->
                             ~ In (id x) (map a_id (pending app));
  inv_todo_nodup : NoDup (map id (todo app))
}.

(** A runtime on the remote world [e] whose process environment holds both
    keys. *)
Definition runtime_with_keys (e : Env) : Runtime :=
  {| rt_env := e; rt_parse := parse_empty_object;
     rt_typeErrorMessage := plainTypeError;
     rt_API_KEY := Some "env-gemini-key";
     rt_CLAUDE_API_KEY := Some "env-claude-key" |}.

Definition oneFile : list FileRead :=
  [Readable "id-1" "AAAA" "image/png"].

Definition threeFiles : list FileRead :=
  [Readable "id-1" "AAAA" "image/png";
   Readable "id-2" "BBBB" "image/png";
   Readable "id-3" "CCCC" "image/jpeg"].

(** The message of a call that the credential checks turn down. *)
Definition rejectionMessage (rt : Runtime) (provider : ModelProvider)
    (app : App) : string :=
  if missesClaudeKey rt provider app then missingClaudeKey
  else missingGeminiKey.

(** The application after the Claude key alone was saved in the settings. *)
Definition appWithClaudeKey : App :=
  handleSaveSettings "claude-key" "claude-sonnet-4-5-20250929"
    EmptyString EmptyString initialApp.

Definition idleItem : BatchItem :=
  {| id := "id-1"; base64Data := "AAAA"; mimeType := "image/png";
     status := IDLE; result := None; error := None |}.

(** The sample runtime with both keys in the process environment, and the
    application right after one file, or three, were chosen. *)
Definition keyedRuntime : Runtime :=
  runtime_with_keys (env_quota_then 0 "{}" "{}").

Definition keylessRuntime : Runtime := runtime_on (env_failing serverError).

Definition appWithOneFile : App := handleFileChange oneFile initialApp.

Definition appWithThreeFiles : App :=
  handleFileChange threeFiles appWithClaudeKey.

(* ===================================================================== *)
(** * Further notions for stating what the code does *)
(* ===================================================================== *)

(** The events of the retrier around the request [r] when it sleeps [k]
    times: the request, then [k] times a sleep (each twice the one before)
    and the request again. *)
Fixpoint backoff_events (r : GeminiRequest) (delay : Z) (k : nat) : Trace :=
  match k with
  | O => [EvGemini r]
  | S k' => EvGemini r :: EvWait delay :: backoff_events r (delay * 2) k'
  end.

(** The history a call of the retrier sees at its last request. *)
Definition before_last (t : Trace) (r : GeminiRequest) (delay : Z) (k : nat)
    : Trace :=
  (t ++ removelast (backoff_events r delay k))%list.

(** [seg.target || ''] for a target that is a string or is missing. *)
Definition target_text (seg : Json) : jsstr :=
  match get_field "target" seg with
  | Some (JStr t) => t
  | _ => []
  end.

(** What [segments.map] makes of one segment. *)
Definition processed (seg : Json) (s : TranslationSegment) : Prop :=
  source s = get_field "source" seg /\
  target s = normalize (target_text seg).

(** 96 is the backtick. *)
Definition no_backtick (s : jsstr) : Prop := indexOf 96 s = None.

Definition is_claude_call (e : Event) : bool :=
  match e with
  | EvClaude _ => true
  | _ => false
  end.

Definition claude_calls (t : Trace) : nat :=
  List.length (filter is_claude_call t).

(** A request that carries a credential. *)
Definition credentialed (e : Event) : bool :=
  match e with
  | EvGemini r => key_truthy (g_apiKey r)
  | EvClaude r => nonempty (c_apiKey r)
  | EvWait _ => true
  end.

(** The keys an attempt holds, with those of the process environment, cover
    what its provider needs. *)
Definition attempt_credentialed (rt : Runtime) (a : Attempt) : bool :=
  (negb (is_claude (a_provider a))
   || nonempty (a_claudeApiKey a) || key_truthy (rt_CLAUDE_API_KEY rt))
  && (nonempty (a_geminiApiKey a) || key_truthy (rt_API_KEY rt)).

(** Two items, or an item and an attempt, about the same image. *)
Definition same_payload (i j : BatchItem) : Prop :=
  id i = id j /\ base64Data i = base64Data j /\ mimeType i = mimeType j.

Definition attempt_of_item (a : Attempt) (i : BatchItem) : Prop :=
  a_id a = id i /\ a_base64Data a = base64Data i /\ a_mimeType a = mimeType i.

(** A remote world in which the OCR call answers [text], the Gemini
    translation calls fail on quota and Claude fails with [e]. *)
Definition env_claude_failing (text : jsstr) (e : JsError) : Env :=
  {| gemini := fun _ r =>
       match g_prompt r with
       | OcrPrompt => Ok (Some text)
       | TranslationPrompt _ => Throw quotaError
       end;
     claude := fun _ _ => Throw e |}.

Definition unauthorized : JsError :=
  {| err_status := VNum 401; err_code := VUndef; err_inner_code := VUndef;
     err_message := Some "invalid x-api-key";
     err_type := Some "authentication_error";
     stringified := "{}"; isError := true |}.

(** Checks of the uppercase mapping, for reading its properties off the
    table. *)
(** A code unit that [toUpperCase] leaves as it is. *)
Definition unit_fixed (d : N) : bool :=
  match lookup_upper d upper_table with
  | None => true
  | Some [d'] => (d' =? d)%N
  | Some _ => false
  end.

Definition entry_ok (e : N * list N) : bool :=
  nonempty_text (snd e) && forallb unit_fixed (snd e).

(** On the ASCII range [toUpperCase] maps a-z to A-Z and nothing else. *)
Definition ascii_upper_ok (c : N) : bool :=
  match toUpperCase1 c with
  | [d] => (d =? (if is_ascii_lower c then c - 32 else c))%N
  | _ => false
  end.

(** The first code unit, if there is one, is one that [toUpperCase] leaves
    as it is. *)
Definition first_upper (s : jsstr) : Prop :=
  match s with
  | [] => True
  | c :: _ => toUpperCase1 c = [c]
  end.

(** A segment on which the post-processing throws: [null], or a [target]
    that is truthy and not a string. *)
Definition malformed (seg : Json) : Prop :=
  seg = JNull \/
  exists v, get_field "target" seg = Some v /\ json_truthy (Some v) = true /\
            forall s, v <> JStr s.

(** What else holds of every state the orchestrator can reach: an item in
    ANALYZING has a suspended call; a suspended call, and an item that the
    running handler has still to visit, hold the image of the item with
    their identifier; the suspended calls hold the credentials that their
    provider needs, and every call of an SDK that was made carried one. *)
Record Tracked (rt : Runtime) (app : App) : Prop := mkTracked {
  tr_analyzing : forall i, In i (items app) -> status i = ANALYZING ->
                           In (id i) (map a_id (pending app));
  tr_payload : forall a i, In a (pending app) -> In i (items app) ->
                           id i = a_id a -> attempt_of_item a i;
  tr_todo : forall x i, In x (todo app) -> In i (items app) ->
                        id i = id x -> same_payload x i;
  tr_keys : forall a, In a (pending app) -> attempt_credentialed rt a = true;
  tr_network : forall e, In e (network app) -> credentialed e = true
}.

(** The sample application after its one file was dispatched, and the call
    that is then suspended. *)
Definition appDispatched : App := dispatchNext keyedRuntime appWithOneFile.

Definition dispatchedAttempt : Attempt :=
  {| a_id := "id-1"; a_base64Data := "AAAA"; a_mimeType := "image/png";
     a_lang := AUTO; a_provider := CLAUDE;
     a_claudeApiKey := EmptyString;
     a_claudeModelId := "claude-sonnet-4-5-20250929";
     a_geminiApiKey := EmptyString; a_geminiProApiKey := EmptyString |}.

(** The settings that a handler holds: those of the render that made it. *)
Record Settings := mkSettings {
  s_lang : SourceLanguage;
  s_provider : ModelProvider;
  s_claudeApiKey : string;
  s_claudeModelId : string;
  s_geminiApiKey : string;
  s_geminiProApiKey : string
}.

Definition snapshot (app : App) : Settings :=
  {| s_lang := sourceLang app; s_provider := modelProvider app;
     s_claudeApiKey := claudeApiKey app;
     s_claudeModelId := claudeModelId app;
     s_geminiApiKey := geminiApiKey app;
     s_geminiProApiKey := geminiProApiKey app |}.

Definition with_settings (s : Settings) (app : App) : App :=
  {| items := items app; sourceLang := s_lang s;
     modelProvider := s_provider s; isSettingsOpen := isSettingsOpen app;
     claudeApiKey := s_claudeApiKey s; claudeModelId := s_claudeModelId s;
     geminiApiKey := s_geminiApiKey s;
     geminiProApiKey := s_geminiProApiKey s;
     todo := todo app; pending := pending app; network := network app |}.

(** One visit of [newItems.forEach(item => translateItem(item, sourceLang,
    modelProvider))] as the handler of the change event makes it:
    [translateItem], the language, the provider and the keys are those of
    the render in which the files were chosen ([s]), whatever the settings
    have become while the files were read (the [await] of line 61); the
    items and the calls in flight are those of the moment of the visit, and
    the visit changes no setting. *)
Definition visit (rt : Runtime) (s : Settings) (item : BatchItem)
    (app : App) : App :=
  with_settings (snapshot app)
    (translateItem rt item (s_lang s) (s_provider s) (with_settings s app)).

Definition visitAll (rt : Runtime) (s : Settings) (l : list BatchItem)
    (app : App) : App :=
  fold_left (fun a item => visit rt s item a) l app.

(** [handleFileChange], lines 76-85, in the render with the settings [s]:
    the new items are appended and visited. *)
Definition handleFileChange_in (rt : Runtime) (s : Settings)
    (files : list FileRead) (app : App) : App :=
  visitAll rt s (newItems files)
    (setItems (fun prev => (prev ++ newItems files)%list) app).

(** The two checks of [translateItem] on the settings [s]. *)
Definition turned_down (rt : Runtime) (s : Settings) : bool :=
  (is_claude (s_provider s) && negb (nonempty (s_claudeApiKey s))
   && negb (key_truthy (rt_CLAUDE_API_KEY rt)))
  || negb (nonempty (s_geminiApiKey s) || key_truthy (rt_API_KEY rt)).

Definition rejection_of (rt : Runtime) (s : Settings) : string :=
  if is_claude (s_provider s) && negb (nonempty (s_claudeApiKey s))
     && negb (key_truthy (rt_CLAUDE_API_KEY rt))
  then missingClaudeKey else missingGeminiKey.

(** The call that [translateItem] leaves suspended for an item, under the
    settings [s]. *)
Definition attempt_with (s : Settings) (item : BatchItem) : Attempt :=
  {| a_id := id item; a_base64Data := base64Data item;
     a_mimeType := mimeType item;
     a_lang := s_lang s; a_provider := s_provider s;
     a_claudeApiKey := s_claudeApiKey s;
     a_claudeModelId := s_claudeModelId s;
     a_geminiApiKey := s_geminiApiKey s;
     a_geminiProApiKey := s_geminiProApiKey s |}.

(** Settings with the Gemini provider and its key. *)
Definition settingsWithGemini : Settings :=
  {| s_lang := KOREAN; s_provider := GEMINI;
     s_claudeApiKey := EmptyString;
     s_claudeModelId := "claude-sonnet-4-5-20250929";
     s_geminiApiKey := "gemini-key"; s_geminiProApiKey := EmptyString |}.

(** The two messages of the Gemini service. *)
Definition geminiQuotaMessage : string :=
  "Gemini API Quota Exceeded. Please check your API key in Settings.".

Definition geminiFailureMessage : string :=
  "Failed to process image. Please try again.".

(* ===================================================================== *)
(** * Properties of the text normalizer *)
(* ===================================================================== *)

(** ** The uppercase mapping *)

Lemma lookup_upper_In c table u :
  lookup_upper c table = Some u -> In (c, u) table.
Proof.
  induction table as [|[k v] table IH]; simpl; [discriminate|].
  destruct (k =? c)%N eqn:E.
  - intros H. injection H as ->. apply N.eqb_eq in E. subst k. left.
    reflexivity.
  - intros H. right. apply IH, H.
Qed.

Lemma upper_table_ok : forallb entry_ok upper_table = true.
Proof. vm_compute. reflexivity. Qed.

Lemma unit_fixed_spec d : unit_fixed d = true -> toUpperCase1 d = [d].
Proof.
  unfold unit_fixed, toUpperCase1.
  destruct (lookup_upper d upper_table) as [[|d' [|? ?]]|];
    try discriminate; [|reflexivity].
  intros H. apply N.eqb_eq in H. subst d'. reflexivity.
Qed.

Lemma toUpperCase1_cases c :
  toUpperCase1 c = [c] \/
  exists u, In (c, u) upper_table /\ toUpperCase1 c = u.
Proof.
  unfold toUpperCase1. destruct (lookup_upper c upper_table) as [u|] eqn:L.
  - right. exists u. split; [apply lookup_upper_In, L|reflexivity].
  - left. reflexivity.
Qed.

(** The uppercase form of a code unit is never empty. *)
Lemma toUpperCase1_nonempty c : toUpperCase1 c <> [].
Proof.
  destruct (toUpperCase1_cases c) as [->|[u [Hin ->]]]; [discriminate|].
  pose proof (proj1 (forallb_forall _ _) upper_table_ok _ Hin) as H.
  apply andb_prop in H as [H _]. destruct u; [discriminate H|discriminate].
Qed.

(** Uppercasing is done in one step: the code units of an uppercase form are
    their own uppercase forms. *)
Lemma toUpperCase1_fixed c d :
  In d (toUpperCase1 c) -> toUpperCase1 d = [d].
Proof.
  intros Hd. unfold toUpperCase1 in Hd.
  destruct (lookup_upper c upper_table) as [u|] eqn:L.
  - apply lookup_upper_In in L.
    pose proof (proj1 (forallb_forall _ _) upper_table_ok _ L) as H.
    apply andb_prop in H as [_ H].
    apply unit_fixed_spec, (proj1 (forallb_forall _ _) H d Hd).
  - destruct Hd as [<-|[]]. unfold toUpperCase1. rewrite L. reflexivity.
Qed.

Lemma forallb_below (f : N -> bool) (n : nat) :
  forallb f (map N.of_nat (seq 0 n)) = true ->
  forall c, (c < N.of_nat n)%N -> f c = true.
Proof.
  intros H c Hc. apply (proj1 (forallb_forall _ _) H).
  apply in_map_iff. exists (N.to_nat c). split; [apply N2Nat.id|].
  apply in_seq. lia.
Qed.

Lemma toUpperCase1_ascii c :
  (c < 128)%N ->
  toUpperCase1 c = [if is_ascii_lower c then (c - 32)%N else c].
Proof.
  intros Hc.
  assert (H : ascii_upper_ok c = true).
  { apply (forallb_below ascii_upper_ok 128); [vm_compute; reflexivity|].
    exact Hc. }
  unfold ascii_upper_ok in H.
  destruct (toUpperCase1 c) as [|d [|? ?]]; try discriminate.
  apply N.eqb_eq in H. subst d. reflexivity.
Qed.

Lemma is_ascii_lower_below c : is_ascii_lower c = true -> (c < 128)%N.
Proof.
  unfold is_ascii_lower. intros H. apply andb_prop in H as [_ H].
  apply N.leb_le in H. lia.
Qed.

Lemma toUpperCase1_lower c :
  is_ascii_lower c = true -> toUpperCase1 c = [(c - 32)%N].
Proof.
  intros H. rewrite (toUpperCase1_ascii c (is_ascii_lower_below c H)), H.
  reflexivity.
Qed.

(** No uppercase form holds a lowercase [i]. *)
Lemma toUpperCase1_no_i c d : In d (toUpperCase1 c) -> d <> 105%N.
Proof.
  intros Hd ->. apply toUpperCase1_fixed in Hd.
  rewrite (toUpperCase1_lower 105 eq_refl) in Hd. discriminate.
Qed.

(** A code unit that is its own uppercase form is no lowercase letter of
    ASCII. *)
Lemma fixed_not_lower d :
  toUpperCase1 d = [d] -> is_ascii_letter d = true -> is_ascii_upper d = true.
Proof.
  intros H L. unfold is_ascii_letter in L.
  destruct (is_ascii_lower d) eqn:Q; [|exact L].
  rewrite (toUpperCase1_lower d Q) in H. injection H as H.
  unfold is_ascii_lower in Q. apply andb_prop in Q as [Q _].
  apply N.leb_le in Q. lia.
Qed.

(** ** The two rules *)

Lemma rule2_char_word p c rest :
  is_word_char (rule2_char p c rest) = is_word_char c.
Proof.
  unfold rule2_char.
  destruct (c =? 105)%N eqn:Hc; simpl; [|reflexivity].
  apply N.eqb_eq in Hc. subst c.
  destruct (negb p && negb (word_ahead rest)); reflexivity.
Qed.

Lemma replace_i_cons p c rest :
  replace_i p (c :: rest) =
  rule2_char p c rest :: replace_i (is_word_char c) rest.
Proof. reflexivity. Qed.

Lemma word_ahead_replace_i p s : word_ahead (replace_i p s) = word_ahead s.
Proof.
  destruct s as [|c rest]; [reflexivity|].
  rewrite replace_i_cons. simpl. apply rule2_char_word.
Qed.

Lemma rule2_char_idem p c rest rest' :
  word_ahead rest' = word_ahead rest ->
  rule2_char p (rule2_char p c rest) rest' = rule2_char p c rest.
Proof.
  intros Hw. unfold rule2_char. rewrite Hw.
  destruct (c =? 105)%N eqn:Hc; simpl.
  - destruct (negb p && negb (word_ahead rest)) eqn:Hb; simpl.
    + reflexivity.
    + rewrite Hc. simpl. rewrite Hb. reflexivity.
  - rewrite Hc. reflexivity.
Qed.

Lemma replace_i_idem s : forall p, replace_i p (replace_i p s) = replace_i p s.
Proof.
  induction s as [|c rest IH]; intros p; [reflexivity|].
  rewrite !replace_i_cons.
  rewrite rule2_char_idem by apply word_ahead_replace_i.
  rewrite rule2_char_word, IH. reflexivity.
Qed.

Lemma rule2_char_other p c rest : c <> 105%N -> rule2_char p c rest = c.
Proof.
  intros H. unfold rule2_char. apply N.eqb_neq in H. rewrite H. reflexivity.
Qed.

(** Rule 2 leaves a stretch without [i] as it is, and goes on behind it. *)
Lemma replace_i_app u : forall p rest,
  (forall d, In d u -> d <> 105%N) ->
  replace_i p (u ++ rest)%list
  = (u ++ replace_i (match u with
                     | [] => p
                     | _ => is_word_char (last u 0%N)
                     end) rest)%list.
Proof.
  induction u as [|d u IH]; intros p rest H; [reflexivity|].
  change ((d :: u) ++ rest)%list with (d :: (u ++ rest))%list.
  rewrite replace_i_cons, rule2_char_other by (apply H; left; reflexivity).
  rewrite IH by (intros x Hx; apply H; right; exact Hx).
  destruct u; reflexivity.
Qed.

Lemma capitalizeFirst_cons c rest :
  capitalizeFirst (c :: rest) = (toUpperCase1 c ++ rest)%list.
Proof. reflexivity. Qed.

(** The normalized text: the uppercase form of the first code unit, then
    the rest with its standalone [i]s replaced. *)
Lemma normalize_cons c rest :
  normalize (c :: rest) =
  (toUpperCase1 c
   ++ replace_i (is_word_char (last (toUpperCase1 c) 0%N)) rest)%list.
Proof.
  unfold normalize. rewrite capitalizeFirst_cons.
  rewrite replace_i_app by apply toUpperCase1_no_i.
  destruct (toUpperCase1 c) eqn:E; [|reflexivity].
  exfalso. apply (toUpperCase1_nonempty c E).
Qed.

Lemma normalize_empty : normalize [] = [].
Proof. reflexivity. Qed.

(** Rule 1 has nothing left to do on a normalized text. *)
Lemma capitalizeFirst_normalize T :
  capitalizeFirst (normalize T) = normalize T.
Proof.
  destruct T as [|c rest]; [reflexivity|].
  rewrite normalize_cons.
  destruct (toUpperCase1 c) as [|d u] eqn:E;
    [exfalso; apply (toUpperCase1_nonempty c E)|].
  change ((d :: u) ++ ?r)%list with (d :: (u ++ r))%list.
  rewrite capitalizeFirst_cons.
  rewrite (toUpperCase1_fixed c d) by (rewrite E; left; reflexivity).
  reflexivity.
Qed.

Lemma replace_i_normalize T : replace_i false (normalize T) = normalize T.
Proof. unfold normalize. apply replace_i_idem. Qed.

(** C6: the normalizer is idempotent. *)
Theorem normalize_idempotent (T : jsstr) :
  normalize (normalize T) = normalize T.
Proof.
  unfold normalize at 1. rewrite capitalizeFirst_normalize.
  apply replace_i_normalize.
Qed.

Lemma get_replace_i s : forall p k c,
  nth_error s k = Some c ->
  nth_error (replace_i p s) k =
  Some (if (c =? 105)%N && negb (behind p s k) && negb (word_after s k)
        then 73%N else c).
Proof.
  induction s as [|c0 rest IH]; intros p k c Hget;
    [destruct k; discriminate|].
  rewrite replace_i_cons. destruct k as [|j]; simpl in Hget.
  - injection Hget as <-. simpl. unfold rule2_char, word_after. simpl.
    destruct rest; reflexivity.
  - simpl. rewrite (IH (is_word_char c0) j c Hget).
    replace (behind (is_word_char c0) rest j)
      with (behind p (c0 :: rest) (S j)) by (destruct j; reflexivity).
    reflexivity.
Qed.

Lemma length_replace_i s : forall p,
  List.length (replace_i p s) = List.length s.
Proof.
  induction s as [|c rest IH]; intros p; [reflexivity|].
  rewrite replace_i_cons. simpl. rewrite IH. reflexivity.
Qed.

Lemma no_standalone_after_replace s k : ~ standalone_i (replace_i false s) k.
Proof.
  intros [Hget [Hb Ha]].
  pose proof (get_replace_i (replace_i false s) false k 105%N Hget) as H.
  rewrite replace_i_idem, Hget in H.
  unfold word_before in Hb. rewrite Hb, Ha in H. discriminate.
Qed.

(** C7: the normalized text is the uppercase form of the first code unit of
    the text followed by the rest of the text, in which nothing but
    standalone [i]s has changed.  Its first code unit is one that
    [toUpperCase] leaves as it is, so that a letter of ASCII is uppercase
    there; no standalone lowercase [i] is left, so that [i'm] becomes [I'm];
    and rule 2 changes no other code unit, so that [is] and [it] stay as
    they are.  Standalone is meant as the word boundary of the regular
    expression is: an [i] with no character of [A-Za-z0-9_] on either side,
    which the [i] that ends [t\u00F4i] is. *)
Theorem normalize_capitalizes (T : jsstr) :
  (forall c rest, T = c :: rest ->
     normalize T
     = (toUpperCase1 c
        ++ replace_i (is_word_char (last (toUpperCase1 c) 0%N)) rest)%list /\
     List.length (replace_i (is_word_char (last (toUpperCase1 c) 0%N)) rest)
     = List.length rest) /\
  (forall d, nth_error (normalize T) 0 = Some d ->
     toUpperCase1 d = [d] /\
     (is_ascii_letter d = true -> is_ascii_upper d = true)) /\
  (forall c rest, T = c :: rest -> is_ascii_lower c = true ->
     nth_error (normalize T) 0 = Some (c - 32)%N) /\
  (forall k, ~ standalone_i (normalize T) k) /\
  (forall k c, nth_error (capitalizeFirst T) k = Some c ->
     ~ standalone_i (capitalizeFirst T) k ->
     nth_error (normalize T) k = Some c) /\
  (forall k, standalone_i (capitalizeFirst T) k ->
     nth_error (normalize T) k = Some 73%N) /\
  normalize "i'm sure it is i" = "I'm sure it is I" /\
  normalize "is it his, i think" = "Is it his, I think" /\
  normalize (0xE9 :: js "lan i")%N = (0xC9 :: js "lan I")%N /\
  normalize [0xDF; 97]%N = "SSa" /\
  normalize [116; 0xF4; 105]%N = [84; 0xF4; 73]%N.
Proof.
  split.
  { intros c rest ->. split; [apply normalize_cons|apply length_replace_i]. }
  assert (Hfirst : forall d, nth_error (normalize T) 0 = Some d ->
                             toUpperCase1 d = [d]).
  { intros d Hget. destruct T as [|c rest]; [discriminate|].
    rewrite normalize_cons in Hget.
    destruct (toUpperCase1 c) as [|d0 u] eqn:E;
      [exfalso; apply (toUpperCase1_nonempty c E)|].
    simpl in Hget. injection Hget as <-.
    apply (toUpperCase1_fixed c). rewrite E. left. reflexivity. }
  split.
  { intros d Hget. split; [apply Hfirst, Hget|].
    apply fixed_not_lower, Hfirst, Hget. }
  split.
  { intros c rest -> Hc. rewrite normalize_cons, (toUpperCase1_lower c Hc).
    reflexivity. }
  split; [intros k; apply no_standalone_after_replace|].
  split.
  { intros k c Hget Hns. unfold normalize.
    rewrite (get_replace_i _ false k c Hget).
    destruct (c =? 105)%N eqn:Hc; [|reflexivity].
    apply N.eqb_eq in Hc. subst c.
    destruct (behind false (capitalizeFirst T) k) eqn:Hb; [reflexivity|].
    destruct (word_after (capitalizeFirst T) k) eqn:Ha; [reflexivity|].
    exfalso. apply Hns. repeat split; assumption. }
  split.
  { intros k [Hget [Hb Ha]]. unfold normalize.
    rewrite (get_replace_i _ false k 105%N Hget).
    unfold word_before in Hb. rewrite Hb, Ha. reflexivity. }
  repeat split; vm_compute; reflexivity.
Qed.

Lemma normalize_capitalizes_witness :
  nth_error (capitalizeFirst "is i") 1 = Some 115%N /\
  ~ standalone_i (capitalizeFirst "is i") 1 /\
  nth_error (normalize "is i") 1 = Some 115%N /\
  normalize "is i" = "Is I".
Proof.
  assert (Hget : nth_error (capitalizeFirst "is i") 1 = Some 115%N)
    by (vm_compute; reflexivity).
  assert (Hns : ~ standalone_i (capitalizeFirst "is i") 1)
    by (intros [H _]; vm_compute in H; discriminate).
  split; [exact Hget|]. split; [exact Hns|].
  split; [|vm_compute; reflexivity].
  destruct (normalize_capitalizes "is i") as [_ [_ [_ [_ [Hkeep _]]]]].
  apply (Hkeep 1%nat 115%N); [exact Hget|exact Hns].
Defined.

(* ===================================================================== *)
(** * Properties of the backoff retrier *)
(* ===================================================================== *)

(** One unfolding of the retrier, at a given history. *)
Lemma retry_step {T} (operation : M T) (retries delay : Z) (t : Trace) :
  retryWithBackoff operation retries delay t =
  match operation t with
  | (Ok r, t') => (Ok r, t')
  | (Throw e, t') =>
      if isQuotaError e && (0 <? retries)
      then retryWithBackoff operation (retries - 1) (delay * 2)
             (t' ++ [EvWait delay])%list
      else (Throw e, t')
  end.
Proof.
  rewrite retryWithBackoff_equation_1. unfold try_catch.
  destruct (operation t) as [[r|e] t']; [reflexivity|].
  destruct (sumbool_of_bool (isQuotaError e && (0 <? retries))) as [H|H];
    rewrite H; reflexivity.
Qed.

Lemma isQuotaError_status e :
  err_status e = VNum 429 -> isQuotaError e = true.
Proof. intros H. unfold isQuotaError, errorCode. rewrite H. reflexivity. Qed.

Lemma is_num_spec v n : is_num v n = true <-> v = VNum n.
Proof.
  destruct v as [|m|s]; simpl; split; try discriminate.
  - intros H. apply Z.eqb_eq in H. congruence.
  - intros H. injection H as ->. apply Z.eqb_refl.
Qed.

Lemma isQuotaError_spec e :
  isQuotaError e = true <->
  errorCode e = VNum 429 \/
  includes (errorMessage e) "429" = true \/
  includes (toLowerCase (errorMessage e)) "quota" = true \/
  includes (toLowerCase (errorMessage e)) "resource_exhausted" = true.
Proof.
  unfold isQuotaError. rewrite !orb_true_iff, is_num_spec. tauto.
Qed.

Lemma message_or_nonempty e m fallback :
  err_message e = Some m -> nonempty m = true -> message_or e fallback = m.
Proof. intros H Hm. unfold message_or. rewrite H, Hm. reflexivity. Qed.

Lemma includes_nonempty s needle :
  nonempty needle = true -> includes s needle = true -> nonempty s = true.
Proof.
  intros Hn H. destruct s; [|reflexivity].
  destruct needle; [discriminate|]. simpl in H. discriminate.
Qed.

Lemma isQuotaError_message e m :
  err_message e = Some m ->
  includes m "429" = true \/
  includes (toLowerCase m) "quota" = true \/
  includes (toLowerCase m) "resource_exhausted" = true ->
  isQuotaError e = true.
Proof.
  intros Hm H.
  assert (Hne : nonempty m = true).
  { destruct H as [H|[H|H]].
    - eapply includes_nonempty; [|exact H]; reflexivity.
    - destruct m; [discriminate H|reflexivity].
    - destruct m; [discriminate H|reflexivity]. }
  unfold isQuotaError, errorMessage. rewrite (message_or_nonempty e m _ Hm Hne).
  destruct H as [H|[H|H]]; rewrite H; rewrite ?orb_true_r; reflexivity.
Qed.

(** C3: the contract of the retrier.  A success is returned at once; a
    failure that is not a quota failure propagates at once, the operation
    having run once; a quota failure with retries left sleeps [delay] and
    goes on with one retry less and twice the delay; with no retry left the
    last error propagates.  Code 429 and the words 429, quota and
    resource_exhausted make a quota failure.  Under the default policy an
    operation that fails twice on quota and then succeeds runs three times,
    with 2000 + 4000 ms of sleep. *)
Theorem retryWithBackoff_contract {T} (operation : M T) (retries delay : Z)
    (t : Trace) :
  (forall r t', operation t = (Ok r, t') ->
     retryWithBackoff operation retries delay t = (Ok r, t')) /\
  (forall e t', operation t = (Throw e, t') -> isQuotaError e = false ->
     retryWithBackoff operation retries delay t = (Throw e, t')) /\
  (forall e t', operation t = (Throw e, t') -> isQuotaError e = true ->
     0 < retries ->
     retryWithBackoff operation retries delay t =
     retryWithBackoff operation (retries - 1) (delay * 2)
       (t' ++ [EvWait delay])%list) /\
  (forall e t', operation t = (Throw e, t') -> retries <= 0 ->
     retryWithBackoff operation retries delay t = (Throw e, t')) /\
  (forall e,
     isQuotaError e = true <->
     errorCode e = VNum 429 \/
     includes (errorMessage e) "429" = true \/
     includes (toLowerCase (errorMessage e)) "quota" = true \/
     includes (toLowerCase (errorMessage e)) "resource_exhausted" = true) /\
  (forall e, err_status e = VNum 429 -> isQuotaError e = true) /\
  (forall e m, err_message e = Some m ->
     includes m "429" = true \/
     includes (toLowerCase m) "quota" = true \/
     includes (toLowerCase m) "resource_exhausted" = true ->
     isQuotaError e = true) /\
  (forall e1 e2 t1 t2 r t3,
     operation t = (Throw e1, t1) -> isQuotaError e1 = true ->
     operation (t1 ++ [EvWait 2000])%list = (Throw e2, t2) ->
     isQuotaError e2 = true ->
     operation (t2 ++ [EvWait 4000])%list = (Ok r, t3) ->
     retryWithBackoff operation default_retries default_delay t = (Ok r, t3)) /\
  (forall env req e1 e2 r,
     gemini env [] req = Throw e1 -> isQuotaError e1 = true ->
     gemini env [EvGemini req; EvWait 2000] req = Throw e2 ->
     isQuotaError e2 = true ->
     gemini env [EvGemini req; EvWait 2000; EvGemini req; EvWait 4000] req
       = Ok r ->
     exists t',
       retryWithBackoff (generateContent env req)
         default_retries default_delay [] = (Ok r, t') /\
       calls t' = 3%nat /\ total_delay t' = 6000).
Proof.
  repeat split.
  - intros r t' H. rewrite retry_step, H. reflexivity.
  - intros e t' H Hq. rewrite retry_step, H, Hq. reflexivity.
  - intros e t' H Hq Hpos. rewrite retry_step, H, Hq.
    apply Z.ltb_lt in Hpos. rewrite Hpos. reflexivity.
  - intros e t' H Hle. rewrite retry_step, H.
    assert (Hn : (0 <? retries) = false) by (apply Z.ltb_ge; exact Hle).
    rewrite Hn, andb_false_r. reflexivity.
  - apply isQuotaError_spec.
  - apply isQuotaError_spec.
  - apply isQuotaError_status.
  - apply isQuotaError_message.
  - intros e1 e2 t1 t2 r t3 H1 Hq1 H2 Hq2 H3.
    unfold default_retries, default_delay.
    rewrite retry_step, H1, Hq1. simpl.
    rewrite retry_step, H2, Hq2. simpl.
    rewrite retry_step, H3. reflexivity.
  - intros env req e1 e2 r H1 Hq1 H2 Hq2 H3.
    exists [EvGemini req; EvWait 2000; EvGemini req; EvWait 4000; EvGemini req].
    split; [|split; reflexivity].
    unfold default_retries, default_delay.
    rewrite retry_step. unfold generateContent at 1. rewrite H1, Hq1. simpl.
    rewrite retry_step. unfold generateContent at 1. rewrite H2, Hq2. simpl.
    rewrite retry_step. unfold generateContent at 1. rewrite H3. reflexivity.
Qed.

Lemma retryWithBackoff_contract_witness :
  (* a success *)
  (generateContent (env_quota_then 0 "ok" "{}") sampleRequest [] =
     (Ok (Some (js "ok")), [EvGemini sampleRequest]) /\
   retryWithBackoff (generateContent (env_quota_then 0 "ok" "{}") sampleRequest)
     3 2000 [] = (Ok (Some (js "ok")), [EvGemini sampleRequest])) /\
  (* a failure that is not a quota failure *)
  (generateContent (env_failing serverError) sampleRequest [] =
     (Throw serverError, [EvGemini sampleRequest]) /\
   isQuotaError serverError = false /\
   retryWithBackoff (generateContent (env_failing serverError) sampleRequest)
     3 2000 [] = (Throw serverError, [EvGemini sampleRequest])) /\
  (* a quota failure with retries left *)
  (generateContent (env_failing quotaError) sampleRequest [] =
     (Throw quotaError, [EvGemini sampleRequest]) /\
   isQuotaError quotaError = true /\ 0 < 3 /\
   retryWithBackoff (generateContent (env_failing quotaError) sampleRequest)
     3 2000 [] =
   retryWithBackoff (generateContent (env_failing quotaError) sampleRequest)
     (3 - 1) (2000 * 2) ([EvGemini sampleRequest] ++ [EvWait 2000])%list) /\
  (* no retry left *)
  (0 <= 0 /\
   retryWithBackoff (generateContent (env_failing quotaError) sampleRequest)
     0 16000 [] = (Throw quotaError, [EvGemini sampleRequest])) /\
  (* two quota failures, then a success *)
  (gemini (env_quota_then 2 "ok" "{}") [] sampleRequest = Throw quotaError /\
   gemini (env_quota_then 2 "ok" "{}") [EvGemini sampleRequest; EvWait 2000]
     sampleRequest = Throw quotaError /\
   gemini (env_quota_then 2 "ok" "{}")
     [EvGemini sampleRequest; EvWait 2000; EvGemini sampleRequest; EvWait 4000]
     sampleRequest = Ok (Some (js "ok")) /\
   exists t',
     retryWithBackoff (generateContent (env_quota_then 2 "ok" "{}") sampleRequest)
       default_retries default_delay [] = (Ok (Some (js "ok")), t') /\
     calls t' = 3%nat /\ total_delay t' = 6000).
Proof.
  split.
  { split; [reflexivity|].
    apply (proj1 (retryWithBackoff_contract
                    (generateContent (env_quota_then 0 "ok" "{}") sampleRequest)
                    3 2000 [])).
    reflexivity. }
  split.
  { split; [reflexivity|]. split; [reflexivity|].
    apply (proj1 (proj2 (retryWithBackoff_contract
                    (generateContent (env_failing serverError) sampleRequest)
                    3 2000 []))); reflexivity. }
  split.
  { split; [reflexivity|]. split; [reflexivity|]. split; [lia|].
    apply (proj1 (proj2 (proj2 (retryWithBackoff_contract
                    (generateContent (env_failing quotaError) sampleRequest)
                    3 2000 []))) quotaError); [reflexivity|reflexivity|lia]. }
  split.
  { split; [lia|].
    apply (proj1 (proj2 (proj2 (proj2 (retryWithBackoff_contract
                    (generateContent (env_failing quotaError) sampleRequest)
                    0 16000 [])))) quotaError); [reflexivity|lia]. }
  split; [reflexivity|]. split; [reflexivity|]. split; [reflexivity|].
  apply (proj2 (proj2 (proj2 (proj2 (proj2 (proj2 (proj2 (proj2
           (retryWithBackoff_contract (ret tt) 0 0 [])))))))))
    with (e1 := quotaError) (e2 := quotaError); reflexivity.
Defined.

(* ===================================================================== *)
(** * The calls that a run of a service makes *)
(* ===================================================================== *)

Lemma only_events_translation r evs :
  only_events r evs -> is_extraction (EvGemini r) = false ->
  Forall (fun e => is_extraction e = false) evs.
Proof.
  intros H Hr. induction H as [|e evs [He|[ms He]] _ IH]; constructor; subst;
    auto.
Qed.

Lemma only_events_extraction r evs :
  only_events r evs -> is_translation (EvGemini r) = false ->
  Forall (fun e => is_translation e = false) evs.
Proof.
  intros H Hr. induction H as [|e evs [He|[ms He]] _ IH]; constructor; subst;
    auto.
Qed.

(** The retrier around one request: the request goes out at least once, and
    nothing but this request and sleeps happens. *)
Lemma retry_generate_events env r : forall n retries delay t,
  (Z.to_nat retries <= n)%nat ->
  exists evs,
    snd (retryWithBackoff (generateContent env r) retries delay t)
    = (t ++ EvGemini r :: evs)%list /\ only_events r evs.
Proof.
  induction n as [|n IH]; intros retries delay t Hn;
    rewrite retry_step; unfold generateContent at 1;
    destruct (gemini env t r) as [x|e]; simpl;
    try (exists []; split; [reflexivity|constructor]).
  - assert (H0 : (0 <? retries) = false) by (apply Z.ltb_ge; lia).
    rewrite H0, andb_false_r. exists []. split; [reflexivity|constructor].
  - destruct (isQuotaError e && (0 <? retries)) eqn:Hq.
    + apply andb_prop in Hq as [_ Hpos]. apply Z.ltb_lt in Hpos.
      destruct (IH (retries - 1) (delay * 2)
                  ((t ++ [EvGemini r]) ++ [EvWait delay])%list) as [evs [E O]];
        [lia|].
      exists (EvWait delay :: EvGemini r :: evs). split.
      * rewrite E. rewrite <- !app_assoc. reflexivity.
      * constructor; [right; eexists; reflexivity|].
        constructor; [left; reflexivity|exact O].
    + exists []. split; [reflexivity|constructor].
Qed.

Lemma retry_generate_answered env r retries delay t x :
  gemini env t r = Ok x ->
  retryWithBackoff (generateContent env r) retries delay t
  = (Ok x, (t ++ [EvGemini r])%list).
Proof.
  intros H. rewrite retry_step. unfold generateContent. rewrite H. reflexivity.
Qed.

Lemma retry_generate_refused env r retries delay t e :
  gemini env t r = Throw e -> isQuotaError e = false ->
  retryWithBackoff (generateContent env r) retries delay t
  = (Throw e, (t ++ [EvGemini r])%list).
Proof.
  intros H Hq. rewrite retry_step. unfold generateContent. rewrite H, Hq.
  reflexivity.
Qed.

Section ServiceRuns.

Variable env : Env.
Variable JSON_parse : jsstr -> Outcome Json.
Variable typeErrorMessage : Fault -> string.
Variable API_KEY : option string.
Variable CLAUDE_API_KEY : option string.

Lemma extract_events img mime gKey t :
  exists evs,
    snd (extractTextFromImage env API_KEY img mime gKey t)
    = (t ++ EvGemini (ocrRequest img mime (getAiClient API_KEY gKey)) :: evs)%list
    /\ only_events (ocrRequest img mime (getAiClient API_KEY gKey)) evs.
Proof.
  destruct (retry_generate_events env
              (ocrRequest img mime (getAiClient API_KEY gKey))
              (Z.to_nat default_retries) default_retries default_delay t
              (Nat.le_refl _)) as [evs [E O]].
  exists evs. split; [|exact O].
  unfold extractTextFromImage, try_catch, bind.
  destruct (retryWithBackoff _ _ _ t) as [[resp|e] t'] eqn:R; simpl in E;
    subst t'.
  - destruct resp as [text|]; [destruct (nonempty_text text)|]; reflexivity.
  - destruct (isQuotaError e); reflexivity.
Qed.

Lemma execute_events img mime lang model client t :
  exists evs,
    snd (executeTranslation env img mime lang model client t)
    = (t ++ EvGemini (translationRequest img mime lang model client) :: evs)%list
    /\ only_events (translationRequest img mime lang model client) evs.
Proof.
  apply (retry_generate_events env _ (Z.to_nat default_retries)).
  apply Nat.le_refl.
Qed.

End ServiceRuns.

Lemma only_events_no_standard r evs :
  only_events r evs -> is_standard_call (EvGemini r) = false ->
  standard_calls evs = 0%nat.
Proof.
  intros H Hr. unfold standard_calls.
  induction H as [|e evs [He|[ms He]] _ IH]; [reflexivity| |]; subst.
  - cbn [filter]. rewrite Hr. exact IH.
  - exact IH.
Qed.

(* ===================================================================== *)
(** * Properties of the two services *)
(* ===================================================================== *)

Section ServiceProperties.

Variable env : Env.
Variable JSON_parse : jsstr -> Outcome Json.
Variable typeErrorMessage : Fault -> string.
Variable API_KEY : option string.
Variable CLAUDE_API_KEY : option string.

Lemma fallback_events img mime lang apiKey proApiKey t :
  exists evs,
    snd (translateWithFallback env API_KEY img mime lang apiKey proApiKey t)
    = (t ++ EvGemini (translationRequest img mime lang TRANSLATION_MODEL_PRO
                        (getAiClient API_KEY (key_or proApiKey apiKey)))
          :: evs)%list /\
    Forall (fun e => is_extraction e = false) evs.
Proof.
  unfold translateWithFallback, try_catch.
  destruct (execute_events env img mime lang TRANSLATION_MODEL_PRO
              (getAiClient API_KEY (key_or proApiKey apiKey)) t)
    as [evs [E O]].
  destruct (executeTranslation env img mime lang TRANSLATION_MODEL_PRO _ t)
    as [[x|e] t1]; simpl in E; subst t1.
  - exists evs. split; [reflexivity|].
    apply (only_events_translation _ _ O). reflexivity.
  - destruct (isQuotaError e).
    + destruct (execute_events env img mime lang TRANSLATION_MODEL_FLASH
                  (getAiClient API_KEY apiKey)
                  (t ++ EvGemini (translationRequest img mime lang
                          TRANSLATION_MODEL_PRO
                          (getAiClient API_KEY (key_or proApiKey apiKey)))
                     :: evs)%list) as [evs' [E' O']].
      eexists. split.
      * rewrite E'. rewrite <- app_assoc. simpl. reflexivity.
      * apply Forall_app. split.
        -- apply (only_events_translation _ _ O). reflexivity.
        -- constructor; [reflexivity|].
           apply (only_events_translation _ _ O'). reflexivity.
    + exists evs. split; [reflexivity|].
      apply (only_events_translation _ _ O). reflexivity.
Qed.

Lemma gemini_service_events img mime lang apiKey proApiKey t :
  snd (translateImageContent env JSON_parse typeErrorMessage API_KEY
         img mime lang apiKey proApiKey t)
  = snd (translateWithFallback env API_KEY img mime lang apiKey proApiKey t).
Proof.
  unfold translateImageContent, try_catch, bind, lift.
  destruct (translateWithFallback env API_KEY img mime lang apiKey proApiKey t)
    as [[resp|e] t1]; simpl.
  - destruct resp as [text|]; simpl.
    + destruct (nonempty_text text); simpl.
      * destruct (parseGeminiText JSON_parse text) as [parsed|e]; simpl.
        -- destruct (buildGeminiResult typeErrorMessage lang parsed) as [r|e];
             simpl; [reflexivity|]. destruct (isQuotaError e); reflexivity.
        -- destruct (isQuotaError e); reflexivity.
      * reflexivity.
    + reflexivity.
  - destruct (isQuotaError e); reflexivity.
Qed.

Lemma claude_step_events lang key modelId text t :
  snd (try_catch
         (claudeTranslate env JSON_parse typeErrorMessage lang key modelId text)
         (fun error => throw (claudeCatch modelId error)) t)
  = (t ++ [EvClaude (mkClaudeRequest modelId key lang text)])%list.
Proof.
  unfold try_catch, claudeTranslate, bind, messagesCreate, lift, throw.
  destruct (claude env t _) as [msg|e]; [|reflexivity].
  destruct (find_text msg) as [answer|]; [|reflexivity].
  destruct (JSON_parse (claude_json_text answer)) as [parsed|e]; [|reflexivity].
  destruct (buildClaudeResult typeErrorMessage lang parsed); reflexivity.
Qed.

Lemma claude_service_events img mime lang apiKey modelId gKey t :
  exists evs,
    snd (translateImageContentWithClaude env JSON_parse typeErrorMessage
           API_KEY CLAUDE_API_KEY img mime lang apiKey modelId gKey t)
    = (t ++ evs)%list /\
    (key_truthy (key_or apiKey CLAUDE_API_KEY) = true ->
     exists evs',
       evs = EvGemini (ocrRequest img mime (getAiClient API_KEY gKey)) :: evs') /\
    (key_truthy (key_or apiKey CLAUDE_API_KEY) = false -> evs = []).
Proof.
  unfold translateImageContentWithClaude.
  destruct (key_or apiKey CLAUDE_API_KEY) as [k|] eqn:K; simpl;
    [destruct (nonempty k) eqn:Kn|].
  - destruct (extract_events env API_KEY img mime gKey t) as [evs0 [E O]].
    unfold bind at 1. unfold try_catch at 1.
    destruct (extractTextFromImage env API_KEY img mime gKey t)
      as [[text|e] t1]; simpl in E; subst t1.
    + destruct (negb (nonempty_text text) || (List.length (trim text) =? 0)%nat).
      * eexists. split; [reflexivity|]. split; [eauto|discriminate].
      * rewrite claude_step_events. eexists. split.
        -- rewrite <- app_assoc. simpl. reflexivity.
        -- split; [eauto|discriminate].
    + eexists. split; [reflexivity|]. split; [eauto|discriminate].
  - exists []. rewrite app_nil_r. split; [reflexivity|].
    split; [discriminate|reflexivity].
  - exists []. rewrite app_nil_r. split; [reflexivity|].
    split; [discriminate|reflexivity].
Qed.

End ServiceProperties.

(** C1, as the code has it: with the Claude provider the first remote call of
    a run is the extraction call (and without a Claude key the run makes no
    call at all); with the Gemini provider no extraction call is made: the
    first remote call is the premium translation call on the image. *)
Theorem extraction_comes_first (rt : Runtime) (a : Attempt) (t : Trace) :
  exists evs,
    snd (runStrategy rt a t) = (t ++ evs)%list /\
    (a_provider a = CLAUDE ->
       extraction_first evs = true /\
       (key_truthy (key_or (Some (a_claudeApiKey a)) (rt_CLAUDE_API_KEY rt))
          = true ->
        exists evs',
          evs = EvGemini (ocrRequest (a_base64Data a) (a_mimeType a)
                            (getAiClient (rt_API_KEY rt)
                               (Some (a_geminiApiKey a))))
                :: evs') /\
       (key_truthy (key_or (Some (a_claudeApiKey a)) (rt_CLAUDE_API_KEY rt))
          = false ->
        evs = [])) /\
    (a_provider a = GEMINI ->
       exists evs',
         evs = EvGemini (translationRequest (a_base64Data a) (a_mimeType a)
                           (a_lang a) TRANSLATION_MODEL_PRO
                           (getAiClient (rt_API_KEY rt)
                              (key_or (Some (a_geminiProApiKey a))
                                      (Some (a_geminiApiKey a)))))
               :: evs' /\
         Forall (fun e => is_extraction e = false) evs).
Proof.
  unfold runStrategy. destruct (a_provider a).
  - destruct (fallback_events (rt_env rt) (rt_API_KEY rt) (a_base64Data a)
                (a_mimeType a) (a_lang a) (Some (a_geminiApiKey a))
                (Some (a_geminiProApiKey a)) t) as [evs [E F]].
    eexists. split.
    + rewrite gemini_service_events. exact E.
    + split; [discriminate|]. intros _. eexists. split; [reflexivity|].
      constructor; [reflexivity|exact F].
  - destruct (claude_service_events (rt_env rt) (rt_parse rt)
                (rt_typeErrorMessage rt) (rt_API_KEY rt)
                (rt_CLAUDE_API_KEY rt) (a_base64Data a) (a_mimeType a)
                (a_lang a) (Some (a_claudeApiKey a)) (a_claudeModelId a)
                (Some (a_geminiApiKey a)) t) as [evs [E [Hk Hn]]].
    exists evs. split; [exact E|]. split; [|discriminate].
    intros _. split; [|split; assumption].
    destruct (key_truthy (key_or (Some (a_claudeApiKey a))
                            (rt_CLAUDE_API_KEY rt))).
    + destruct (Hk eq_refl) as [evs' ->]. reflexivity.
    + rewrite (Hn eq_refl). reflexivity.
Qed.

Lemma extraction_comes_first_witness :
  a_provider claudeAttempt = CLAUDE /\
  key_truthy (key_or (Some (a_claudeApiKey claudeAttempt)) None) = true /\
  exists evs,
    snd (runStrategy (runtime_on (env_quota_then 0 "text" "{}"))
           claudeAttempt []) = evs /\
    extraction_first evs = true.
Proof.
  split; [reflexivity|]. split; [reflexivity|].
  destruct (extraction_comes_first
              (runtime_on (env_quota_then 0 "text" "{}")) claudeAttempt [])
    as [evs [E [Hc _]]].
  exists evs. split; [exact E|]. exact (proj1 (Hc eq_refl)).
Defined.

(** C1, as it is stated, fails: a run with the Gemini provider starts with a
    translation call and makes no extraction call. *)
Lemma gemini_run_skips_extraction :
  snd (runStrategy (runtime_on (env_quota_then 0 "{}" "{}")) geminiAttempt [])
  = [EvGemini (translationRequest "AAAA" "image/png" AUTO
                 TRANSLATION_MODEL_PRO (Some "pro-key"))] /\
  extraction_first
    (snd (runStrategy (runtime_on (env_quota_then 0 "{}" "{}"))
            geminiAttempt [])) = false.
Proof. split; reflexivity. Qed.

Lemma trimStart_blank s :
  Forall (fun c => is_space c = true) s -> trimStart s = [].
Proof.
  induction 1 as [|c s Hc _ IH]; [reflexivity|].
  simpl. rewrite Hc. exact IH.
Qed.

(** A text of white space and line terminators trims to the empty text. *)
Lemma trim_blank s : Forall (fun c => is_space c = true) s -> trim s = [].
Proof. intros H. unfold trim. rewrite (trimStart_blank s H). reflexivity. Qed.

(** C2: in the pipeline that has an extraction step (the Claude service),
    when the extracted text is empty after trimming (nothing but the white
    space and line terminators that [trim] strips) the run ends right after
    the extraction with the result {detectedLanguage: "Unknown", segments: []}
    and no translation call has been made.  The extraction itself gives the
    empty text for such an answer of the OCR model. *)
Theorem empty_extraction_short_circuits (env : Env)
    (JSON_parse : jsstr -> Outcome Json) (typeErrorMessage : Fault -> string)
    (API_KEY CLAUDE_API_KEY : option string) (img mime : string)
    (lang : SourceLanguage) (apiKey : option string) (modelId : string)
    (gKey : option string) (t t1 : Trace) (text : jsstr) :
  key_truthy (key_or apiKey CLAUDE_API_KEY) = true ->
  extractTextFromImage env API_KEY img mime gKey t = (Ok text, t1) ->
  trim text = [] ->
  translateImageContentWithClaude env JSON_parse typeErrorMessage API_KEY
    CLAUDE_API_KEY img mime lang apiKey modelId gKey t
  = (Ok {| detectedLanguage := JStr "Unknown"; segments := [] |}, t1) /\
  (exists evs, t1 = (t ++ evs)%list /\
               Forall (fun e => is_translation e = false) evs) /\
  (forall answer t2,
     retryWithBackoff
       (generateContent env (ocrRequest img mime (getAiClient API_KEY gKey)))
       default_retries default_delay t = (Ok (Some answer), t2) ->
     Forall (fun c => is_space c = true) answer ->
     extractTextFromImage env API_KEY img mime gKey t = (Ok [], t2)).
Proof.
  intros Hk Hx Ht. split; [|split].
  - unfold translateImageContentWithClaude.
    destruct (key_or apiKey CLAUDE_API_KEY) as [k|]; [|discriminate].
    simpl in Hk. rewrite Hk.
    unfold bind at 1. unfold try_catch at 1. rewrite Hx, Ht.
    rewrite orb_true_r. reflexivity.
  - destruct (extract_events env API_KEY img mime gKey t) as [evs [E O]].
    rewrite Hx in E. simpl in E. eexists. split; [exact E|].
    constructor; [reflexivity|].
    apply (only_events_extraction _ _ O). reflexivity.
  - intros answer t2 R B. unfold extractTextFromImage, try_catch, bind.
    rewrite R. destruct answer as [|c rest]; [reflexivity|].
    simpl nonempty_text. cbv iota. rewrite (trim_blank _ B). reflexivity.
Qed.

Lemma empty_extraction_short_circuits_witness :
  key_truthy (key_or (Some "claude-key") None) = true /\
  extractTextFromImage (env_quota_then 1 blankAnswer "{}") None "AAAA"
    "image/png" (Some "key") []
  = (Ok [],
     [EvGemini (ocrRequest "AAAA" "image/png" (Some "key")); EvWait 2000;
      EvGemini (ocrRequest "AAAA" "image/png" (Some "key"))]) /\
  trim [] = [] /\
  translateImageContentWithClaude (env_quota_then 1 blankAnswer "{}")
    parse_empty_object plainTypeError None None "AAAA" "image/png" KOREAN
    (Some "claude-key") "claude-sonnet-4-5-20250929" (Some "key") []
  = (Ok {| detectedLanguage := JStr "Unknown"; segments := [] |},
     [EvGemini (ocrRequest "AAAA" "image/png" (Some "key")); EvWait 2000;
      EvGemini (ocrRequest "AAAA" "image/png" (Some "key"))]).
Proof.
  split; [reflexivity|]. split; [reflexivity|]. split; [reflexivity|].
  apply (proj1 (empty_extraction_short_circuits
                  (env_quota_then 1 blankAnswer "{}")
                  parse_empty_object plainTypeError None None "AAAA"
                  "image/png" KOREAN (Some "claude-key")
                  "claude-sonnet-4-5-20250929" (Some "key") [] _ []
                  eq_refl eq_refl eq_refl)).
Defined.

Lemma gemini_result_without_array tem lang fields :
  isArray (get_field "segments" (JObj fields)) = false ->
  buildGeminiResult tem lang (JObj fields)
  = Ok {| detectedLanguage :=
            json_or (get_field "detectedLanguage" (JObj fields))
              (JStr (language_name lang));
          segments := [] |}.
Proof.
  intros H. unfold buildGeminiResult.
  destruct (get_field "segments" (JObj fields)) as [[]|]; try reflexivity.
  discriminate.
Qed.

Lemma claude_result_without_array tem lang fields :
  isArray (get_field "segments" (JObj fields)) = false ->
  buildClaudeResult tem lang (JObj fields)
  = Ok {| detectedLanguage :=
            json_or (get_field "detectedLanguage" (JObj fields))
              (claudeDefaultLanguage lang);
          segments := [] |}.
Proof.
  intros H. unfold buildClaudeResult.
  destruct (get_field "segments" (JObj fields)) as [[]|]; try reflexivity.
  discriminate.
Qed.

(** What the two services answer for a missing [detectedLanguage]. *)
Lemma missing_language_defaults tem lang fields r :
  get_field "detectedLanguage" (JObj fields) = None ->
  (buildGeminiResult tem lang (JObj fields) = Ok r ->
   detectedLanguage r = JStr (language_name lang)) /\
  (buildClaudeResult tem lang (JObj fields) = Ok r ->
   detectedLanguage r = claudeDefaultLanguage lang).
Proof.
  intros H. unfold buildGeminiResult, buildClaudeResult. rewrite H. split.
  - destruct (map_postProcess tem _); [|discriminate].
    intros E. injection E as <-. reflexivity.
  - destruct (match get_field "segments" (JObj fields) with
              | Some (JArr items) => map_postProcess tem items
              | _ => Ok []
              end); [|discriminate].
    intros E. injection E as <-. reflexivity.
Qed.

(** C5 at its failing input: the answer of the model is the empty object and
    the hint is AUTO.  The Gemini service reports the hint itself,
    "Auto-Detect", as the detected language; the Claude service reports
    "Unknown". *)
Theorem gemini_reports_auto_hint :
  translateImageContent (env_quota_then 0 "{}" "{}") parse_empty_object
    plainTypeError None "AAAA" "image/png" AUTO (Some "gemini-key") None []
  = (Ok {| detectedLanguage := JStr "Auto-Detect"; segments := [] |},
     [EvGemini (translationRequest "AAAA" "image/png" AUTO
                  TRANSLATION_MODEL_PRO (Some "gemini-key"))]) /\
  translateImageContentWithClaude (env_quota_then 0 "text" "{}")
    parse_empty_object plainTypeError None None "AAAA" "image/png" AUTO
    (Some "claude-key") "claude-sonnet-4-5-20250929" (Some "gemini-key") []
  = (Ok {| detectedLanguage := JStr "Unknown"; segments := [] |},
     [EvGemini (ocrRequest "AAAA" "image/png" (Some "gemini-key"));
      EvClaude (mkClaudeRequest "claude-sonnet-4-5-20250929" "claude-key"
                  AUTO "text")]).
Proof. split; reflexivity. Qed.

(** C10: when the answer of the model parses to an object whose [segments]
    is missing or is not an array, both services return a result with no
    segments instead of failing; and a segment without a [target] gets the
    empty string. *)
Theorem segments_default_to_empty (env : Env)
    (JSON_parse : jsstr -> Outcome Json) (typeErrorMessage : Fault -> string)
    (API_KEY CLAUDE_API_KEY : option string) (img mime : string)
    (lang : SourceLanguage) (fields : list (string * Json)) :
  isArray (get_field "segments" (JObj fields)) = false ->
  (forall apiKey proApiKey t t1 text,
     translateWithFallback env API_KEY img mime lang apiKey proApiKey t
       = (Ok (Some text), t1) ->
     nonempty_text text = true ->
     parseGeminiText JSON_parse text = Ok (JObj fields) ->
     translateImageContent env JSON_parse typeErrorMessage API_KEY img mime
       lang apiKey proApiKey t
     = (Ok {| detectedLanguage :=
                json_or (get_field "detectedLanguage" (JObj fields))
                  (JStr (language_name lang));
              segments := [] |}, t1)) /\
  (forall apiKey modelId gKey key t t1 text content answer,
     key_or apiKey CLAUDE_API_KEY = Some key -> nonempty key = true ->
     extractTextFromImage env API_KEY img mime gKey t = (Ok text, t1) ->
     trim text <> [] ->
     claude env t1 (mkClaudeRequest modelId key lang text) = Ok content ->
     find_text content = Some answer ->
     JSON_parse (claude_json_text answer) = Ok (JObj fields) ->
     translateImageContentWithClaude env JSON_parse typeErrorMessage API_KEY
       CLAUDE_API_KEY img mime lang apiKey modelId gKey t
     = (Ok {| detectedLanguage :=
                json_or (get_field "detectedLanguage" (JObj fields))
                  (claudeDefaultLanguage lang);
              segments := [] |},
        (t1 ++ [EvClaude (mkClaudeRequest modelId key lang text)])%list)) /\
  (forall sfields,
     get_field "target" (JObj sfields) = None ->
     postProcess typeErrorMessage (JObj sfields)
     = Ok {| source := get_field "source" (JObj sfields);
             target := [] |}).
Proof.
  intros Hseg. split; [|split].
  - intros apiKey proApiKey t t1 text Hcall Hne Hparse.
    unfold translateImageContent, try_catch, bind, lift.
    rewrite Hcall, Hne, Hparse.
    rewrite (gemini_result_without_array _ _ _ Hseg). reflexivity.
  - intros apiKey modelId gKey key t t1 text content answer
      Hkey Hne Hx Htrim Hc Hfind Hparse.
    assert (Htext : negb (nonempty_text text)
                    || (List.length (trim text) =? 0)%nat = false).
    { destruct text as [|c rest]; [exfalso; apply Htrim; reflexivity|].
      destruct (trim (c :: rest)) eqn:T; [exfalso; apply Htrim; reflexivity|].
      reflexivity. }
    unfold translateImageContentWithClaude. rewrite Hkey, Hne.
    unfold bind at 1. unfold try_catch at 1. rewrite Hx, Htext.
    unfold try_catch, claudeTranslate, bind, messagesCreate, lift.
    rewrite Hc, Hfind, Hparse.
    rewrite (claude_result_without_array _ _ _ Hseg). reflexivity.
  - intros sfields Htarget. unfold postProcess. rewrite Htarget. reflexivity.
Qed.

Lemma segments_default_to_empty_witness :
  isArray (get_field "segments" (JObj [])) = false /\
  translateWithFallback (env_quota_then 0 "{}" "{}") None "AAAA" "image/png"
    KOREAN (Some "key") None []
  = (Ok (Some (js "{}")),
     [EvGemini (translationRequest "AAAA" "image/png" KOREAN
                  TRANSLATION_MODEL_PRO (Some "key"))]) /\
  nonempty_text "{}" = true /\
  parseGeminiText parse_empty_object "{}" = Ok (JObj []) /\
  translateImageContent (env_quota_then 0 "{}" "{}") parse_empty_object
    plainTypeError None "AAAA" "image/png" KOREAN (Some "key") None []
  = (Ok {| detectedLanguage := JStr "Korean"; segments := [] |},
     [EvGemini (translationRequest "AAAA" "image/png" KOREAN
                  TRANSLATION_MODEL_PRO (Some "key"))]).
Proof.
  split; [reflexivity|]. split; [reflexivity|]. split; [reflexivity|].
  split; [reflexivity|].
  apply (proj1 (segments_default_to_empty (env_quota_then 0 "{}" "{}")
                  parse_empty_object plainTypeError None None "AAAA"
                  "image/png" KOREAN [] eq_refl)
           (Some "key") None [] _ "{}"); reflexivity.
Defined.

(* ===================================================================== *)
(** * What the services throw *)
(* ===================================================================== *)

Lemma newError_proper msg : msg <> EmptyString -> proper_error (newError msg).
Proof. intros H. split; [reflexivity|]. exists msg. split; [reflexivity|exact H]. Qed.

Lemma nonempty_neq s : nonempty s = true -> s <> EmptyString.
Proof. destruct s; [discriminate|]. intros _; discriminate. Qed.

Lemma message_or_neq e fallback :
  fallback <> EmptyString -> message_or e fallback <> EmptyString.
Proof.
  intros H. unfold message_or. destruct (err_message e) as [m|]; [|exact H].
  destruct (nonempty m) eqn:N; [apply nonempty_neq; exact N|exact H].
Qed.

Lemma claudeCatch_proper modelId e : proper_error (claudeCatch modelId e).
Proof.
  unfold claudeCatch.
  destruct (is_num (err_status e) 401); [apply newError_proper; discriminate|].
  destruct (is_num (err_status e) 404); [apply newError_proper; discriminate|].
  destruct (match err_type e with
            | Some ty => String.eqb ty "overloaded_error"
            | None => false
            end); [apply newError_proper; discriminate|].
  destruct (includes (message_or e EmptyString) "Failed to parse response");
    [apply newError_proper; discriminate|].
  destruct (nonempty (message_or e EmptyString)) eqn:N.
  - apply newError_proper, nonempty_neq, N.
  - apply newError_proper; discriminate.
Qed.

Section ServiceErrors.

Variable env : Env.
Variable JSON_parse : jsstr -> Outcome Json.
Variable typeErrorMessage : Fault -> string.
Variable API_KEY : option string.
Variable CLAUDE_API_KEY : option string.

Lemma gemini_service_throws img mime lang apiKey proApiKey t e t' :
  translateImageContent env JSON_parse typeErrorMessage API_KEY img mime lang
    apiKey proApiKey t = (Throw e, t') ->
  proper_error e.
Proof.
  unfold translateImageContent, try_catch.
  destruct (bind _ _ t) as [[r|e0] t0]; [discriminate|].
  destruct (isQuotaError e0); unfold throw; intros H; injection H as <- _;
    apply newError_proper; discriminate.
Qed.

Lemma claude_service_throws img mime lang apiKey modelId gKey t e t' :
  translateImageContentWithClaude env JSON_parse typeErrorMessage API_KEY
    CLAUDE_API_KEY img mime lang apiKey modelId gKey t = (Throw e, t') ->
  proper_error e.
Proof.
  unfold translateImageContentWithClaude.
  assert (Hmiss : forall t0,
            @throw TranslationResult
              (newError "Claude API Key is missing. Please add it in Settings.")
              t0 = (Throw e, t') -> proper_error e).
  { unfold throw. intros t0 H. injection H as <- _.
    apply newError_proper; discriminate. }
  destruct (key_or apiKey CLAUDE_API_KEY) as [k|]; [|apply Hmiss].
  destruct (nonempty k); [|apply Hmiss].
  unfold bind at 1. unfold try_catch at 1.
  destruct (extractTextFromImage env API_KEY img mime gKey t) as [[text|e0] t0].
  - destruct (negb (nonempty_text text) || (List.length (trim text) =? 0)%nat);
      [discriminate|].
    unfold try_catch.
    destruct (claudeTranslate _ _ _ _ _ _ _ t0) as [[r|e1] t1]; [discriminate|].
    unfold throw. intros H. injection H as <- _. apply claudeCatch_proper.
  - unfold throw. intros H. injection H as <- _.
    apply newError_proper, message_or_neq. discriminate.
Qed.

End ServiceErrors.

Lemma runStrategy_throws rt a t e t' :
  runStrategy rt a t = (Throw e, t') -> proper_error e.
Proof.
  unfold runStrategy. destruct (a_provider a).
  - apply gemini_service_throws.
  - apply claude_service_throws.
Qed.

(* ===================================================================== *)
(** * Properties of the batch orchestrator *)
(* ===================================================================== *)

Lemma In_update_item x f l i' :
  In i' (update_item x f l) ->
  exists j, In j l /\ ((id j = x /\ i' = f j) \/ (id j <> x /\ i' = j)).
Proof.
  unfold update_item. intros H. apply in_map_iff in H as [j [E Hj]].
  exists j. split; [exact Hj|].
  destruct (String.eqb (id j) x) eqn:Q.
  - left. apply String.eqb_eq in Q. auto.
  - right. apply String.eqb_neq in Q. auto.
Qed.

Lemma map_id_update_item x f l :
  (forall j, id (f j) = id j) ->
  map id (update_item x f l) = map id l.
Proof.
  intros Hf. unfold update_item. rewrite map_map. apply map_ext.
  intros j. destruct (String.eqb (id j) x); [apply Hf|reflexivity].
Qed.

Lemma update_item_untouched x f l :
  ~ In x (map id l) -> update_item x f l = l.
Proof.
  intros H. unfold update_item. rewrite <- (map_id l) at 2.
  apply map_ext_in. intros j Hj.
  destruct (String.eqb (id j) x) eqn:Q; [|reflexivity].
  apply String.eqb_eq in Q. exfalso. apply H. subst x. apply in_map. exact Hj.
Qed.

Lemma NoDup_map_inj {A B} (f : A -> B) l a b :
  NoDup (map f l) -> In a l -> In b l -> f a = f b -> a = b.
Proof.
  induction l as [|c l IH]; simpl; intros N Ha Hb E; [contradiction|].
  inversion N as [|? ? Hc N']; subst.
  destruct Ha as [->|Ha], Hb as [->|Hb].
  - reflexivity.
  - exfalso. apply Hc. rewrite E. apply in_map. exact Hb.
  - exfalso. apply Hc. rewrite <- E. apply in_map. exact Ha.
  - apply IH; assumption.
Qed.

Lemma In_remove_nth {A} k (l : list A) a : In a (remove_nth k l) -> In a l.
Proof.
  revert k. induction l as [|c l IH]; intros k H; [destruct k; exact H|].
  destruct k as [|k]; simpl in H.
  - right. exact H.
  - destruct H as [->|H]; [left; reflexivity|right; apply (IH k H)].
Qed.

Lemma NoDup_remove_nth {A B} (f : A -> B) k l :
  NoDup (map f l) -> NoDup (map f (remove_nth k l)).
Proof.
  revert k. induction l as [|c l IH]; intros k N; [destruct k; exact N|].
  inversion N as [|? ? Hc N']; subst. destruct k as [|k]; simpl.
  - exact N'.
  - constructor; [|apply IH; exact N'].
    intros H. apply Hc. apply in_map_iff in H as [a [E Ha]].
    apply in_map_iff. exists a. split; [exact E|].
    apply (In_remove_nth k l a Ha).
Qed.

Lemma nth_not_in_remove {A B} (f : A -> B) k l a :
  NoDup (map f l) -> nth_error l k = Some a ->
  ~ In (f a) (map f (remove_nth k l)).
Proof.
  revert k. induction l as [|c l IH]; intros k N E; [destruct k; discriminate|].
  inversion N as [|? ? Hc N']; subst. destruct k as [|k]; simpl in E |- *.
  - injection E as ->. exact Hc.
  - intros [H|H].
    + apply Hc. rewrite H. apply in_map. apply (nth_error_In _ _ E).
    + apply (IH k N' E H).
Qed.

Lemma find_item_some x l j : find_item x l = Some j -> In j l /\ id j = x.
Proof.
  unfold find_item. intros H. apply find_some in H as [Hj Q].
  split; [exact Hj|]. apply String.eqb_eq. exact Q.
Qed.

Lemma newItems_idle files x :
  In x (newItems files) ->
  status x = IDLE /\ result x = None /\ error x = None.
Proof.
  induction files as [|[|u b m] files IH]; simpl; intros H.
  - contradiction.
  - apply IH, H.
  - destruct H as [<-|H]; [auto|apply IH, H].
Qed.

Ltac use_item_ok H :=
  unfold item_ok in H;
  match type of H with
  | context [status ?i] =>
      match goal with
      | E : status i = _ |- _ => rewrite E in H
      end
  end.

Section OrchestratorProperties.

Variable rt : Runtime.

(** A call that the credential checks turn down. *)
Lemma translateItem_rejected item lang provider app :
  missesClaudeKey rt provider app
  || negb (hasGeminiKey rt app) = true ->
  exists msg,
    (msg = missingClaudeKey \/ msg = missingGeminiKey) /\
    translateItem rt item lang provider app =
    setIsSettingsOpen true
      (setItems (update_item (id item) (with_error (Some msg))) app).
Proof.
  intros H. unfold translateItem.
  destruct (missesClaudeKey rt provider app).
  - exists missingClaudeKey. split; [left|]; reflexivity.
  - simpl in H. rewrite H. exists missingGeminiKey. split; [right|]; reflexivity.
Qed.

(** A call that passes the checks. *)
Lemma translateItem_accepted item lang provider app :
  missesClaudeKey rt provider app
  || negb (hasGeminiKey rt app) = false ->
  exists a,
    a_id a = id item /\
    translateItem rt item lang provider app =
    setPending (pending app ++ [a])
      (setItems (update_item (id item) with_analyzing) app).
Proof.
  intros H. apply orb_false_elim in H as [H1 H2].
  unfold translateItem. rewrite H1, H2.
  eexists. split; [|reflexivity]. reflexivity.
Qed.

Lemma translateItem_inv item lang provider app :
  Inv app ->
  (forall i, In i (items app) -> id i = id item ->
             status i = IDLE \/ status i = ERROR) ->
  ~ In (id item) (map a_id (pending app)) ->
  (forall y, In y (todo app) -> id y <> id item) ->
  Inv (translateItem rt item lang provider app).
Proof.
  intros I Hst Hnp Htodo.
  assert (Hres : forall i, In i (items app) -> id i = id item ->
                           result i = None).
  { intros i Hi E. pose proof (inv_items _ I i Hi) as Hok.
    destruct (Hst i Hi E) as [S|S]; use_item_ok Hok; tauto. }
  destruct (missesClaudeKey rt provider app
            || negb (hasGeminiKey rt app)) eqn:V.
  - destruct (translateItem_rejected item lang provider app V)
      as [msg [Hmsg ->]].
    assert (Hne : msg <> EmptyString)
      by (destruct Hmsg as [->| ->]; discriminate).
    constructor; simpl.
    + intros i' Hi'. apply In_update_item in Hi' as [j [Hj [[E ->]|[_ ->]]]].
      * unfold item_ok. simpl. split; [apply Hres; assumption|].
        exists msg. auto.
      * apply (inv_items _ I j Hj).
    + intros a i' Ha Hi' E.
      apply In_update_item in Hi' as [j [Hj [[Ej ->]|[_ ->]]]].
      * exfalso. apply Hnp. simpl in E. rewrite <- Ej, E.
        apply in_map. exact Ha.
      * apply (inv_pending _ I a j Ha Hj E).
    + apply (inv_pending_nodup _ I).
    + rewrite map_id_update_item by reflexivity. apply (inv_items_nodup _ I).
    + intros y i' Hy Hi' E.
      apply In_update_item in Hi' as [j [Hj [[Ej ->]|[_ ->]]]].
      * exfalso. apply (Htodo y Hy). simpl in E. congruence.
      * apply (inv_todo _ I y j Hy Hj E).
    + apply (inv_todo_fresh _ I).
    + apply (inv_todo_nodup _ I).
  - destruct (translateItem_accepted item lang provider app V)
      as [a0 [Ha0 ->]].
    constructor; simpl.
    + intros i' Hi'. apply In_update_item in Hi' as [j [Hj [[E ->]|[_ ->]]]].
      * unfold item_ok. simpl. split; [apply Hres; assumption|reflexivity].
      * apply (inv_items _ I j Hj).
    + intros a i' Ha Hi' E.
      apply In_update_item in Hi' as [j [Hj [[Ej ->]|[Ej ->]]]].
      * reflexivity.
      * apply in_app_or in Ha as [Ha|[<-|[]]].
        -- apply (inv_pending _ I a j Ha Hj E).
        -- exfalso. apply Ej. congruence.
    + rewrite map_app. simpl. rewrite Ha0.
      apply NoDup_app; [apply (inv_pending_nodup _ I)| |].
      * constructor; [intros []|constructor].
      * intros x Hx [<-|[]]. exact (Hnp Hx).
    + rewrite map_id_update_item by reflexivity. apply (inv_items_nodup _ I).
    + intros y i' Hy Hi' E.
      apply In_update_item in Hi' as [j [Hj [[Ej ->]|[_ ->]]]].
      * exfalso. apply (Htodo y Hy). simpl in E. congruence.
      * apply (inv_todo _ I y j Hy Hj E).
    + intros y Hy. rewrite map_app. simpl. rewrite Ha0. intros H.
      apply in_app_or in H as [H|[H|[]]].
      * exact (inv_todo_fresh _ I y Hy H).
      * exact (Htodo y Hy (eq_sym H)).
    + apply (inv_todo_nodup _ I).
Qed.

End OrchestratorProperties.

Section OrchestratorSteps.

Variable rt : Runtime.

Lemma Inv_initial : Inv initialApp.
Proof.
  constructor; simpl; try (intros; contradiction); constructor.
Qed.

Lemma Inv_setTodo app l :
  Inv app -> incl l (todo app) -> NoDup (map id l) -> Inv (setTodo l app).
Proof.
  intros I Hl N. constructor; simpl.
  - apply (inv_items _ I).
  - apply (inv_pending _ I).
  - apply (inv_pending_nodup _ I).
  - apply (inv_items_nodup _ I).
  - intros x i Hx. apply (inv_todo _ I x i (Hl x Hx)).
  - intros x Hx. apply (inv_todo_fresh _ I x (Hl x Hx)).
  - exact N.
Qed.

Lemma Inv_handleFileChange files app :
  Inv app -> enabled (AddFiles files) app ->
  Inv (handleFileChange files app).
Proof.
  intros I [Ht [N F]]. constructor; simpl.
  - intros i Hi. apply in_app_or in Hi as [Hi|Hi].
    + apply (inv_items _ I i Hi).
    + destruct (newItems_idle files i Hi) as [S [R E]].
      unfold item_ok. rewrite S. auto.
  - intros a i Ha Hi E. apply in_app_or in Hi as [Hi|Hi].
    + apply (inv_pending _ I a i Ha Hi E).
    + exfalso. apply (proj2 (F (id i) (in_map id _ _ Hi))).
      rewrite E. apply in_map. exact Ha.
  - apply (inv_pending_nodup _ I).
  - rewrite map_app. apply NoDup_app; [apply (inv_items_nodup _ I)|exact N|].
    intros x Hx Hx'. exact (proj1 (F x Hx') Hx).
  - intros x i Hx Hi E. apply in_app_or in Hi as [Hi|Hi].
    + exfalso. apply (proj1 (F (id x) (in_map id _ _ Hx))).
      rewrite <- E. apply in_map. exact Hi.
    + apply (newItems_idle files i Hi).
  - intros x Hx. apply (proj2 (F (id x) (in_map id _ _ Hx))).
  - exact N.
Qed.

Lemma Inv_dispatchNext app : Inv app -> Inv (dispatchNext rt app).
Proof.
  intros I. unfold dispatchNext. destruct (todo app) as [|x rest] eqn:T;
    [exact I|].
  pose proof (inv_todo_nodup _ I) as N. rewrite T in N. simpl in N.
  inversion N as [|? ? Hx N']; subst.
  apply translateItem_inv.
  - apply Inv_setTodo; [exact I| |exact N'].
    rewrite T. intros y Hy. right. exact Hy.
  - simpl. intros i Hi E. left.
    apply (inv_todo _ I x i); [rewrite T; left; reflexivity|exact Hi|exact E].
  - simpl. apply (inv_todo_fresh _ I x). rewrite T. left. reflexivity.
  - simpl. intros y Hy E. apply Hx. rewrite <- E. apply in_map. exact Hy.
Qed.

Lemma Inv_handleRetry item_id app :
  Inv app -> enabled (Retry item_id) app -> Inv (handleRetry rt item_id app).
Proof.
  intros I [Ht [item [Hi [Eid S]]]]. unfold handleRetry.
  destruct (find_item item_id (items app)) as [j|] eqn:F; [|exact I].
  apply find_item_some in F as [Hj Ej].
  assert (j = item) as ->.
  { apply (NoDup_map_inj id (items app)); [apply (inv_items_nodup _ I)| | |];
      congruence. }
  apply translateItem_inv; [exact I| | |].
  - intros i Hi' E. right.
    assert (i = item) as ->; [|exact S].
    apply (NoDup_map_inj id (items app)); [apply (inv_items_nodup _ I)| | |];
      assumption.
  - intros H. apply in_map_iff in H as [a [Ea Ha]].
    pose proof (inv_pending _ I a item Ha Hi (eq_sym Ea)) as S'.
    rewrite S in S'. discriminate.
  - rewrite Ht. intros y [].
Qed.

Lemma NoDup_map_filter {A B} (f : A -> B) p l :
  NoDup (map f l) -> NoDup (map f (filter p l)).
Proof.
  induction l as [|a l IH]; simpl; intros N; [constructor|].
  inversion N as [|? ? Ha N']; subst.
  destruct (p a); simpl; [|apply IH; exact N'].
  constructor; [|apply IH; exact N'].
  intros H. apply Ha. apply in_map_iff in H as [b [E Hb]].
  apply filter_In in Hb as [Hb _]. rewrite <- E. apply in_map. exact Hb.
Qed.

Lemma Inv_handleRemove item_id app :
  Inv app -> todo app = [] -> Inv (handleRemove item_id app).
Proof.
  intros I Ht. constructor; simpl.
  - intros i Hi. apply filter_In in Hi as [Hi _]. apply (inv_items _ I i Hi).
  - intros a i Ha Hi. apply filter_In in Hi as [Hi _].
    apply (inv_pending _ I a i Ha Hi).
  - apply (inv_pending_nodup _ I).
  - apply NoDup_map_filter, (inv_items_nodup _ I).
  - rewrite Ht. intros x i [].
  - apply (inv_todo_fresh _ I).
  - apply (inv_todo_nodup _ I).
Qed.

Lemma Inv_handleClearAll app : Inv app -> todo app = [] -> Inv (handleClearAll app).
Proof.
  intros I Ht. constructor; simpl.
  - intros i [].
  - intros a i _ [].
  - apply (inv_pending_nodup _ I).
  - constructor.
  - intros x i _ [].
  - apply (inv_todo_fresh _ I).
  - apply (inv_todo_nodup _ I).
Qed.

Lemma Inv_settle k a app :
  Inv app -> nth_error (pending app) k = Some a ->
  Inv (translateItem_settle rt a (setPending (remove_nth k (pending app)) app)).
Proof.
  intros I Hk.
  assert (Ha : In a (pending app)) by (apply (nth_error_In _ _ Hk)).
  assert (Hfresh : ~ In (a_id a) (map a_id (remove_nth k (pending app))))
    by (apply nth_not_in_remove; [apply (inv_pending_nodup _ I)|exact Hk]).
  assert (Hst : forall j, In j (items app) -> id j = a_id a ->
                          result j = None /\ error j = None).
  { intros j Hj E. pose proof (inv_items _ I j Hj) as Hok.
    pose proof (inv_pending _ I a j Ha Hj E) as S. use_item_ok Hok. exact Hok. }
  unfold translateItem_settle. simpl.
  destruct (runStrategy rt a (network app)) as [[r|e] t] eqn:R;
    constructor; simpl.
  - intros i' Hi'. apply In_update_item in Hi' as [j [Hj [[E ->]|[_ ->]]]].
    + unfold item_ok. simpl. split; [eauto|apply (Hst j Hj E)].
    + apply (inv_items _ I j Hj).
  - intros a' i' Ha' Hi' E.
    apply In_update_item in Hi' as [j [Hj [[Ej ->]|[_ ->]]]].
    + exfalso. apply Hfresh. simpl in E. rewrite <- Ej, E.
      apply in_map. exact Ha'.
    + apply (inv_pending _ I a' j (In_remove_nth _ _ _ Ha') Hj E).
  - apply NoDup_remove_nth, (inv_pending_nodup _ I).
  - rewrite map_id_update_item by reflexivity. apply (inv_items_nodup _ I).
  - intros x i' Hx Hi' E.
    apply In_update_item in Hi' as [j [Hj [[Ej ->]|[_ ->]]]].
    + exfalso. apply (inv_todo_fresh _ I x Hx). simpl in E.
      rewrite <- E, Ej. apply in_map. exact Ha.
    + apply (inv_todo _ I x j Hx Hj E).
  - intros x Hx H. apply (inv_todo_fresh _ I x Hx).
    apply in_map_iff in H as [b [Eb Hb]]. rewrite <- Eb. apply in_map.
    apply (In_remove_nth _ _ _ Hb).
  - apply (inv_todo_nodup _ I).
  - intros i' Hi'. apply In_update_item in Hi' as [j [Hj [[E ->]|[_ ->]]]].
    + destruct (runStrategy_throws rt a _ e t R) as [He [msg [Hm Hne]]].
      unfold item_ok. simpl. split; [apply (Hst j Hj E)|].
      rewrite He. exists msg. auto.
    + apply (inv_items _ I j Hj).
  - intros a' i' Ha' Hi' E.
    apply In_update_item in Hi' as [j [Hj [[Ej ->]|[_ ->]]]].
    + exfalso. apply Hfresh. simpl in E. rewrite <- Ej, E.
      apply in_map. exact Ha'.
    + apply (inv_pending _ I a' j (In_remove_nth _ _ _ Ha') Hj E).
  - apply NoDup_remove_nth, (inv_pending_nodup _ I).
  - rewrite map_id_update_item by reflexivity. apply (inv_items_nodup _ I).
  - intros x i' Hx Hi' E.
    apply In_update_item in Hi' as [j [Hj [[Ej ->]|[_ ->]]]].
    + exfalso. apply (inv_todo_fresh _ I x Hx). simpl in E.
      rewrite <- E, Ej. apply in_map. exact Ha.
    + apply (inv_todo _ I x j Hx Hj E).
  - intros x Hx H. apply (inv_todo_fresh _ I x Hx).
    apply in_map_iff in H as [b [Eb Hb]]. rewrite <- Eb. apply in_map.
    apply (In_remove_nth _ _ _ Hb).
  - apply (inv_todo_nodup _ I).
Qed.

Lemma Inv_unchanged app app' :
  Inv app -> items app' = items app -> pending app' = pending app ->
  todo app' = todo app -> Inv app'.
Proof.
  intros I Ei Ep Et. constructor; rewrite ?Ei, ?Ep, ?Et; apply I.
Qed.

Lemma perform_inv act app :
  Inv app -> enabled act app -> Inv (perform rt act app).
Proof.
  intros I En. destruct act; simpl in *.
  - apply Inv_handleFileChange; assumption.
  - apply Inv_dispatchNext; assumption.
  - apply Inv_handleRetry; assumption.
  - apply Inv_handleRemove; assumption.
  - apply Inv_handleClearAll; assumption.
  - apply (Inv_unchanged app); auto.
  - apply (Inv_unchanged app); auto.
  - apply (Inv_unchanged app); auto.
  - apply (Inv_unchanged app); auto.
  - apply (Inv_unchanged app); auto.
  - destruct (nth_error (pending app) k) as [a|] eqn:Hk; [|exact I].
    apply Inv_settle; assumption.
Qed.

Lemma reachable_inv app : reachable rt app -> Inv app.
Proof.
  induction 1 as [|app act _ IH En]; [apply Inv_initial|].
  apply perform_inv; assumption.
Qed.

End OrchestratorSteps.

Section OrchestratorEdges.

Variable rt : Runtime.

(** Every status change made by a step that is not a call turned down by the
    credential checks. *)
Lemma step_changes app act i i' :
  Inv app -> enabled act app -> rejected rt act app = false ->
  In i (items app) -> In i' (items (perform rt act app)) ->
  id i = id i' -> status i <> status i' ->
  (status i = IDLE /\ status i' = ANALYZING /\ act = Dispatch) \/
  (status i = ERROR /\ status i' = ANALYZING /\ act = Retry (id i)) \/
  (status i = ANALYZING /\ (status i' = SUCCESS \/ status i' = ERROR) /\
   exists k, act = Complete k).
Proof.
  intros I En Rj Hi Hi' E Hne.
  assert (Same : forall j, In j (items app) -> id j = id i' -> j = i).
  { intros j Hj Ej. apply (NoDup_map_inj id (items app));
      [apply (inv_items_nodup _ I)|exact Hj|exact Hi|congruence]. }
  assert (Stay : In i' (items app) -> False).
  { intros H. apply Hne. rewrite (Same i' H eq_refl). reflexivity. }
  destruct act; simpl in *.
  - exfalso. destruct En as [_ [_ F]].
    apply in_app_or in Hi' as [H|H]; [exact (Stay H)|].
    apply (proj1 (F (id i') (in_map id _ _ H))).
    rewrite <- E. apply in_map. exact Hi.
  - unfold dispatchNext in Hi'. destruct (todo app) as [|x rest] eqn:T;
      [contradiction|].
    destruct (translateItem_accepted rt x (sourceLang app) (modelProvider app)
                (setTodo rest app) Rj) as [a [_ Ea]].
    rewrite Ea in Hi'. simpl in Hi'.
    apply In_update_item in Hi' as [j [Hj [[Ej ->]|[_ ->]]]];
      [|exfalso; exact (Stay Hj)].
    rewrite (Same j Hj eq_refl) in Ej. left.
    split; [|split; reflexivity].
    apply (inv_todo _ I x i); [rewrite T; left; reflexivity|exact Hi|exact Ej].
  - destruct En as [_ [item [Hit [Eid S]]]]. unfold handleRetry in Hi'.
    destruct (find_item item_id (items app)) as [j0|] eqn:F;
      [|exfalso; exact (Stay Hi')].
    apply find_item_some in F as [Hj0 Ej0].
    destruct (translateItem_accepted rt j0 (sourceLang app) (modelProvider app)
                app Rj) as [a [_ Ea]].
    rewrite Ea in Hi'. simpl in Hi'.
    apply In_update_item in Hi' as [j [Hj [[Ej ->]|[_ ->]]]];
      [|exfalso; exact (Stay Hj)].
    rewrite (Same j Hj eq_refl) in Ej. right. left.
    assert (item = i) as ->.
    { apply (NoDup_map_inj id (items app));
        [apply (inv_items_nodup _ I)|exact Hit|exact Hi|congruence]. }
    split; [exact S|]. split; [reflexivity|]. congruence.
  - exfalso. apply filter_In in Hi' as [H _]. exact (Stay H).
  - contradiction.
  - exfalso. exact (Stay Hi').
  - exfalso. exact (Stay Hi').
  - exfalso. exact (Stay Hi').
  - exfalso. exact (Stay Hi').
  - exfalso. exact (Stay Hi').
  - destruct (nth_error (pending app) k) as [a|] eqn:Hk;
      [|exfalso; exact (Stay Hi')].
    assert (Ha : In a (pending app)) by (apply (nth_error_In _ _ Hk)).
    right. right.
    assert (Hupd : exists f,
              (forall j, status (f j) = SUCCESS \/ status (f j) = ERROR) /\
              (forall j, id (f j) = id j) /\
              In i' (update_item (a_id a) f (items app))).
    { unfold translateItem_settle in Hi'. simpl in Hi'.
      destruct (runStrategy rt a (network app)) as [[r|e] t]; simpl in Hi'.
      - exists (with_success r).
        split; [left; reflexivity|split; [reflexivity|exact Hi']].
      - eexists. split; [|split; [|exact Hi']]; intros j;
          [right|]; reflexivity. }
    destruct Hupd as [f [Hf [Hid Hin]]].
    apply In_update_item in Hin as [j [Hj [[Ej ->]|[_ ->]]]];
      [|exfalso; exact (Stay Hj)].
    assert (Eij : id j = id i) by (rewrite E; symmetry; apply Hid).
    assert (j = i) as ->.
    { apply (NoDup_map_inj id (items app));
        [apply (inv_items_nodup _ I)|exact Hj|exact Hi|exact Eij]. }
    split; [apply (inv_pending _ I a i Ha Hi Ej)|].
    split; [apply Hf|]. exists k. reflexivity.
Qed.

End OrchestratorEdges.

Section OrchestratorRejections.

Variable rt : Runtime.

Lemma translateItem_rejected_eq item lang provider app :
  missesClaudeKey rt provider app = true \/ hasGeminiKey rt app = false ->
  translateItem rt item lang provider app =
  setIsSettingsOpen true
    (setItems (update_item (id item)
                 (with_error (Some (rejectionMessage rt provider app)))) app).
Proof.
  intros H. unfold translateItem, rejectionMessage.
  destruct (missesClaudeKey rt provider app); [reflexivity|].
  destruct H as [H|H]; [discriminate|]. rewrite H. reflexivity.
Qed.

Lemma update_item_app x f l1 l2 :
  update_item x f (l1 ++ l2) = (update_item x f l1 ++ update_item x f l2)%list.
Proof. apply map_app. Qed.

Lemma update_item_cons_same f i l :
  update_item (id i) f (i :: l) = f i :: update_item (id i) f l.
Proof. unfold update_item. simpl. rewrite String.eqb_refl. reflexivity. Qed.

Lemma update_item_cons_other x f i l :
  id i <> x -> update_item x f (i :: l) = i :: update_item x f l.
Proof.
  intros H. unfold update_item. simpl.
  apply String.eqb_neq in H. rewrite H. reflexivity.
Qed.

Lemma dispatchNext_rejected app x rest :
  todo app = x :: rest ->
  hasGeminiKey rt app = false ->
  dispatchNext rt app =
  setIsSettingsOpen true
    (setItems (update_item (id x)
                 (with_error
                    (Some (rejectionMessage rt (modelProvider app) app))))
       (setTodo rest app)).
Proof.
  intros T Hg. unfold dispatchNext. rewrite T.
  rewrite translateItem_rejected_eq by (right; exact Hg). reflexivity.
Qed.

End OrchestratorRejections.

(** C8: a [translateItem] call made while the Claude key (with the Claude
    provider) or the Gemini key (needed for extraction with either provider)
    is missing from the settings and from the process environment puts the
    item in ERROR with a message that names the missing key, opens the
    settings and leaves the network alone: nothing is sent and no call is
    left suspended.  So three files added without a Gemini key give three
    items in ERROR and no remote call. *)
Theorem missing_credential_goes_to_error (rt : Runtime) :
  (forall item lang provider app,
     missesClaudeKey rt provider app = true \/ hasGeminiKey rt app = false ->
     let app' := translateItem rt item lang provider app in
     let msg := rejectionMessage rt provider app in
     (msg = missingClaudeKey \/ msg = missingGeminiKey) /\
     items app' = update_item (id item) (with_error (Some msg)) (items app) /\
     (forall i', In i' (items app') -> id i' = id item ->
                 status i' = ERROR /\ error i' = Some msg) /\
     isSettingsOpen app' = true /\
     pending app' = pending app /\ network app' = network app) /\
  (forall app u1 b1 m1 u2 b2 m2 u3 b3 m3,
     let files := [Readable u1 b1 m1; Readable u2 b2 m2; Readable u3 b3 m3] in
     enabled (AddFiles files) app ->
     hasGeminiKey rt app = false ->
     let app' :=
       perform rt Dispatch
         (perform rt Dispatch
            (perform rt Dispatch (perform rt (AddFiles files) app))) in
     let msg := rejectionMessage rt (modelProvider app) app in
     items app' =
       (items app ++ map (with_error (Some msg)) (newItems files))%list /\
     isSettingsOpen app' = true /\ todo app' = [] /\
     pending app' = pending app /\ network app' = network app).
Proof.
  split.
  - intros item lang provider app H app' msg. subst app'.
    rewrite (translateItem_rejected_eq rt item lang provider app H). simpl.
    fold msg. split.
    { unfold msg, rejectionMessage.
      destruct (missesClaudeKey rt provider app); auto. }
    split; [reflexivity|]. split; [|auto].
    intros i' Hi' E.
    apply In_update_item in Hi' as [j [Hj [[Ej ->]|[Ej ->]]]].
    + split; reflexivity.
    + contradiction.
  - intros app u1 b1 m1 u2 b2 m2 u3 b3 m3 files [Ht [N F]] Hg app' msg.
    subst app'. unfold perform.
    rewrite (dispatchNext_rejected rt (handleFileChange files app)
               (mkItem u1 b1 m1 IDLE None None)
               (newItems [Readable u2 b2 m2; Readable u3 b3 m3])
               eq_refl Hg).
    match goal with
    | |- context [dispatchNext rt (dispatchNext rt ?a)] => set (a1 := a)
    end.
    rewrite (dispatchNext_rejected rt a1
               (mkItem u2 b2 m2 IDLE None None)
               (newItems [Readable u3 b3 m3]) eq_refl Hg).
    match goal with
    | |- context [dispatchNext rt ?a] => set (a2 := a)
    end.
    rewrite (dispatchNext_rejected rt a2
               (mkItem u3 b3 m3 IDLE None None) [] eq_refl Hg).
    subst a2 a1.
    simpl.
    change (rejectionMessage rt (modelProvider app) _) with msg.
    split; [|auto].
    simpl in N, F.
    inversion N as [|? ? N1 N']; subst. inversion N' as [|? ? N2 N'']; subst.
    assert (H12 : u1 <> u2) by (intros ->; apply N1; left; reflexivity).
    assert (H13 : u1 <> u3) by (intros ->; apply N1; right; left; reflexivity).
    assert (H23 : u2 <> u3) by (intros ->; apply N2; left; reflexivity).
    rewrite !update_item_app.
    rewrite !(update_item_untouched _ _ (items app))
      by (apply F; simpl; auto).
    f_equal.
    assert (E12 : String.eqb u1 u2 = false) by (apply String.eqb_neq; auto).
    assert (E13 : String.eqb u1 u3 = false) by (apply String.eqb_neq; auto).
    assert (E23 : String.eqb u2 u3 = false) by (apply String.eqb_neq; auto).
    assert (E21 : String.eqb u2 u1 = false) by (apply String.eqb_neq; auto).
    assert (E31 : String.eqb u3 u1 = false) by (apply String.eqb_neq; auto).
    assert (E32 : String.eqb u3 u2 = false) by (apply String.eqb_neq; auto).
    unfold update_item. simpl.
    repeat (rewrite ?String.eqb_refl, ?E12, ?E13, ?E23, ?E21, ?E31, ?E32;
            simpl).
    reflexivity.
Qed.

Lemma missing_credential_goes_to_error_witness :
  enabled (AddFiles threeFiles) appWithClaudeKey /\
  hasGeminiKey keylessRuntime appWithClaudeKey = false /\
  items (perform keylessRuntime Dispatch
           (perform keylessRuntime Dispatch
              (perform keylessRuntime Dispatch appWithThreeFiles))) =
    [mkItem "id-1" "AAAA" "image/png" ERROR None (Some missingGeminiKey);
     mkItem "id-2" "BBBB" "image/png" ERROR None (Some missingGeminiKey);
     mkItem "id-3" "CCCC" "image/jpeg" ERROR None (Some missingGeminiKey)] /\
  pending (perform keylessRuntime Dispatch
             (perform keylessRuntime Dispatch
                (perform keylessRuntime Dispatch appWithThreeFiles))) = [] /\
  network (perform keylessRuntime Dispatch
             (perform keylessRuntime Dispatch
                (perform keylessRuntime Dispatch appWithThreeFiles))) = [].
Proof.
  assert (En : enabled (AddFiles threeFiles) appWithClaudeKey).
  { split; [reflexivity|]. split.
    - repeat constructor; simpl; intuition discriminate.
    - intros x _. split; intros []. }
  split; [exact En|]. split; [reflexivity|].
  destruct (proj2 (missing_credential_goes_to_error keylessRuntime)
              appWithClaudeKey "id-1" "AAAA" "image/png" "id-2" "BBBB"
              "image/png" "id-3" "CCCC" "image/jpeg" En eq_refl)
    as [Hitems [_ [_ [Hpending Hnetwork]]]].
  split; [exact Hitems|]. split; [exact Hpending|exact Hnetwork].
Defined.

(** C9: in every state the orchestrator can reach each item is coherent: no
    result and no error in IDLE and ANALYZING, a result and no error in
    SUCCESS, an error message and no result in ERROR.  A new item starts in
    IDLE.  The status changes of a translation attempt (a call that passed
    the credential checks, and its completion) are IDLE or ERROR to
    ANALYZING, then ANALYZING to SUCCESS or ERROR; ANALYZING is entered from
    IDLE by the first dispatch and from ERROR by a retry only. *)
Theorem batch_item_lifecycle (rt : Runtime) (app : App) :
  reachable rt app ->
  (forall i, In i (items app) -> item_ok i) /\
  (forall files i',
     enabled (AddFiles files) app ->
     In i' (items (perform rt (AddFiles files) app)) ->
     In i' (items app) \/
     (status i' = IDLE /\ result i' = None /\ error i' = None)) /\
  (forall act i i',
     enabled act app -> rejected rt act app = false ->
     In i (items app) -> In i' (items (perform rt act app)) ->
     id i = id i' -> status i <> status i' ->
     lifecycle_edge (status i) (status i') /\
     (status i' = ANALYZING ->
      (status i = IDLE /\ act = Dispatch) \/
      (status i = ERROR /\ act = Retry (id i))) /\
     (status i = ANALYZING -> exists k, act = Complete k)).
Proof.
  intros R. pose proof (reachable_inv rt app R) as I.
  split; [apply (inv_items _ I)|]. split.
  - intros files i' _ Hi'. simpl in Hi'.
    apply in_app_or in Hi' as [H|H]; [left; exact H|right].
    apply (newItems_idle files i' H).
  - intros act i i' En Rj Hi Hi' E Hne.
    destruct (step_changes rt app act i i' I En Rj Hi Hi' E Hne)
      as [[S [S' A]]|[[S [S' A]]|[S [S' A]]]]; rewrite S.
    + split; [left; auto|]. split; [auto|discriminate].
    + split; [right; left; auto|]. split; [auto|discriminate].
    + split; [right; right; auto|]. split; [|auto].
      intros Q. destruct S' as [S'|S']; rewrite S' in Q; discriminate.
Qed.

Lemma batch_item_lifecycle_witness :
  reachable keyedRuntime appWithOneFile /\
  enabled Dispatch appWithOneFile /\
  rejected keyedRuntime Dispatch appWithOneFile = false /\
  In idleItem (items appWithOneFile) /\
  In (with_analyzing idleItem)
     (items (perform keyedRuntime Dispatch appWithOneFile)) /\
  id idleItem = id (with_analyzing idleItem) /\
  status idleItem <> status (with_analyzing idleItem) /\
  lifecycle_edge (status idleItem) (status (with_analyzing idleItem)) /\
  item_ok idleItem.
Proof.
  assert (R : reachable keyedRuntime appWithOneFile).
  { apply (reachable_step keyedRuntime initialApp (AddFiles oneFile));
      [apply reachable_initial|].
    split; [reflexivity|]. split.
    - repeat constructor; simpl; intuition discriminate.
    - intros x _. split; intros []. }
  assert (En : enabled Dispatch appWithOneFile) by discriminate.
  assert (Hi : In idleItem (items appWithOneFile)) by (left; reflexivity).
  assert (Hi' : In (with_analyzing idleItem)
                   (items (perform keyedRuntime Dispatch appWithOneFile)))
    by (left; reflexivity).
  assert (Hne : status idleItem <> status (with_analyzing idleItem))
    by discriminate.
  split; [exact R|]. split; [exact En|]. split; [reflexivity|].
  split; [exact Hi|]. split; [exact Hi'|]. split; [reflexivity|].
  split; [exact Hne|].
  destruct (batch_item_lifecycle keyedRuntime appWithOneFile R)
    as [Hok [_ Hedge]].
  split.
  - exact (proj1 (Hedge Dispatch idleItem (with_analyzing idleItem) En
                    eq_refl Hi Hi' eq_refl Hne)).
  - exact (Hok idleItem Hi).
Defined.

(* ===================================================================== *)
(** * The retrier: its calls and its sleeps *)
(* ===================================================================== *)

Lemma calls_app t1 t2 : calls (t1 ++ t2)%list = (calls t1 + calls t2)%nat.
Proof. unfold calls. rewrite filter_app, length_app. reflexivity. Qed.

Lemma total_delay_app t1 t2 :
  total_delay (t1 ++ t2)%list = total_delay t1 + total_delay t2.
Proof.
  induction t1 as [|[r|r|ms] t1 IH]; simpl; rewrite ?IH; lia.
Qed.

Lemma calls_backoff r delay k : calls (backoff_events r delay k) = S k.
Proof.
  revert delay. induction k as [|k IH]; intros delay; [reflexivity|].
  change (calls (backoff_events r delay (S k)))
    with (S (calls (backoff_events r (delay * 2) k))).
  rewrite IH. reflexivity.
Qed.

Lemma total_delay_backoff r delay k :
  total_delay (backoff_events r delay k) = delay * (2 ^ Z.of_nat k - 1).
Proof.
  revert delay. induction k as [|k IH]; intros delay.
  - simpl. lia.
  - change (total_delay (backoff_events r delay (S k)))
      with (delay + total_delay (backoff_events r (delay * 2) k)).
    rewrite IH, Nat2Z.inj_succ, Z.pow_succ_r by lia. ring.
Qed.

Lemma backoff_nonempty r delay k : backoff_events r delay k <> [].
Proof. destruct k; discriminate. Qed.

Lemma last_backoff r delay k x :
  last (backoff_events r delay k) x = EvGemini r.
Proof.
  revert delay. induction k as [|k IH]; intros delay; [reflexivity|].
  cbn [backoff_events]. specialize (IH (delay * 2)).
  destruct (backoff_events r (delay * 2) k) as [|e l] eqn:E.
  - exfalso. apply (backoff_nonempty r (delay * 2) k E).
  - exact IH.
Qed.

Lemma backoff_events_last r delay k :
  backoff_events r delay k
  = (removelast (backoff_events r delay k) ++ [EvGemini r])%list.
Proof.
  pose proof (app_removelast_last (EvWait 0) (backoff_nonempty r delay k)) as H.
  rewrite last_backoff in H. exact H.
Qed.

(** The exact shape of a run of the retrier around one request. *)
Lemma retry_generate_shape env r : forall n retries delay t,
  (Z.to_nat retries <= n)%nat ->
  exists k,
    (k <= Z.to_nat retries)%nat /\
    retryWithBackoff (generateContent env r) retries delay t
    = (gemini env (before_last t r delay k) r,
       (t ++ backoff_events r delay k)%list) /\
    (forall e, gemini env (before_last t r delay k) r = Throw e ->
               isQuotaError e = true -> k = Z.to_nat retries).
Proof.
  induction n as [|n IH]; intros retries delay t Hn.
  - exists 0%nat. unfold before_last. simpl. rewrite app_nil_r.
    rewrite retry_step. unfold generateContent at 1.
    assert (H0 : (0 <? retries) = false) by (apply Z.ltb_ge; lia).
    split; [lia|]. split.
    + destruct (gemini env t r) as [x|e]; [reflexivity|].
      rewrite H0, andb_false_r. reflexivity.
    + intros; lia.
  - rewrite retry_step. unfold generateContent at 1.
    destruct (gemini env t r) as [x|e] eqn:G.
    + exists 0%nat. unfold before_last. simpl. rewrite app_nil_r, G.
      split; [lia|]. split; [reflexivity|]. discriminate.
    + destruct (isQuotaError e && (0 <? retries)) eqn:Hq.
      * apply andb_prop in Hq as [_ Hpos]. apply Z.ltb_lt in Hpos.
        destruct (IH (retries - 1) (delay * 2)
                    ((t ++ [EvGemini r]) ++ [EvWait delay])%list)
          as [k [Hk [E Hex]]]; [lia|].
        assert (Hb : before_last ((t ++ [EvGemini r]) ++ [EvWait delay])%list r
                       (delay * 2) k
                     = before_last t r delay (S k)).
        { unfold before_last. cbn [backoff_events].
          rewrite <- !app_assoc. f_equal. simpl.
          destruct (backoff_events r (delay * 2) k) eqn:B;
            [destruct k; discriminate|]. reflexivity. }
        exists (S k). split; [lia|]. rewrite <- Hb. split.
        -- rewrite E. f_equal. rewrite <- !app_assoc. reflexivity.
        -- intros e' He' Hq'. rewrite (Hex e' He' Hq'). lia.
      * exists 0%nat. unfold before_last. simpl. rewrite app_nil_r, G.
        split; [lia|]. split; [reflexivity|].
        intros e' He' Hq'. injection He' as <-. rewrite Hq' in Hq.
        simpl in Hq. apply Z.ltb_ge in Hq. lia.
Qed.

(** X1: the retrier around a request sends it at least once and at most
    [retries + 1] times, sleeps between two requests only (never after the
    last), [delay * (2^k - 1)] ms in all for [k] sleeps, which is at most
    [delay * (2^retries - 1)]. *)
Theorem retry_sends_at_most (env : Env) (r : GeminiRequest)
    (retries delay : Z) (t : Trace) :
  0 <= delay ->
  exists evs,
    snd (retryWithBackoff (generateContent env r) retries delay t)
    = (t ++ evs)%list /\
    (1 <= calls evs <= Z.to_nat retries + 1)%nat /\
    total_delay evs = delay * (2 ^ Z.of_nat (calls evs - 1) - 1) /\
    0 <= total_delay evs <= delay * (2 ^ Z.of_nat (Z.to_nat retries) - 1) /\
    last evs (EvWait 0) = EvGemini r /\
    only_events r evs.
Proof.
  intros Hd.
  destruct (retry_generate_shape env r (Z.to_nat retries) retries delay t
              (Nat.le_refl _)) as [k [Hk [E _]]].
  exists (backoff_events r delay k). rewrite E. split; [reflexivity|].
  rewrite calls_backoff, total_delay_backoff.
  replace (S k - 1)%nat with k by lia.
  split; [lia|]. split; [reflexivity|]. split.
  - assert (2 ^ Z.of_nat k <= 2 ^ Z.of_nat (Z.to_nat retries))
      by (apply Z.pow_le_mono_r; lia).
    assert (1 <= 2 ^ Z.of_nat k)
      by (pose proof (Z.pow_pos_nonneg 2 (Z.of_nat k)); lia).
    nia.
  - split; [apply last_backoff|].
    clear. revert delay. induction k as [|k IH]; intros delay.
    + constructor; [left; reflexivity|constructor].
    + cbn [backoff_events]. constructor; [left; reflexivity|].
      constructor; [right; eexists; reflexivity|apply IH].
Qed.

Lemma retry_sends_at_most_witness :
  0 <= 2000 /\
  exists evs,
    snd (retryWithBackoff
           (generateContent (env_quota_then 2 "ok" "{}") sampleRequest)
           3 2000 []) = evs /\
    (1 <= calls evs <= Z.to_nat 3 + 1)%nat /\
    0 <= total_delay evs <= 2000 * (2 ^ Z.of_nat (Z.to_nat 3) - 1).
Proof.
  split; [lia|].
  destruct (retry_sends_at_most (env_quota_then 2 "ok" "{}") sampleRequest
              3 2000 []) as [evs [E [Hc [_ [Hd _]]]]]; [lia|].
  exists evs. split; [exact E|]. split; assumption.
Defined.

(** X2: when the retrier gives up on a quota failure, every retry has been
    used: the request went out [retries + 1] times with
    [delay * (2^retries - 1)] ms of sleep; with the default policy, 4 times
    with 2000 + 4000 + 8000 ms. *)
Theorem retry_gives_up (env : Env) (r : GeminiRequest) (retries delay : Z)
    (t t' : Trace) (e : JsError) :
  0 <= retries ->
  retryWithBackoff (generateContent env r) retries delay t = (Throw e, t') ->
  isQuotaError e = true ->
  t' = (t ++ backoff_events r delay (Z.to_nat retries))%list /\
  calls (backoff_events r delay (Z.to_nat retries)) = S (Z.to_nat retries) /\
  total_delay (backoff_events r delay (Z.to_nat retries))
  = delay * (2 ^ retries - 1) /\
  (retries = default_retries -> delay = default_delay ->
   calls (backoff_events r delay (Z.to_nat retries)) = 4%nat /\
   total_delay (backoff_events r delay (Z.to_nat retries)) = 14000).
Proof.
  intros Hr E Hq.
  destruct (retry_generate_shape env r (Z.to_nat retries) retries delay t
              (Nat.le_refl _)) as [k [Hk [E' Hex]]].
  rewrite E in E'. injection E' as He Ht.
  assert (k = Z.to_nat retries) as -> by (apply (Hex e); auto).
  split; [exact Ht|]. rewrite calls_backoff, total_delay_backoff.
  rewrite Z2Nat.id by exact Hr.
  split; [reflexivity|]. split; [reflexivity|].
  intros -> ->. split; reflexivity.
Qed.

Lemma retry_gives_up_witness :
  0 <= 3 /\
  retryWithBackoff (generateContent (env_failing quotaError) sampleRequest)
    3 2000 []
  = (Throw quotaError, backoff_events sampleRequest 2000 3) /\
  isQuotaError quotaError = true /\
  calls (backoff_events sampleRequest 2000 (Z.to_nat 3)) = 4%nat /\
  total_delay (backoff_events sampleRequest 2000 (Z.to_nat 3)) = 14000.
Proof.
  split; [lia|]. split; [reflexivity|]. split; [reflexivity|].
  apply (proj2 (proj2 (proj2
           (retry_gives_up (env_failing quotaError) sampleRequest 3 2000 []
              (backoff_events sampleRequest 2000 3) quotaError
              ltac:(lia) eq_refl eq_refl)))); reflexivity.
Defined.

(* ===================================================================== *)
(** * The extraction call *)
(* ===================================================================== *)

Lemma trimEnd_cons c rest :
  trimEnd (c :: rest) =
  match trimEnd rest with
  | [] => if is_space c then [] else [c]
  | r => c :: r
  end.
Proof. reflexivity. Qed.

Lemma trimEnd_idem s : trimEnd (trimEnd s) = trimEnd s.
Proof.
  induction s as [|c rest IH]; [reflexivity|].
  rewrite trimEnd_cons. destruct (trimEnd rest) as [|d r] eqn:E.
  - destruct (is_space c) eqn:S; [reflexivity|].
    rewrite trimEnd_cons. simpl. rewrite S. reflexivity.
  - rewrite trimEnd_cons, IH. reflexivity.
Qed.

Lemma trimStart_clean s :
  match trimStart s with
  | [] => True
  | c :: _ => is_space c = false
  end.
Proof.
  induction s as [|c rest IH]; [exact I|].
  cbn [trimStart]. destruct (is_space c) eqn:S; [exact IH|exact S].
Qed.

Lemma trimStart_trimEnd u :
  match u with
  | [] => True
  | c :: _ => is_space c = false
  end ->
  trimStart (trimEnd u) = trimEnd u.
Proof.
  destruct u as [|c rest]; [reflexivity|]. intros S.
  rewrite trimEnd_cons. destruct (trimEnd rest).
  - rewrite S. cbn [trimStart]. rewrite S. reflexivity.
  - cbn [trimStart]. rewrite S. reflexivity.
Qed.

Lemma trim_idem s : trim (trim s) = trim s.
Proof.
  unfold trim. rewrite trimStart_trimEnd by apply trimStart_clean.
  apply trimEnd_idem.
Qed.

Lemma trimEnd_head s :
  match s with
  | [] => True
  | c :: _ => is_space c = false
  end ->
  match trimEnd s with
  | [] => True
  | c :: _ => is_space c = false
  end.
Proof.
  destruct s as [|c rest]; [intros _; exact I|]. intros S.
  rewrite trimEnd_cons. destruct (trimEnd rest); [rewrite S|]; exact S.
Qed.

Lemma trimEnd_last s : forall r c,
  trimEnd s = (r ++ [c])%list -> is_space c = false.
Proof.
  induction s as [|c0 rest IH]; intros r c H;
    [destruct r; discriminate|].
  rewrite trimEnd_cons in H. destruct (trimEnd rest) as [|d r'] eqn:E.
  - destruct (is_space c0) eqn:S; [destruct r; discriminate|].
    destruct r as [|x [|y r]]; try discriminate.
    injection H as <-. exact S.
  - destruct r as [|x r]; [discriminate|]. injection H as _ H.
    apply (IH r c H).
Qed.

(** A trimmed text has no white space and no line terminator at either
    end. *)
Lemma trim_ends s :
  (forall c rest, trim s = c :: rest -> is_space c = false) /\
  (forall r c, trim s = (r ++ [c])%list -> is_space c = false).
Proof.
  split.
  - intros c rest H. unfold trim in H.
    pose proof (trimEnd_head (trimStart s) (trimStart_clean s)) as Q.
    rewrite H in Q. exact Q.
  - intros r c H. apply (trimEnd_last (trimStart s) r c H).
Qed.

Lemma execute_shape env img mime lang model client t :
  exists k,
    (k <= 3)%nat /\
    executeTranslation env img mime lang model client t
    = (gemini env
         (before_last t (translationRequest img mime lang model client)
            default_delay k)
         (translationRequest img mime lang model client),
       (t ++ backoff_events (translationRequest img mime lang model client)
               default_delay k)%list) /\
    (forall e,
       gemini env
         (before_last t (translationRequest img mime lang model client)
            default_delay k)
         (translationRequest img mime lang model client) = Throw e ->
       isQuotaError e = true -> k = 3%nat).
Proof.
  apply (retry_generate_shape env _ 3 default_retries default_delay t).
  apply Nat.le_refl.
Qed.

Lemma extract_shape env API_KEY img mime gKey t :
  exists k,
    (k <= 3)%nat /\
    snd (extractTextFromImage env API_KEY img mime gKey t)
    = (t ++ backoff_events (ocrRequest img mime (getAiClient API_KEY gKey))
              default_delay k)%list.
Proof.
  destruct (retry_generate_shape env
              (ocrRequest img mime (getAiClient API_KEY gKey))
              3 default_retries default_delay t (Nat.le_refl _))
    as [k [Hk [E _]]].
  exists k. split; [exact Hk|].
  unfold extractTextFromImage, try_catch, bind. rewrite E.
  destruct (gemini env _ _) as [resp|e].
  - destruct resp as [text|]; [destruct (nonempty_text text)|]; reflexivity.
  - destruct (isQuotaError e); reflexivity.
Qed.

(** X3: the extraction call returns text that is trimmed: it has no white
    space and no line terminator (none of what [trim] strips, the no-break
    space and the ideographic space among them) at either end, so that
    trimming it again changes nothing.  When the call fails it throws one
    of its own two errors, never the provider's. *)
Theorem extraction_outcome (env : Env) (API_KEY : option string)
    (img mime : string) (gKey : option string) (t : Trace) :
  (forall text t1,
     extractTextFromImage env API_KEY img mime gKey t = (Ok text, t1) ->
     trim text = text /\
     (forall c rest, text = c :: rest -> is_space c = false) /\
     (forall r c, text = (r ++ [c])%list -> is_space c = false)) /\
  (forall e t1,
     extractTextFromImage env API_KEY img mime gKey t = (Throw e, t1) ->
     e = newError "Gemini API Quota Exceeded (OCR). Please check your API key."
     \/ e = newError "Failed to extract text from image using Gemini.").
Proof.
  unfold extractTextFromImage, try_catch, bind.
  destruct (retryWithBackoff _ _ _ t) as [[resp|e0] t0]; split.
  - intros text t1 H.
    assert (E : text = [] \/ exists raw, text = trim raw).
    { destruct resp as [raw|].
      - destruct (nonempty_text raw); injection H as <- _; eauto.
      - injection H as <- _. auto. }
    destruct E as [->|[raw ->]].
    + split; [reflexivity|]. split; [discriminate|].
      intros r c Q. destruct r; discriminate.
    + split; [apply trim_idem|apply trim_ends].
  - intros e t1 H. destruct resp as [raw|]; [destruct (nonempty_text raw)|];
      discriminate.
  - intros text t1 H. destruct (isQuotaError e0); discriminate.
  - intros e t1 H. destruct (isQuotaError e0); injection H as <- _; auto.
Qed.

Lemma extraction_outcome_witness :
  extractTextFromImage (env_quota_then 0 paddedAnswer "{}") None "AAAA"
    "image/png" (Some "key") []
  = (Ok (js "hola"),
     [EvGemini (ocrRequest "AAAA" "image/png" (Some "key"))]) /\
  trim "hola" = "hola" /\
  extractTextFromImage (env_failing serverError) None "AAAA" "image/png"
    (Some "key") []
  = (Throw (newError "Failed to extract text from image using Gemini."),
     [EvGemini (ocrRequest "AAAA" "image/png" (Some "key"))]).
Proof.
  split; [reflexivity|]. split; [|reflexivity].
  apply (proj1 (proj1 (extraction_outcome (env_quota_then 0 paddedAnswer "{}")
                         None "AAAA" "image/png" (Some "key") []) "hola"
                  [EvGemini (ocrRequest "AAAA" "image/png" (Some "key"))]
                  eq_refl)).
Defined.
(* ===================================================================== *)
(** * The fallback of the Gemini service *)
(* ===================================================================== *)

Lemma standard_calls_backoff r delay k :
  is_standard_call (EvGemini r) = true ->
  standard_calls (backoff_events r delay k) = S k.
Proof.
  intros H. revert delay. unfold standard_calls.
  induction k as [|k IH]; intros delay; cbn [backoff_events filter];
    rewrite H.
  - reflexivity.
  - cbn [is_standard_call]. simpl List.length. rewrite IH. reflexivity.
Qed.

(** C4, as the code has it: when the premium attempt fails on quota, the run
    goes on as one attempt of the standard sub-variant, with the standard
    credential, and as nothing else.  That attempt is wrapped in the retrier
    like the premium one: it sends the standard request once when the first
    answer is a result or a failure that is not quota, and again, up to four
    times in all, while the answer is a quota failure.  When the premium
    attempt fails otherwise, its error propagates and the standard
    sub-variant is never called. *)
Theorem premium_fallback (env : Env) (JSON_parse : jsstr -> Outcome Json)
    (typeErrorMessage : Fault -> string) (API_KEY : option string)
    (img mime : string) (lang : SourceLanguage)
    (apiKey proApiKey : option string) (t t1 : Trace) (e : JsError) :
  let proClient := getAiClient API_KEY (key_or proApiKey apiKey) in
  let flashClient := getAiClient API_KEY apiKey in
  let flashReq :=
    translationRequest img mime lang TRANSLATION_MODEL_FLASH flashClient in
  executeTranslation env img mime lang TRANSLATION_MODEL_PRO proClient t
    = (Throw e, t1) ->
  (exists evs, t1 = (t ++ evs)%list /\ standard_calls evs = 0%nat) /\
  (isQuotaError e = true ->
     translateWithFallback env API_KEY img mime lang apiKey proApiKey t
     = executeTranslation env img mime lang TRANSLATION_MODEL_FLASH
         flashClient t1 /\
     (exists k,
        (k <= 3)%nat /\
        snd (translateWithFallback env API_KEY img mime lang apiKey proApiKey t)
        = (t1 ++ backoff_events flashReq default_delay k)%list /\
        standard_calls (backoff_events flashReq default_delay k) = S k /\
        (forall e',
           fst (translateWithFallback env API_KEY img mime lang apiKey
                  proApiKey t) = Throw e' ->
           isQuotaError e' = true -> k = 3%nat)) /\
     (forall x, gemini env t1 flashReq = Ok x ->
        translateWithFallback env API_KEY img mime lang apiKey proApiKey t
        = (Ok x, (t1 ++ [EvGemini flashReq])%list)) /\
     (forall e', gemini env t1 flashReq = Throw e' -> isQuotaError e' = false ->
        translateWithFallback env API_KEY img mime lang apiKey proApiKey t
        = (Throw e', (t1 ++ [EvGemini flashReq])%list)) /\
     (forall e', gemini env t1 flashReq = Throw e' -> isQuotaError e' = true ->
        exists evs,
          snd (translateWithFallback env API_KEY img mime lang apiKey
                 proApiKey t)
          = (t1 ++ EvGemini flashReq :: EvWait default_delay
                :: EvGemini flashReq :: evs)%list)) /\
  (isQuotaError e = false ->
     translateWithFallback env API_KEY img mime lang apiKey proApiKey t
     = (Throw e, t1) /\
     translateImageContent env JSON_parse typeErrorMessage API_KEY
       img mime lang apiKey proApiKey t
     = (Throw (newError "Failed to process image. Please try again."), t1)).
Proof.
  intros proClient flashClient flashReq Hpro.
  assert (Hfb : forall b, isQuotaError e = b ->
            translateWithFallback env API_KEY img mime lang apiKey proApiKey t
            = if b
              then executeTranslation env img mime lang
                     TRANSLATION_MODEL_FLASH flashClient t1
              else (Throw e, t1)).
  { intros b Hb. unfold translateWithFallback, try_catch.
    fold proClient. rewrite Hpro, Hb. destruct b; reflexivity. }
  split.
  { destruct (execute_events env img mime lang TRANSLATION_MODEL_PRO
                proClient t) as [evs [E O]].
    rewrite Hpro in E. simpl in E.
    exists (EvGemini (translationRequest img mime lang TRANSLATION_MODEL_PRO
                        proClient) :: evs).
    split; [exact E|].
    unfold standard_calls. cbn [filter is_standard_call]. simpl.
    apply (only_events_no_standard _ _ O). reflexivity. }
  split.
  - intros Hq. rewrite (Hfb true Hq).
    split; [reflexivity|]. split.
    { destruct (execute_shape env img mime lang TRANSLATION_MODEL_FLASH
                  flashClient t1) as [k [Hk [E Hex]]].
      fold flashReq in E, Hex. exists k. split; [exact Hk|]. rewrite E.
      split; [reflexivity|].
      split; [apply standard_calls_backoff; reflexivity|].
      intros e' He' Hq'. apply (Hex e' He' Hq'). }
    split; [|split].
    + intros x Hx. apply retry_generate_answered. exact Hx.
    + intros e' He' Hq'. apply retry_generate_refused; assumption.
    + intros e' He' Hq'. unfold executeTranslation. fold flashReq.
      rewrite retry_step. unfold generateContent at 1. rewrite He', Hq'.
      change (true && (0 <? default_retries)) with true. cbv iota.
      destruct (retry_generate_events env flashReq 2 (default_retries - 1)
                  (default_delay * 2)
                  ((t1 ++ [EvGemini flashReq]) ++ [EvWait default_delay])%list)
        as [evs [E _]]; [apply Nat.le_refl|].
      exists evs. rewrite E. rewrite <- !app_assoc. reflexivity.
  - intros Hq. split; [apply (Hfb false Hq)|].
    unfold translateImageContent, try_catch, bind.
    rewrite (Hfb false Hq), Hq. reflexivity.
Qed.

Lemma premium_fallback_witness :
  (* the premium attempt gives up on quota *)
  (executeTranslation env_premium_exhausted "AAAA" "image/png" KOREAN
     TRANSLATION_MODEL_PRO
     (getAiClient None (key_or (Some "pro-key") (Some "key"))) []
   = (Throw quotaError,
      [EvGemini (translationRequest "AAAA" "image/png" KOREAN
                   TRANSLATION_MODEL_PRO (Some "pro-key")); EvWait 2000;
       EvGemini (translationRequest "AAAA" "image/png" KOREAN
                   TRANSLATION_MODEL_PRO (Some "pro-key")); EvWait 4000;
       EvGemini (translationRequest "AAAA" "image/png" KOREAN
                   TRANSLATION_MODEL_PRO (Some "pro-key")); EvWait 8000;
       EvGemini (translationRequest "AAAA" "image/png" KOREAN
                   TRANSLATION_MODEL_PRO (Some "pro-key"))]) /\
   isQuotaError quotaError = true /\
   translateWithFallback env_premium_exhausted None "AAAA" "image/png" KOREAN
     (Some "key") (Some "pro-key") []
   = (Ok (Some (js "{}")),
      [EvGemini (translationRequest "AAAA" "image/png" KOREAN
                   TRANSLATION_MODEL_PRO (Some "pro-key")); EvWait 2000;
       EvGemini (translationRequest "AAAA" "image/png" KOREAN
                   TRANSLATION_MODEL_PRO (Some "pro-key")); EvWait 4000;
       EvGemini (translationRequest "AAAA" "image/png" KOREAN
                   TRANSLATION_MODEL_PRO (Some "pro-key")); EvWait 8000;
       EvGemini (translationRequest "AAAA" "image/png" KOREAN
                   TRANSLATION_MODEL_PRO (Some "pro-key"));
       EvGemini (translationRequest "AAAA" "image/png" KOREAN
                   TRANSLATION_MODEL_FLASH (Some "key"))])) /\
  (* the premium attempt fails for another reason *)
  (executeTranslation (env_failing serverError) "AAAA" "image/png" KOREAN
     TRANSLATION_MODEL_PRO
     (getAiClient None (key_or (Some "pro-key") (Some "key"))) []
   = (Throw serverError,
      [EvGemini (translationRequest "AAAA" "image/png" KOREAN
                   TRANSLATION_MODEL_PRO (Some "pro-key"))]) /\
   isQuotaError serverError = false /\
   translateWithFallback (env_failing serverError) None "AAAA" "image/png"
     KOREAN (Some "key") (Some "pro-key") []
   = (Throw serverError,
      [EvGemini (translationRequest "AAAA" "image/png" KOREAN
                   TRANSLATION_MODEL_PRO (Some "pro-key"))])).
Proof.
  split.
  - split; [reflexivity|]. split; [reflexivity|].
    apply (proj1 (proj2 (proj2 (proj1 (proj2
             (premium_fallback env_premium_exhausted parse_empty_object
                plainTypeError None "AAAA" "image/png" KOREAN
                (Some "key") (Some "pro-key") [] _ quotaError eq_refl))
             eq_refl)))).
    reflexivity.
  - split; [reflexivity|]. split; [reflexivity|].
    apply (proj1 (proj2 (proj2
             (premium_fallback (env_failing serverError) parse_empty_object
                plainTypeError None "AAAA" "image/png" KOREAN
                (Some "key") (Some "pro-key") [] _ serverError eq_refl))
             eq_refl)).
Defined.

(** C4, as it is stated, fails: when the standard model is out of quota too,
    the one fallback attempt sends the standard request four times. *)
Lemma fallback_repeats_standard_request :
  fst (executeTranslation (env_failing quotaError) "AAAA" "image/png" KOREAN
         TRANSLATION_MODEL_PRO
         (getAiClient None (key_or (Some "pro-key") (Some "key"))) [])
  = Throw quotaError /\
  isQuotaError quotaError = true /\
  standard_calls
    (snd (translateWithFallback (env_failing quotaError) None "AAAA"
            "image/png" KOREAN (Some "key") (Some "pro-key") []))
  = 4%nat /\
  calls
    (snd (translateWithFallback (env_failing quotaError) None "AAAA"
            "image/png" KOREAN (Some "key") (Some "pro-key") []))
  = 8%nat.
Proof. repeat split; vm_compute; reflexivity. Qed.
(* ===================================================================== *)
(** * How many calls a run makes *)
(* ===================================================================== *)

Lemma claude_calls_app t1 t2 :
  claude_calls (t1 ++ t2)%list = (claude_calls t1 + claude_calls t2)%nat.
Proof. unfold claude_calls. rewrite filter_app, length_app. reflexivity. Qed.

Lemma claude_calls_backoff r delay k :
  claude_calls (backoff_events r delay k) = 0%nat.
Proof.
  revert delay. induction k as [|k IH]; intros delay; [reflexivity|].
  exact (IH (delay * 2)).
Qed.

Lemma default_backoff_bounds r k :
  (k <= 3)%nat ->
  (1 <= calls (backoff_events r default_delay k) <= 4)%nat /\
  0 <= total_delay (backoff_events r default_delay k) <= 14000.
Proof.
  intros Hk. rewrite calls_backoff, total_delay_backoff.
  assert (H : (k = 0 \/ k = 1 \/ k = 2 \/ k = 3)%nat) by lia.
  destruct H as [ -> | [ -> | [ -> | -> ] ] ]; vm_compute; repeat split;
    try discriminate; lia.
Qed.

Lemma fallback_shape env API_KEY img mime lang apiKey proApiKey t :
  let proReq := translationRequest img mime lang TRANSLATION_MODEL_PRO
                  (getAiClient API_KEY (key_or proApiKey apiKey)) in
  let flashReq := translationRequest img mime lang TRANSLATION_MODEL_FLASH
                    (getAiClient API_KEY apiKey) in
  exists k,
    (k <= 3)%nat /\
    (snd (translateWithFallback env API_KEY img mime lang apiKey proApiKey t)
     = (t ++ backoff_events proReq default_delay k)%list \/
     snd (translateWithFallback env API_KEY img mime lang apiKey proApiKey t)
     = (t ++ backoff_events proReq default_delay 3
          ++ backoff_events flashReq default_delay k)%list).
Proof.
  intros proReq flashReq. unfold translateWithFallback, try_catch.
  destruct (execute_shape env img mime lang TRANSLATION_MODEL_PRO
              (getAiClient API_KEY (key_or proApiKey apiKey)) t)
    as [k1 [Hk1 [E1 Hex]]].
  fold proReq in E1, Hex. rewrite E1.
  destruct (gemini env (before_last t proReq default_delay k1) proReq)
    as [x|e] eqn:G.
  - exists k1. split; [exact Hk1|]. left. reflexivity.
  - destruct (isQuotaError e) eqn:Q.
    + rewrite (Hex e eq_refl Q).
      destruct (execute_shape env img mime lang TRANSLATION_MODEL_FLASH
                  (getAiClient API_KEY apiKey)
                  (t ++ backoff_events proReq default_delay 3)%list)
        as [k2 [Hk2 [E2 _]]].
      fold flashReq in E2. rewrite E2. exists k2. split; [exact Hk2|].
      right. simpl. rewrite <- app_assoc. reflexivity.
    + exists k1. split; [exact Hk1|]. left. reflexivity.
Qed.

Lemma claude_shape env JSON_parse tem API_KEY CLAUDE_API_KEY img mime lang
    apiKey modelId gKey t :
  let ocrReq := ocrRequest img mime (getAiClient API_KEY gKey) in
  exists k evs,
    (k <= 3)%nat /\
    snd (translateImageContentWithClaude env JSON_parse tem API_KEY
           CLAUDE_API_KEY img mime lang apiKey modelId gKey t)
    = (t ++ evs)%list /\
    (evs = [] \/ evs = backoff_events ocrReq default_delay k \/
     exists r, evs = (backoff_events ocrReq default_delay k ++ [EvClaude r])%list).
Proof.
  intros ocrReq. unfold translateImageContentWithClaude.
  destruct (key_or apiKey CLAUDE_API_KEY) as [key|];
    [destruct (nonempty key)|];
    try (exists 0%nat, []; rewrite app_nil_r;
         split; [lia|split; [reflexivity|left; reflexivity]]).
  destruct (extract_shape env API_KEY img mime gKey t) as [k [Hk E]].
  fold ocrReq in E. exists k.
  unfold bind at 1. unfold try_catch at 1.
  destruct (extractTextFromImage env API_KEY img mime gKey t)
    as [[text|e] t1]; simpl in E; subst t1.
  - destruct (negb (nonempty_text text) || (List.length (trim text) =? 0)%nat).
    + eexists. split; [exact Hk|]. split; [reflexivity|]. right. left.
      reflexivity.
    + rewrite claude_step_events, <- app_assoc.
      eexists. split; [exact Hk|]. split; [reflexivity|]. right. right.
      eexists. reflexivity.
  - eexists. split; [exact Hk|]. split; [reflexivity|]. right. left.
    reflexivity.
Qed.

(** X4: the calls of the SDKs that a run of the strategy makes, and its
    sleeps.  With the Gemini provider: the premium call with its retries,
    and, only after exactly 4 premium calls, the standard call with its
    retries.  With the Claude provider: nothing, or the extraction call with
    its retries, followed by at most one call of [messages.create], which the
    code does not wrap in its retrier.  So the code of a run makes at most 8
    calls of an SDK and sleeps at most 28 s in its retrier (5 calls, one of
    them of the Anthropic SDK, and 14 s with Claude).  What an SDK sends
    below one call is not counted. *)
Theorem run_network_bounds (rt : Runtime) (a : Attempt) (t : Trace) :
  exists evs,
    snd (runStrategy rt a t) = (t ++ evs)%list /\
    (calls evs <= 8)%nat /\ 0 <= total_delay evs <= 28000 /\
    (a_provider a = GEMINI ->
     let proReq :=
       translationRequest (a_base64Data a) (a_mimeType a) (a_lang a)
         TRANSLATION_MODEL_PRO
         (getAiClient (rt_API_KEY rt)
            (key_or (Some (a_geminiProApiKey a)) (Some (a_geminiApiKey a)))) in
     let flashReq :=
       translationRequest (a_base64Data a) (a_mimeType a) (a_lang a)
         TRANSLATION_MODEL_FLASH
         (getAiClient (rt_API_KEY rt) (Some (a_geminiApiKey a))) in
     exists k,
       (k <= 3)%nat /\
       (evs = backoff_events proReq default_delay k \/
        evs = (backoff_events proReq default_delay 3
                 ++ backoff_events flashReq default_delay k)%list)) /\
    (a_provider a = CLAUDE ->
     let ocrReq :=
       ocrRequest (a_base64Data a) (a_mimeType a)
         (getAiClient (rt_API_KEY rt) (Some (a_geminiApiKey a))) in
     (calls evs <= 5)%nat /\ total_delay evs <= 14000 /\
     exists k,
       (k <= 3)%nat /\
       (evs = [] \/ evs = backoff_events ocrReq default_delay k \/
        exists r,
          evs = (backoff_events ocrReq default_delay k ++ [EvClaude r])%list)).
Proof.
  unfold runStrategy. destruct (a_provider a).
  - destruct (fallback_shape (rt_env rt) (rt_API_KEY rt) (a_base64Data a)
                (a_mimeType a) (a_lang a) (Some (a_geminiApiKey a))
                (Some (a_geminiProApiKey a)) t) as [k [Hk H]].
    rewrite gemini_service_events.
    destruct H as [H|H]; rewrite H; eexists; (split; [reflexivity|]).
    + destruct (default_backoff_bounds
                  (translationRequest (a_base64Data a) (a_mimeType a)
                     (a_lang a) TRANSLATION_MODEL_PRO
                     (getAiClient (rt_API_KEY rt)
                        (key_or (Some (a_geminiProApiKey a))
                                (Some (a_geminiApiKey a))))) k Hk)
        as [Hc Hd].
      split; [lia|]. split; [lia|]. split; [|discriminate].
      intros _. exists k. split; [exact Hk|left; reflexivity].
    + rewrite calls_app, total_delay_app.
      destruct (default_backoff_bounds
                  (translationRequest (a_base64Data a) (a_mimeType a)
                     (a_lang a) TRANSLATION_MODEL_PRO
                     (getAiClient (rt_API_KEY rt)
                        (key_or (Some (a_geminiProApiKey a))
                                (Some (a_geminiApiKey a))))) 3
                  (Nat.le_refl _)) as [Hc1 Hd1].
      destruct (default_backoff_bounds
                  (translationRequest (a_base64Data a) (a_mimeType a)
                     (a_lang a) TRANSLATION_MODEL_FLASH
                     (getAiClient (rt_API_KEY rt) (Some (a_geminiApiKey a))))
                  k Hk) as [Hc2 Hd2].
      split; [lia|]. split; [lia|]. split; [|discriminate].
      intros _. exists k. split; [exact Hk|right; reflexivity].
  - destruct (claude_shape (rt_env rt) (rt_parse rt) (rt_typeErrorMessage rt)
                (rt_API_KEY rt) (rt_CLAUDE_API_KEY rt) (a_base64Data a)
                (a_mimeType a) (a_lang a) (Some (a_claudeApiKey a))
                (a_claudeModelId a) (Some (a_geminiApiKey a)) t)
      as [k [evs [Hk [E H]]]].
    destruct (default_backoff_bounds
                (ocrRequest (a_base64Data a) (a_mimeType a)
                   (getAiClient (rt_API_KEY rt) (Some (a_geminiApiKey a))))
                k Hk) as [Hc Hd].
    exists evs. split; [exact E|].
    assert (B : (calls evs <= 5)%nat /\ 0 <= total_delay evs <= 14000).
    { destruct H as [->|[->|[r ->]]].
      - split; [unfold calls; simpl; lia|simpl; lia].
      - lia.
      - rewrite calls_app, total_delay_app.
        change (calls [EvClaude r]) with 1%nat.
        change (total_delay [EvClaude r]) with 0. lia. }
    split; [lia|]. split; [lia|]. split; [discriminate|].
    intros _. split; [lia|]. split; [lia|].
    exists k. split; [exact Hk|exact H].
Qed.

Lemma run_network_bounds_witness :
  a_provider geminiAttempt = GEMINI /\
  exists evs,
    snd (runStrategy (runtime_on env_premium_exhausted) geminiAttempt [])
    = evs /\
    (calls evs <= 8)%nat /\ 0 <= total_delay evs <= 28000.
Proof.
  split; [reflexivity|].
  destruct (run_network_bounds (runtime_on env_premium_exhausted)
              geminiAttempt []) as [evs [E [Hc [Hd _]]]].
  exists evs. split; [exact E|]. split; assumption.
Defined.

(* ===================================================================== *)
(** * Picking the JSON text out of an answer *)
(* ===================================================================== *)

Lemma indexOf_app_first c pre rest :
  indexOf c pre = None ->
  indexOf c (pre ++ c :: rest)%list = Some (List.length pre).
Proof.
  induction pre as [|d pre IH]; simpl; intros H.
  - rewrite N.eqb_refl. reflexivity.
  - destruct (d =? c)%N; [discriminate|].
    destruct (indexOf c pre); [discriminate|].
    rewrite IH by reflexivity. reflexivity.
Qed.

Lemma lastIndexOf_app_last c s post :
  lastIndexOf c post = None ->
  lastIndexOf c (s ++ c :: post)%list = Some (List.length s).
Proof.
  intros H. induction s as [|d s IH]; simpl.
  - rewrite H, N.eqb_refl. reflexivity.
  - rewrite IH. reflexivity.
Qed.

Lemma substring_prefix (mid post : jsstr) :
  substring 0 (List.length mid) (mid ++ post)%list = mid.
Proof.
  unfold substring. simpl skipn.
  induction mid as [|c mid IH]; simpl; [reflexivity|].
  rewrite IH. reflexivity.
Qed.

Lemma substring_middle (pre mid post : jsstr) :
  substring (List.length pre) (List.length mid) (pre ++ mid ++ post)%list
  = mid.
Proof.
  induction pre as [|c pre IH]; [exact (substring_prefix mid post)|exact IH].
Qed.

(** X7: the JSON extraction of the Claude service drops whatever surrounds
    the outermost pair of braces: prose before the first opening brace and
    after the last closing brace is cut off, and a clean answer is left as it
    is. *)
Theorem claude_json_text_strips (pre body post : jsstr) :
  indexOf 123 pre = None ->
  lastIndexOf 125 post = None ->
  claude_json_text (pre ++ js "{" ++ body ++ js "}" ++ post)%list
  = (js "{" ++ body ++ js "}")%list /\
  claude_json_text (js "{" ++ body ++ js "}")%list
  = (js "{" ++ body ++ js "}")%list.
Proof.
  change (js "{") with [123%N]. change (js "}") with [125%N].
  assert (G : forall pre' post',
            indexOf 123 pre' = None -> lastIndexOf 125 post' = None ->
            claude_json_text (pre' ++ [123%N] ++ body ++ [125%N] ++ post')%list
            = ([123%N] ++ body ++ [125%N])%list).
  { intros pre' post' Hpre Hpost. unfold claude_json_text.
    change (pre' ++ [123%N] ++ body ++ [125%N] ++ post')%list
      with (pre' ++ 123%N :: (body ++ 125%N :: post'))%list.
    rewrite (indexOf_app_first _ _ _ Hpre).
    replace (pre' ++ 123%N :: (body ++ 125%N :: post'))%list
      with ((pre' ++ 123%N :: body) ++ 125%N :: post')%list
      by (rewrite <- app_assoc; reflexivity).
    rewrite (lastIndexOf_app_last _ _ _ Hpost).
    rewrite length_app. simpl List.length.
    assert (L : (List.length pre' <? List.length pre' + S (List.length body))%nat
                = true) by (apply Nat.ltb_lt; lia).
    rewrite L.
    replace (List.length pre' + S (List.length body) + 1
             - List.length pre')%nat
      with (List.length (123%N :: (body ++ [125%N]))%list)
      by (simpl; rewrite length_app; simpl; lia).
    replace ((pre' ++ 123%N :: body) ++ 125%N :: post')%list
      with (pre' ++ (123%N :: (body ++ [125%N])) ++ post')%list.
    - apply substring_middle.
    - rewrite <- !app_assoc. simpl. rewrite <- app_assoc. reflexivity. }
  intros Hpre Hpost. split; [apply G; assumption|].
  exact (G [] [] eq_refl eq_refl).
Qed.

Lemma claude_json_text_strips_witness :
  indexOf 123 "Here is the JSON: " = None /\
  lastIndexOf 125 " Hope it helps." = None /\
  claude_json_text "Here is the JSON: {[]} Hope it helps." = "{[]}".
Proof.
  split; [reflexivity|]. split; [reflexivity|].
  apply (proj1 (claude_json_text_strips "Here is the JSON: " "[]"
                  " Hope it helps." eq_refl eq_refl)).
Defined.

Lemma prefix_app needle rest : prefix needle (needle ++ rest)%list = true.
Proof.
  induction needle as [|c needle IH]; [reflexivity|].
  simpl. rewrite N.eqb_refl. exact IH.
Qed.

Lemma skipn_length_app (a b : jsstr) : skipn (List.length a) (a ++ b)%list = b.
Proof. induction a as [|c a IH]; [reflexivity|exact IH]. Qed.

Lemma take_until_unfold needle s :
  take_until needle s =
  if prefix needle s then Some []
  else match s with
       | [] => None
       | c :: rest => option_map (cons c) (take_until needle rest)
       end.
Proof. destruct s; reflexivity. Qed.

Lemma find_after_unfold needle s :
  find_after needle s =
  if prefix needle s then Some (skipn (List.length needle) s)
  else match s with
       | [] => None
       | _ :: rest => find_after needle rest
       end.
Proof. destruct s; reflexivity. Qed.

Lemma no_backtick_cons c s :
  no_backtick (c :: s) -> (c =? 96)%N = false /\ no_backtick s.
Proof.
  unfold no_backtick. simpl. destruct (c =? 96)%N; [discriminate|].
  destruct (indexOf 96 s); [discriminate|]. auto.
Qed.

Lemma prefix_cons a n c s :
  prefix (a :: n) (c :: s) = (a =? c)%N && prefix n s.
Proof. reflexivity. Qed.

Lemma prefix_backtick_false c needle s :
  (c =? 96)%N = false -> prefix (96%N :: needle) (c :: s) = false.
Proof.
  intros H. rewrite prefix_cons, N.eqb_sym, H. reflexivity.
Qed.

Lemma find_after_skip pre needle s :
  no_backtick pre ->
  find_after (96%N :: needle) (pre ++ s)%list
  = find_after (96%N :: needle) s.
Proof.
  induction pre as [|c pre IH]; intros H; [reflexivity|].
  apply no_backtick_cons in H as [Hc Hp].
  change ((c :: pre) ++ s)%list with (c :: (pre ++ s))%list.
  rewrite find_after_unfold, (prefix_backtick_false c needle _ Hc).
  apply IH, Hp.
Qed.

Lemma prefix_fence_body body tail :
  prefix fence tail = false -> no_backtick body ->
  prefix fence (body ++ tail)%list = false.
Proof.
  intros Ht Hb. destruct body as [|d body]; [exact Ht|].
  apply no_backtick_cons in Hb as [Hd _].
  apply prefix_backtick_false, Hd.
Qed.

Lemma take_until_body body post :
  no_backtick body ->
  take_until (newline ++ fence)%list (body ++ (newline ++ fence) ++ post)%list
  = Some body.
Proof.
  induction body as [|c body IH]; intros H.
  - rewrite take_until_unfold.
    change ([] ++ (newline ++ fence) ++ post)%list
      with ((newline ++ fence) ++ post)%list.
    rewrite prefix_app. reflexivity.
  - apply no_backtick_cons in H as [Hc Hp].
    change ((c :: body) ++ (newline ++ fence) ++ post)%list
      with (c :: (body ++ (newline ++ fence) ++ post))%list.
    rewrite take_until_unfold.
    assert (P : prefix (newline ++ fence)%list
                  (c :: (body ++ (newline ++ fence) ++ post))%list = false).
    { change (newline ++ fence)%list with (LF :: fence).
      rewrite prefix_cons. destruct (LF =? c)%N; [|reflexivity].
      apply prefix_fence_body; [reflexivity|exact Hp]. }
    rewrite P, (IH Hp). reflexivity.
Qed.

(** X8: the recovery of the Gemini service for an answer wrapped in a fenced
    block: when the direct parse fails, what is parsed is the text between
    the opening fence and the closing fence. *)
Theorem fenced_answer_is_unwrapped (JSON_parse : jsstr -> Outcome Json)
    (pre body post : jsstr) (e : JsError) :
  no_backtick pre -> no_backtick body ->
  JSON_parse (pre ++ (fence_json ++ newline) ++ body
                  ++ (newline ++ fence) ++ post)%list = Throw e ->
  match_fenced (pre ++ (fence_json ++ newline) ++ body
                    ++ (newline ++ fence) ++ post)%list = Some body /\
  parseGeminiText JSON_parse
    (pre ++ (fence_json ++ newline) ++ body ++ (newline ++ fence) ++ post)%list
  = JSON_parse body.
Proof.
  intros Hpre Hbody Hfail.
  assert (M : match_fenced (pre ++ (fence_json ++ newline) ++ body
                                ++ (newline ++ fence) ++ post)%list
              = Some body).
  { unfold match_fenced.
    change (fence_json ++ newline)%list
      with (96%N :: (js "``json" ++ newline))%list.
    rewrite (find_after_skip pre _ _ Hpre).
    rewrite find_after_unfold, prefix_app, skipn_length_app.
    apply take_until_body, Hbody. }
  split; [exact M|].
  unfold parseGeminiText. rewrite Hfail, M. reflexivity.
Qed.

Lemma fenced_answer_is_unwrapped_witness :
  no_backtick "Sure: " /\ no_backtick "{}" /\
  parse_empty_object
    (js "Sure: " ++ (fence_json ++ newline) ++ js "{}"
        ++ (newline ++ fence) ++ js " ok")%list
  = Throw (newError "Unexpected end of JSON input") /\
  parseGeminiText parse_empty_object
    (js "Sure: " ++ (fence_json ++ newline) ++ js "{}"
        ++ (newline ++ fence) ++ js " ok")%list
  = Ok (JObj []).
Proof.
  split; [reflexivity|]. split; [reflexivity|]. split; [reflexivity|].
  apply (proj2 (fenced_answer_is_unwrapped parse_empty_object
                  "Sure: " "{}" " ok" _ eq_refl eq_refl eq_refl)).
Defined.
(* ===================================================================== *)
(** * What the services report when something fails *)
(* ===================================================================== *)

Lemma extract_throws env API_KEY img mime gKey t e t1 :
  extractTextFromImage env API_KEY img mime gKey t = (Throw e, t1) ->
  e = newError "Gemini API Quota Exceeded (OCR). Please check your API key."
  \/ e = newError "Failed to extract text from image using Gemini.".
Proof.
  unfold extractTextFromImage, try_catch, bind.
  destruct (retryWithBackoff _ _ _ t) as [[resp|e0] t0].
  - destruct resp as [raw|]; [destruct (nonempty_text raw)|]; discriminate.
  - destruct (isQuotaError e0); intros H; injection H as <- _; auto.
Qed.

(** X5: the Gemini service never lets an error through as it is: whatever
    fails, it throws one of its own two errors.  A quota failure that
    survives the fallback gives the quota message; an answer without text,
    or with text that is neither JSON nor a fenced block, gives the general
    message. *)
Theorem gemini_service_failures (env : Env)
    (JSON_parse : jsstr -> Outcome Json) (typeErrorMessage : Fault -> string)
    (API_KEY : option string) (img mime : string) (lang : SourceLanguage)
    (apiKey proApiKey : option string) (t : Trace) :
  (forall e t1,
     translateImageContent env JSON_parse typeErrorMessage API_KEY img mime
       lang apiKey proApiKey t = (Throw e, t1) ->
     e = newError "Gemini API Quota Exceeded. Please check your API key in Settings."
     \/ e = newError "Failed to process image. Please try again.") /\
  (forall e t1,
     translateWithFallback env API_KEY img mime lang apiKey proApiKey t
       = (Throw e, t1) ->
     isQuotaError e = true ->
     translateImageContent env JSON_parse typeErrorMessage API_KEY img mime
       lang apiKey proApiKey t
     = (Throw (newError "Gemini API Quota Exceeded. Please check your API key in Settings."),
        t1)) /\
  (forall resp t1,
     translateWithFallback env API_KEY img mime lang apiKey proApiKey t
       = (Ok resp, t1) ->
     resp = None \/ resp = Some [] ->
     translateImageContent env JSON_parse typeErrorMessage API_KEY img mime
       lang apiKey proApiKey t
     = (Throw (newError "Failed to process image. Please try again."), t1)) /\
  (forall text t1 e0,
     translateWithFallback env API_KEY img mime lang apiKey proApiKey t
       = (Ok (Some text), t1) ->
     JSON_parse text = Throw e0 -> match_fenced text = None ->
     translateImageContent env JSON_parse typeErrorMessage API_KEY img mime
       lang apiKey proApiKey t
     = (Throw (newError "Failed to process image. Please try again."), t1)).
Proof.
  unfold translateImageContent, try_catch. split; [|split; [|split]].
  - intros e t1. destruct (bind _ _ t) as [[r|e0] t0]; [discriminate|].
    destruct (isQuotaError e0); intros H; injection H as <- _; auto.
  - intros e t1 H Hq. unfold bind. rewrite H, Hq. reflexivity.
  - intros resp t1 H [->| ->]; unfold bind; rewrite H; reflexivity.
  - intros text t1 e0 H Hp Hm. unfold bind at 1. rewrite H.
    destruct (nonempty_text text); [|reflexivity].
    unfold bind, lift, parseGeminiText. rewrite Hp, Hm. reflexivity.
Qed.

Lemma gemini_service_failures_witness :
  translateWithFallback (env_quota_then 0 "oops" "{}") None "AAAA" "image/png"
    KOREAN (Some "key") None []
  = (Ok (Some (js "oops")),
     [EvGemini (translationRequest "AAAA" "image/png" KOREAN
                  TRANSLATION_MODEL_PRO (Some "key"))]) /\
  parse_empty_object "oops" = Throw (newError "Unexpected end of JSON input") /\
  match_fenced "oops" = None /\
  translateImageContent (env_quota_then 0 "oops" "{}") parse_empty_object
    plainTypeError None "AAAA" "image/png" KOREAN (Some "key") None []
  = (Throw (newError "Failed to process image. Please try again."),
     [EvGemini (translationRequest "AAAA" "image/png" KOREAN
                  TRANSLATION_MODEL_PRO (Some "key"))]).
Proof.
  split; [reflexivity|]. split; [reflexivity|]. split; [reflexivity|].
  apply (proj2 (proj2 (proj2
           (gemini_service_failures (env_quota_then 0 "oops" "{}")
              parse_empty_object plainTypeError None "AAAA" "image/png"
              KOREAN (Some "key") None [])))
           "oops" _ (newError "Unexpected end of JSON input"));
    reflexivity.
Defined.

(** X6: what the Claude service reports.  A failure of the extraction
    surfaces as it is and no request goes to Claude.  After a successful
    extraction of some text: status 401 gives the invalid-key message and 404
    the message that names the model; an answer without a text block, and an
    answer whose JSON text does not parse, give their own messages. *)
Theorem claude_service_failures (env : Env)
    (JSON_parse : jsstr -> Outcome Json) (typeErrorMessage : Fault -> string)
    (API_KEY CLAUDE_API_KEY : option string) (img mime : string)
    (lang : SourceLanguage) (apiKey : option string) (modelId : string)
    (gKey : option string) (key : string) (t : Trace) :
  key_or apiKey CLAUDE_API_KEY = Some key -> nonempty key = true ->
  (forall e t1,
     extractTextFromImage env API_KEY img mime gKey t = (Throw e, t1) ->
     translateImageContentWithClaude env JSON_parse typeErrorMessage API_KEY
       CLAUDE_API_KEY img mime lang apiKey modelId gKey t = (Throw e, t1)) /\
  (forall text t1,
     extractTextFromImage env API_KEY img mime gKey t = (Ok text, t1) ->
     trim text <> [] ->
     let req := mkClaudeRequest modelId key lang text in
     let run :=
       translateImageContentWithClaude env JSON_parse typeErrorMessage API_KEY
         CLAUDE_API_KEY img mime lang apiKey modelId gKey t in
     (forall e, claude env t1 req = Throw e -> err_status e = VNum 401 ->
        run = (Throw (newError "Invalid Claude API Key. Please check your key in Settings."),
               (t1 ++ [EvClaude req])%list)) /\
     (forall e, claude env t1 req = Throw e -> err_status e = VNum 404 ->
        run = (Throw (newError ("Model " ++ modelId ++ " not found. Please select a valid model in Settings.")),
               (t1 ++ [EvClaude req])%list)) /\
     (forall content, claude env t1 req = Ok content ->
        find_text content = None ->
        run = (Throw (newError "No text response from Claude"),
               (t1 ++ [EvClaude req])%list)) /\
     (forall content answer e0, claude env t1 req = Ok content ->
        find_text content = Some answer ->
        JSON_parse (claude_json_text answer) = Throw e0 ->
        run = (Throw (newError "Translation failed due to invalid response format."),
               (t1 ++ [EvClaude req])%list))).
Proof.
  intros Hkey Hne. unfold translateImageContentWithClaude. rewrite Hkey, Hne.
  split.
  - intros e t1 Hx. unfold bind at 1. unfold try_catch at 1. rewrite Hx.
    destruct (extract_throws _ _ _ _ _ _ _ _ Hx) as [-> | ->]; reflexivity.
  - intros text t1 Hx Htrim. cbv zeta.
    assert (Htext : negb (nonempty_text text)
                    || (List.length (trim text) =? 0)%nat = false).
    { destruct text as [|c rest]; [exfalso; apply Htrim; reflexivity|].
      destruct (trim (c :: rest)) eqn:T;
        [exfalso; apply Htrim; reflexivity|]. reflexivity. }
    repeat split; intros;
      (unfold bind at 1; unfold try_catch at 1; rewrite Hx, Htext;
       unfold try_catch, claudeTranslate, bind, messagesCreate, lift, throw;
       cbv beta).
    + match goal with
      | He : claude env _ _ = Throw _, Hs : err_status _ = _ |- _ =>
          rewrite He; cbv beta iota; unfold claudeCatch; rewrite Hs
      end.
      reflexivity.
    + match goal with
      | He : claude env _ _ = Throw _, Hs : err_status _ = _ |- _ =>
          rewrite He; cbv beta iota; unfold claudeCatch; rewrite Hs
      end.
      reflexivity.
    + match goal with
      | Hc : claude env _ _ = Ok _, Hf : find_text _ = _ |- _ =>
          rewrite Hc; cbv beta iota; rewrite Hf
      end.
      reflexivity.
    + match goal with
      | Hc : claude env _ _ = Ok _, Hf : find_text _ = _,
        Hp : JSON_parse _ = _ |- _ =>
          rewrite Hc; cbv beta iota; rewrite Hf, Hp
      end.
      reflexivity.
Qed.

Lemma claude_service_failures_witness :
  key_or (Some "claude-key") None = Some "claude-key" /\
  nonempty "claude-key" = true /\
  extractTextFromImage (env_claude_failing "hola" unauthorized) None "AAAA"
    "image/png" (Some "key") []
  = (Ok (js "hola"), [EvGemini (ocrRequest "AAAA" "image/png" (Some "key"))]) /\
  trim "hola" <> [] /\
  err_status unauthorized = VNum 401 /\
  translateImageContentWithClaude (env_claude_failing "hola" unauthorized)
    parse_empty_object plainTypeError None None "AAAA" "image/png" SPANISH
    (Some "claude-key") "claude-3-opus-20240229" (Some "key") []
  = (Throw (newError "Invalid Claude API Key. Please check your key in Settings."),
     ([EvGemini (ocrRequest "AAAA" "image/png" (Some "key"))]
        ++ [EvClaude (mkClaudeRequest "claude-3-opus-20240229" "claude-key"
                        SPANISH "hola")])%list).
Proof.
  assert (T : trim "hola" <> []) by discriminate.
  split; [reflexivity|]. split; [reflexivity|]. split; [reflexivity|].
  split; [exact T|]. split; [reflexivity|].
  apply (proj1 (proj2 (claude_service_failures
                  (env_claude_failing "hola" unauthorized) parse_empty_object
                  plainTypeError None None "AAAA" "image/png" SPANISH
                  (Some "claude-key") "claude-3-opus-20240229" (Some "key")
                  "claude-key" [] eq_refl eq_refl)
                  "hola" _ eq_refl T) unauthorized); reflexivity.
Defined.

(* ===================================================================== *)
(** * The post-processing of the segments *)
(* ===================================================================== *)

Lemma replace_i_fixed s : forall p,
  (forall k, nth_error s k = Some 105%N -> behind p s k = false ->
             word_after s k = false -> False) ->
  replace_i p s = s.
Proof.
  induction s as [|c rest IH]; intros p H; [reflexivity|].
  rewrite replace_i_cons. f_equal.
  - unfold rule2_char.
    destruct (c =? 105)%N eqn:Hc; [|reflexivity].
    destruct p; [reflexivity|].
    destruct (word_ahead rest) eqn:Hw; [reflexivity|].
    exfalso. apply N.eqb_eq in Hc. subst c.
    apply (H 0%nat); [reflexivity|reflexivity|].
    unfold word_after. simpl. destruct rest; exact Hw.
  - apply IH. intros k Hget Hb Ha. apply (H (S k)).
    + exact Hget.
    + destruct k; exact Hb.
    + exact Ha.
Qed.

Lemma normalize_twice T : normalize (normalize T) = normalize T.
Proof.
  unfold normalize at 1. rewrite capitalizeFirst_normalize.
  apply replace_i_normalize.
Qed.

(** X9: the texts that the normalizer leaves as they are are those whose
    first code unit is its own uppercase form and that hold no standalone
    lowercase i. *)
Theorem normalize_fixed_points (T : jsstr) :
  normalize T = T <-> first_upper T /\ forall k, ~ standalone_i T k.
Proof.
  split.
  - intros H.
    assert (F : first_upper T).
    { destruct T as [|c rest]; [exact I|]. simpl.
      pose proof (normalize_cons c rest) as E. rewrite H in E.
      destruct (toUpperCase1 c) as [|d [|d' u]] eqn:U.
      - exfalso. apply (toUpperCase1_nonempty c U).
      - injection E as -> _. reflexivity.
      - exfalso. apply (f_equal (@List.length N)) in E.
        simpl in E. rewrite length_app, length_replace_i in E. lia. }
    split; [exact F|].
    intros k [Hget [Hb Ha]].
    assert (C : capitalizeFirst T = T).
    { destruct T as [|c rest]; [reflexivity|].
      rewrite capitalizeFirst_cons. simpl in F. rewrite F. reflexivity. }
    unfold normalize in H. rewrite C in H.
    pose proof (get_replace_i T false k 105%N Hget) as G.
    rewrite H, Hget in G. unfold word_before in Hb. rewrite Hb, Ha in G.
    discriminate.
  - intros [Hf Hn]. unfold normalize.
    assert (C : capitalizeFirst T = T).
    { destruct T as [|c rest]; [reflexivity|].
      rewrite capitalizeFirst_cons. simpl in Hf. rewrite Hf. reflexivity. }
    rewrite C. apply replace_i_fixed. intros k Hget Hb Ha.
    apply (Hn k). repeat split; assumption.
Qed.

Lemma normalize_fixed_points_witness :
  normalize "Hi, it is I" = "Hi, it is I" /\
  first_upper "Hi, it is I" /\ forall k, ~ standalone_i "Hi, it is I" k.
Proof.
  assert (E : normalize "Hi, it is I" = "Hi, it is I")
    by (vm_compute; reflexivity).
  split; [exact E|].
  exact (proj1 (normalize_fixed_points "Hi, it is I") E).
Defined.

Section Segments.

Variable typeErrorMessage : Fault -> string.

Lemma postProcess_processed seg s :
  postProcess typeErrorMessage seg = Ok s -> processed seg s.
Proof.
  unfold postProcess, processed, target_text.
  destruct seg; try discriminate;
    (destruct (get_field "target" _) as [v|];
     [destruct v; simpl;
      try match goal with
          | |- context [if ?b then _ else _] => destruct b
          end;
      try discriminate|]);
    intros H; injection H as <-; split; reflexivity.
Qed.

Lemma postProcess_malformed seg :
  malformed seg <-> exists e, postProcess typeErrorMessage seg = Throw e.
Proof.
  unfold malformed, postProcess. split.
  - intros [->|[v [G [Tr Ns]]]]; [eexists; reflexivity|].
    destruct seg; try discriminate G. rewrite G.
    destruct v; try (rewrite Tr; eexists; reflexivity).
    exfalso. apply (Ns s). reflexivity.
  - intros [e H]. destruct seg; [left; reflexivity|..]; right;
      try (cbn in H; discriminate H).
    destruct (get_field "target" (JObj fields)) as [v|] eqn:G;
      [|discriminate H].
    exists v. split; [reflexivity|].
    destruct v; try discriminate H;
      (split; [|intros s0; discriminate]);
      revert H; (destruct (json_truthy _); [reflexivity|discriminate]).
Qed.

Lemma map_postProcess_processed segs : forall ss,
  map_postProcess typeErrorMessage segs = Ok ss -> Forall2 processed segs ss.
Proof.
  induction segs as [|seg rest IH]; simpl; intros ss H.
  - injection H as <-. constructor.
  - destruct (postProcess typeErrorMessage seg) as [s|e] eqn:P;
      [|discriminate].
    destruct (map_postProcess typeErrorMessage rest) as [ss'|e];
      [|discriminate].
    injection H as <-. constructor; [apply postProcess_processed, P|].
    apply IH. reflexivity.
Qed.

Lemma map_postProcess_throws segs :
  (exists seg, In seg segs /\ malformed seg) <->
  exists e, map_postProcess typeErrorMessage segs = Throw e.
Proof.
  induction segs as [|seg rest IH]; simpl.
  - split; [intros [seg [[] _]]|intros [e H]; discriminate].
  - split.
    + intros [seg' [[<-|Hin] M]].
      * apply postProcess_malformed in M as [e ->]. eexists. reflexivity.
      * destruct (postProcess typeErrorMessage seg); [|eexists; reflexivity].
        destruct (proj1 IH (ex_intro _ seg' (conj Hin M))) as [e ->].
        eexists. reflexivity.
    + intros [e H].
      destruct (postProcess typeErrorMessage seg) as [s|e0] eqn:P.
      * destruct (map_postProcess typeErrorMessage rest) as [ss|e1] eqn:R;
          [discriminate|].
        destruct (proj2 IH (ex_intro _ e1 eq_refl)) as [seg' [Hin M]].
        exists seg'. split; [right; exact Hin|exact M].
      * exists seg. split; [left; reflexivity|].
        apply postProcess_malformed. eexists. exact P.
Qed.

Lemma builders_same_segments lang parsed items :
  get_field "segments" parsed = Some (JArr items) ->
  (forall r, buildGeminiResult typeErrorMessage lang parsed = Ok r ->
             map_postProcess typeErrorMessage items = Ok (segments r)) /\
  (forall r, buildClaudeResult typeErrorMessage lang parsed = Ok r ->
             map_postProcess typeErrorMessage items = Ok (segments r)) /\
  (forall e, map_postProcess typeErrorMessage items = Throw e ->
             buildGeminiResult typeErrorMessage lang parsed = Throw e /\
             buildClaudeResult typeErrorMessage lang parsed = Throw e).
Proof.
  intros G. unfold buildGeminiResult, buildClaudeResult.
  destruct parsed; try discriminate G. rewrite G.
  destruct (map_postProcess typeErrorMessage items) as [ss|e0].
  - split; [|split]; [intros r H; injection H as <-; reflexivity..|].
    discriminate.
  - split; [discriminate|]. split; [discriminate|].
    intros e H. injection H as ->. split; reflexivity.
Qed.

End Segments.

(** X10: both services turn the segments of the answer into the segments of
    the result one by one and in order: each keeps its source and gets the
    normalized target (the empty text when there is no target), so that
    normalizing a result again changes nothing. *)
Theorem segments_are_processed (typeErrorMessage : Fault -> string)
    (lang : SourceLanguage) (parsed : Json) (items : list Json)
    (r : TranslationResult) :
  get_field "segments" parsed = Some (JArr items) ->
  buildGeminiResult typeErrorMessage lang parsed = Ok r \/
  buildClaudeResult typeErrorMessage lang parsed = Ok r ->
  Forall2 processed items (segments r) /\
  List.length (segments r) = List.length items /\
  Forall (fun s => normalize (target s) = target s) (segments r).
Proof.
  intros G H.
  destruct (builders_same_segments typeErrorMessage lang parsed items G)
    as [Hg [Hc _]].
  assert (M : map_postProcess typeErrorMessage items = Ok (segments r))
    by (destruct H as [H|H]; [apply Hg|apply Hc]; exact H).
  apply map_postProcess_processed in M.
  split; [exact M|]. split.
  - symmetry. apply (Forall2_length M).
  - clear -M. induction M as [|seg s items ss [_ Ht] _ IH]; constructor.
    + rewrite Ht. apply normalize_twice.
    + exact IH.
Qed.

Lemma segments_are_processed_witness :
  Forall2 processed
    [JObj [("source", JStr "a"); ("target", JStr (0xE9 :: js "lan i")%N)];
     JObj []]
    [mkSegment (Some (JStr "a")) (0xC9 :: js "lan I")%N; mkSegment None []].
Proof.
  exact (proj1 (segments_are_processed plainTypeError KOREAN
           (JObj [("segments",
                   JArr [JObj [("source", JStr "a");
                               ("target", JStr (0xE9 :: js "lan i")%N)];
                         JObj []])])
           _ (mkResult (JStr "Korean")
                [mkSegment (Some (JStr "a")) (0xC9 :: js "lan I")%N;
                 mkSegment None []])
           eq_refl (or_introl eq_refl))).
Defined.

(** X11: one malformed segment (null, or with a target that is truthy and
    not a string) makes both services drop the whole answer, with the same
    error; without one, and with an answer that is not null, both build a
    result. *)
Theorem malformed_segment_fails_answer (typeErrorMessage : Fault -> string)
    (lang : SourceLanguage) (parsed : Json) (items : list Json) :
  get_field "segments" parsed = Some (JArr items) ->
  ((exists seg, In seg items /\ malformed seg) ->
   exists e, buildGeminiResult typeErrorMessage lang parsed = Throw e /\
             buildClaudeResult typeErrorMessage lang parsed = Throw e) /\
  ((forall seg, In seg items -> ~ malformed seg) ->
   exists g c, buildGeminiResult typeErrorMessage lang parsed = Ok g /\
               buildClaudeResult typeErrorMessage lang parsed = Ok c /\
               segments g = segments c).
Proof.
  intros G. split.
  - intros M. apply map_postProcess_throws with (typeErrorMessage := typeErrorMessage)
      in M as [e M].
    exists e.
    apply (proj2 (proj2 (builders_same_segments typeErrorMessage lang parsed
                           items G)) e M).
  - intros Hn.
    destruct (map_postProcess typeErrorMessage items) as [ss|e] eqn:M.
    + unfold buildGeminiResult, buildClaudeResult.
      destruct parsed; try discriminate G. rewrite G, M.
      eexists. eexists. split; [reflexivity|]. split; reflexivity.
    + exfalso.
      destruct (proj2 (map_postProcess_throws typeErrorMessage items)
                  (ex_intro _ e M)) as [seg [Hin Hm]].
      exact (Hn seg Hin Hm).
Qed.

Lemma malformed_segment_fails_answer_witness :
  exists e,
    buildGeminiResult plainTypeError KOREAN
      (JObj [("segments", JArr [JObj [("target", JStr "ok")]; JNull])])
    = Throw e /\
    buildClaudeResult plainTypeError KOREAN
      (JObj [("segments", JArr [JObj [("target", JStr "ok")]; JNull])])
    = Throw e.
Proof.
  apply (proj1 (malformed_segment_fails_answer plainTypeError KOREAN
                  (JObj [("segments",
                          JArr [JObj [("target", JStr "ok")]; JNull])])
                  _ eq_refl)).
  exists JNull. split; [right; left; reflexivity|left; reflexivity].
Defined.

Lemma json_or_truthy v d d' :
  json_truthy v = true -> json_or v d = json_or v d'.
Proof.
  unfold json_or. destruct v as [x|]; [|discriminate].
  intros ->. reflexivity.
Qed.

Lemma json_or_falsy v d : json_truthy v = false -> json_or v d = d.
Proof.
  unfold json_or. destruct v as [x|]; [|reflexivity].
  intros ->. reflexivity.
Qed.

(** X12: the two services build the same result from the same answer, but
    for the language they report when the answer names none and the source
    language is left to detection: there the Gemini service reports the name
    of the setting and the Claude service [Unknown].  Where one of them
    throws, the other throws the same. *)
Theorem builders_agree (typeErrorMessage : Fault -> string)
    (lang : SourceLanguage) (parsed : Json) :
  (lang <> AUTO \/ json_truthy (get_field "detectedLanguage" parsed) = true ->
   buildClaudeResult typeErrorMessage lang parsed
   = buildGeminiResult typeErrorMessage lang parsed) /\
  match buildGeminiResult typeErrorMessage lang parsed,
        buildClaudeResult typeErrorMessage lang parsed with
  | Ok g, Ok c =>
      segments g = segments c /\
      (detectedLanguage g <> detectedLanguage c ->
       lang = AUTO /\ detectedLanguage g = JStr "Auto-Detect" /\
       detectedLanguage c = JStr "Unknown")
  | Throw e, Throw e' => e = e'
  | _, _ => False
  end.
Proof.
  assert (S : match get_field "segments" parsed with
              | Some (JArr items) => map_postProcess typeErrorMessage items
              | _ => Ok []
              end
              = map_postProcess typeErrorMessage
                  match get_field "segments" parsed with
                  | Some (JArr items) => items
                  | _ => []
                  end).
  { destruct (get_field "segments" parsed) as [[]|]; reflexivity. }
  unfold buildGeminiResult, buildClaudeResult. rewrite S. clear S.
  destruct parsed; [split; [intros _|]; reflexivity|..]; cbv beta iota zeta;
    (destruct (map_postProcess typeErrorMessage _) as [ss|e];
     [|split; [intros _|]; reflexivity]);
    match goal with
    | |- context [json_or ?v _] => set (dl := v)
    end;
    (split;
     [intros [Hl|Ht];
      [destruct lang; [reflexivity..|contradiction]
      |rewrite (json_or_truthy dl _ (JStr (language_name lang)) Ht);
       reflexivity]
     |cbn [segments detectedLanguage]; split; [reflexivity|]; intros Hd;
      destruct (json_truthy dl) eqn:Tr;
      [exfalso; apply Hd; apply json_or_truthy, Tr|];
      rewrite !(json_or_falsy dl _ Tr) in Hd |- *;
      destruct lang; try (exfalso; apply Hd; reflexivity); auto]).
Qed.

Lemma builders_agree_witness :
  buildClaudeResult plainTypeError SPANISH (JObj [])
  = buildGeminiResult plainTypeError SPANISH (JObj []).
Proof.
  apply (proj1 (builders_agree plainTypeError SPANISH (JObj []))).
  left. discriminate.
Defined.

(* ===================================================================== *)
(** * More on the batch orchestrator *)
(* ===================================================================== *)

Lemma In_map_remove_nth {A B} (f : A -> B) k (l : list A) a x :
  nth_error l k = Some a -> In x (map f l) -> x <> f a ->
  In x (map f (remove_nth k l)).
Proof.
  revert k. induction l as [|c l IH]; intros k E H N;
    [destruct k; discriminate|].
  destruct k as [|k]; simpl in E |- *.
  - injection E as ->. destruct H as [H|H]; [congruence|exact H].
  - destruct H as [H|H]; [left; exact H|right; apply (IH k E H N)].
Qed.

Lemma key_or_truthy a b :
  key_truthy a = true \/ key_truthy b = true ->
  key_truthy (key_or a b) = true.
Proof.
  unfold key_or. destruct (key_truthy a) eqn:E; intros H.
  - exact E.
  - destruct H as [H|H]; [discriminate|exact H].
Qed.

Lemma credentialed_backoff r delay k :
  key_truthy (g_apiKey r) = true ->
  Forall (fun e => credentialed e = true) (backoff_events r delay k).
Proof.
  intros H. revert delay. induction k as [|k IH]; intros delay;
    cbn [backoff_events].
  - constructor; [exact H|constructor].
  - constructor; [exact H|]. constructor; [reflexivity|apply IH].
Qed.

Lemma claude_run_credentialed env JSON_parse tem API_KEY CLAUDE_API_KEY
    img mime lang apiKey modelId gKey t :
  key_truthy (getAiClient API_KEY gKey) = true ->
  exists evs,
    snd (translateImageContentWithClaude env JSON_parse tem API_KEY
           CLAUDE_API_KEY img mime lang apiKey modelId gKey t)
    = (t ++ evs)%list /\
    Forall (fun e => credentialed e = true) evs.
Proof.
  intros Kg. unfold translateImageContentWithClaude.
  destruct (key_or apiKey CLAUDE_API_KEY) as [key|];
    [destruct (nonempty key) eqn:Kn|];
    try (exists []; rewrite app_nil_r; split; [reflexivity|constructor]).
  destruct (extract_shape env API_KEY img mime gKey t) as [k [Hk E]].
  pose proof (credentialed_backoff
                (ocrRequest img mime (getAiClient API_KEY gKey))
                default_delay k Kg) as B.
  unfold bind at 1. unfold try_catch at 1.
  destruct (extractTextFromImage env API_KEY img mime gKey t)
    as [[text|e] t1]; simpl in E; subst t1.
  - destruct (negb (nonempty_text text) || (List.length (trim text) =? 0)%nat).
    + eexists. split; [reflexivity|exact B].
    + rewrite claude_step_events, <- app_assoc.
      eexists. split; [reflexivity|]. apply Forall_app. split; [exact B|].
      constructor; [exact Kn|constructor].
  - eexists. split; [reflexivity|exact B].
Qed.

Lemma run_credentialed rt a t :
  attempt_credentialed rt a = true ->
  exists evs,
    snd (runStrategy rt a t) = (t ++ evs)%list /\
    Forall (fun e => credentialed e = true) evs.
Proof.
  unfold attempt_credentialed. intros H. apply andb_prop in H as [_ Hg].
  assert (Kg : key_truthy (getAiClient (rt_API_KEY rt)
                             (Some (a_geminiApiKey a))) = true).
  { unfold getAiClient. apply key_or_truthy. apply orb_prop in Hg. exact Hg. }
  assert (Kp : key_truthy
                 (getAiClient (rt_API_KEY rt)
                    (key_or (Some (a_geminiProApiKey a))
                            (Some (a_geminiApiKey a)))) = true).
  { unfold getAiClient. apply key_or_truthy.
    unfold key_or at 1. simpl.
    destruct (nonempty (a_geminiProApiKey a)) eqn:P.
    - left. exact P.
    - apply orb_prop in Hg. exact Hg. }
  unfold runStrategy. destruct (a_provider a).
  - rewrite gemini_service_events.
    destruct (fallback_shape (rt_env rt) (rt_API_KEY rt) (a_base64Data a)
                (a_mimeType a) (a_lang a) (Some (a_geminiApiKey a))
                (Some (a_geminiProApiKey a)) t) as [k [_ [E|E]]];
      rewrite E; eexists; (split; [reflexivity|]).
    + apply credentialed_backoff. exact Kp.
    + apply Forall_app. split; apply credentialed_backoff; assumption.
  - apply claude_run_credentialed. exact Kg.
Qed.

Lemma same_payload_refl i : same_payload i i.
Proof. repeat split. Qed.

Section OrchestratorTracking.

Variable rt : Runtime.

Lemma translateItem_origin item lang provider app i' :
  In i' (items (translateItem rt item lang provider app)) ->
  exists j, In j (items app) /\ same_payload i' j.
Proof.
  unfold translateItem.
  destruct (missesClaudeKey rt provider app);
    [|destruct (negb (hasGeminiKey rt app))]; simpl; intros H;
    apply In_update_item in H as [j [Hj [[_ ->]|[_ ->]]]];
    exists j; (split; [exact Hj|repeat split]).
Qed.

Lemma settle_origin a app i' :
  In i' (items (translateItem_settle rt a app)) ->
  exists j, In j (items app) /\ same_payload i' j.
Proof.
  unfold translateItem_settle.
  destruct (runStrategy rt a (network app)) as [[r|e] t]; simpl; intros H;
    apply In_update_item in H as [j [Hj [[_ ->]|[_ ->]]]];
    exists j; (split; [exact Hj|repeat split]).
Qed.

(** Where the items of the next state come from. *)
Lemma perform_origin act app i' :
  In i' (items (perform rt act app)) ->
  (exists j, In j (items app) /\ same_payload i' j) \/
  (exists files, act = AddFiles files /\ In i' (newItems files)).
Proof.
  destruct act; simpl; intros H;
    try (left; exists i'; split; [exact H|apply same_payload_refl]).
  - apply in_app_or in H as [H|H].
    + left. exists i'. split; [exact H|apply same_payload_refl].
    + right. exists files. split; [reflexivity|exact H].
  - left. unfold dispatchNext in H. destruct (todo app) as [|x rest].
    + exists i'. split; [exact H|apply same_payload_refl].
    + apply translateItem_origin in H. exact H.
  - left. unfold handleRetry in H.
    destruct (find_item item_id (items app)) as [j|].
    + apply translateItem_origin in H. exact H.
    + exists i'. split; [exact H|apply same_payload_refl].
  - left. apply filter_In in H as [H _].
    exists i'. split; [exact H|apply same_payload_refl].
  - contradiction.
  - left. destruct (nth_error (pending app) k) as [a|].
    + apply settle_origin in H. exact H.
    + exists i'. split; [exact H|apply same_payload_refl].
Qed.

Lemma Tracked_initial : Tracked rt initialApp.
Proof. constructor; simpl; intros; contradiction. Qed.

Lemma Tracked_translateItem item lang provider app :
  Tracked rt app ->
  (forall i, In i (items app) -> id i = id item -> same_payload item i) ->
  Tracked rt (translateItem rt item lang provider app).
Proof.
  intros T Hp. unfold translateItem.
  destruct (missesClaudeKey rt provider app) eqn:Mc;
    [|destruct (negb (hasGeminiKey rt app)) eqn:Hg].
  1, 2: constructor; simpl;
    [ intros i' Hi' S;
      apply In_update_item in Hi' as [j [Hj [[E ->]|[_ ->]]]];
      [discriminate S|apply (tr_analyzing _ _ T j Hj S)]
    | intros a i' Ha Hi' E;
      apply In_update_item in Hi' as [j [Hj [[Ej ->]|[_ ->]]]];
      exact (tr_payload _ _ T a j Ha Hj E)
    | intros x i' Hx Hi' E;
      apply In_update_item in Hi' as [j [Hj [[Ej ->]|[_ ->]]]];
      exact (tr_todo _ _ T x j Hx Hj E)
    | apply (tr_keys _ _ T)
    | apply (tr_network _ _ T) ].
  constructor; simpl.
  - intros i' Hi' S. rewrite map_app. apply in_or_app.
    apply In_update_item in Hi' as [j [Hj [[E ->]|[_ ->]]]].
    + right. left. simpl. symmetry. exact E.
    + left. apply (tr_analyzing _ _ T j Hj S).
  - intros a i' Ha Hi' E. apply in_app_or in Ha as [Ha|[<-|[]]].
    + apply In_update_item in Hi' as [j [Hj [[Ej ->]|[_ ->]]]];
        exact (tr_payload _ _ T a j Ha Hj E).
    + simpl in E.
      apply In_update_item in Hi' as [j [Hj [[Ej ->]|[Ej ->]]]].
      * exact (Hp j Hj Ej).
      * contradiction.
  - intros x i' Hx Hi' E.
    apply In_update_item in Hi' as [j [Hj [[Ej ->]|[_ ->]]]];
      exact (tr_todo _ _ T x j Hx Hj E).
  - intros a Ha. apply in_app_or in Ha as [Ha|[<-|[]]].
    + apply (tr_keys _ _ T a Ha).
    + unfold attempt_credentialed. simpl.
      unfold missesClaudeKey in Mc. unfold hasGeminiKey in Hg.
      destruct (is_claude provider), (nonempty (claudeApiKey app)),
        (key_truthy (rt_CLAUDE_API_KEY rt)), (nonempty (geminiApiKey app)),
        (key_truthy (rt_API_KEY rt)); simpl in *; congruence.
  - apply (tr_network _ _ T).
Qed.

Lemma Tracked_dispatchNext app : Tracked rt app -> Tracked rt (dispatchNext rt app).
Proof.
  intros T. unfold dispatchNext. destruct (todo app) as [|x rest] eqn:Q;
    [exact T|].
  apply Tracked_translateItem.
  - constructor; simpl; try apply T.
    intros y i Hy. apply (tr_todo _ _ T y i). rewrite Q. right. exact Hy.
  - simpl. intros i Hi E. apply (tr_todo _ _ T x i); [|exact Hi|exact E].
    rewrite Q. left. reflexivity.
Qed.

Lemma Tracked_handleRetry item_id app :
  Inv app -> Tracked rt app -> Tracked rt (handleRetry rt item_id app).
Proof.
  intros I T. unfold handleRetry.
  destruct (find_item item_id (items app)) as [j|] eqn:F; [|exact T].
  apply find_item_some in F as [Hj Ej].
  apply Tracked_translateItem; [exact T|].
  intros i Hi E.
  assert (i = j) as ->; [|apply same_payload_refl].
  apply (NoDup_map_inj id (items app)); [apply (inv_items_nodup _ I)| | |];
    assumption.
Qed.

Lemma Tracked_handleFileChange files app :
  Tracked rt app -> enabled (AddFiles files) app ->
  Tracked rt (handleFileChange files app).
Proof.
  intros T [Ht [N F]]. constructor; simpl.
  - intros i Hi S. apply in_app_or in Hi as [Hi|Hi].
    + apply (tr_analyzing _ _ T i Hi S).
    + destruct (newItems_idle files i Hi) as [S' _]. congruence.
  - intros a i Ha Hi E. apply in_app_or in Hi as [Hi|Hi].
    + apply (tr_payload _ _ T a i Ha Hi E).
    + exfalso. apply (proj2 (F (id i) (in_map id _ _ Hi))).
      rewrite E. apply in_map. exact Ha.
  - intros x i Hx Hi E. apply in_app_or in Hi as [Hi|Hi].
    + exfalso. apply (proj1 (F (id x) (in_map id _ _ Hx))).
      rewrite <- E. apply in_map. exact Hi.
    + assert (i = x) as ->; [|apply same_payload_refl].
      apply (NoDup_map_inj id (newItems files)); assumption.
  - apply (tr_keys _ _ T).
  - apply (tr_network _ _ T).
Qed.

Lemma Tracked_subset app app' :
  Tracked rt app -> incl (items app') (items app) ->
  pending app' = pending app -> todo app' = todo app ->
  network app' = network app -> Tracked rt app'.
Proof.
  intros T Hi Ep Et En. constructor; rewrite ?Ep, ?Et, ?En.
  - intros i H. apply (tr_analyzing _ _ T i (Hi i H)).
  - intros a i Ha H. apply (tr_payload _ _ T a i Ha (Hi i H)).
  - intros x i Hx H. apply (tr_todo _ _ T x i Hx (Hi i H)).
  - apply (tr_keys _ _ T).
  - apply (tr_network _ _ T).
Qed.

Lemma Tracked_settle k a app :
  Tracked rt app -> nth_error (pending app) k = Some a ->
  Tracked rt
    (translateItem_settle rt a (setPending (remove_nth k (pending app)) app)).
Proof.
  intros T Hk.
  assert (Ha : In a (pending app)) by (apply (nth_error_In _ _ Hk)).
  destruct (run_credentialed rt a (network app) (tr_keys _ _ T a Ha))
    as [evs [E C]].
  unfold translateItem_settle. simpl.
  destruct (runStrategy rt a (network app)) as [[r|e] t]; simpl in E;
    subst t; constructor; simpl.
  1, 6: intros i' Hi' S;
    apply In_update_item in Hi' as [j [Hj [[Ej ->]|[Ej ->]]]];
    [discriminate S|];
    apply (In_map_remove_nth a_id k (pending app) a (id j) Hk);
    [apply (tr_analyzing _ _ T j Hj S)|exact Ej].
  1, 5: intros a' i' Ha' Hi' E;
    apply In_remove_nth in Ha';
    apply In_update_item in Hi' as [j [Hj [[Ej ->]|[_ ->]]]];
    exact (tr_payload _ _ T a' j Ha' Hj E).
  1, 4: intros x i' Hx Hi' E;
    apply In_update_item in Hi' as [j [Hj [[Ej ->]|[_ ->]]]];
    exact (tr_todo _ _ T x j Hx Hj E).
  1, 3: intros a' Ha'; apply In_remove_nth in Ha';
    apply (tr_keys _ _ T a' Ha').
  1, 2: intros e' He'; apply in_app_or in He' as [He'|He'];
    [apply (tr_network _ _ T e' He')
    |apply (proj1 (Forall_forall _ _) C e' He')].
Qed.

Lemma perform_tracked act app :
  Inv app -> Tracked rt app -> enabled act app ->
  Tracked rt (perform rt act app).
Proof.
  intros I T En. destruct act; simpl in *.
  - apply Tracked_handleFileChange; assumption.
  - apply Tracked_dispatchNext; assumption.
  - apply Tracked_handleRetry; assumption.
  - apply (Tracked_subset app); auto.
    simpl. intros i Hi. apply filter_In in Hi as [Hi _]. exact Hi.
  - apply (Tracked_subset app); auto. simpl. intros i [].
  - apply (Tracked_subset app); auto. apply incl_refl.
  - apply (Tracked_subset app); auto. apply incl_refl.
  - apply (Tracked_subset app); auto. apply incl_refl.
  - apply (Tracked_subset app); auto. apply incl_refl.
  - apply (Tracked_subset app); auto. apply incl_refl.
  - destruct (nth_error (pending app) k) as [a|] eqn:Hk; [|exact T].
    apply Tracked_settle; assumption.
Qed.

Lemma reachable_tracked app : reachable rt app -> Tracked rt app.
Proof.
  induction 1 as [|app act R IH En]; [apply Tracked_initial|].
  apply perform_tracked; [apply (reachable_inv rt app R)|exact IH|exact En].
Qed.

End OrchestratorTracking.

Lemma appWithOneFile_reachable : reachable keyedRuntime appWithOneFile.
Proof.
  apply (reachable_step keyedRuntime initialApp (AddFiles oneFile));
    [apply reachable_initial|].
  split; [reflexivity|]. split.
  - repeat constructor; simpl; intuition discriminate.
  - intros x _. split; intros [].
Qed.

Lemma appDispatched_reachable : reachable keyedRuntime appDispatched.
Proof.
  apply (reachable_step keyedRuntime appWithOneFile Dispatch);
    [apply appWithOneFile_reachable|discriminate].
Qed.

(** X13: in every state the orchestrator can reach, no two items share an
    identifier, no item has two calls in flight, and an item is in ANALYZING
    exactly when a call for it is in flight. *)
Theorem analyzing_iff_suspended (rt : Runtime) (app : App) :
  reachable rt app ->
  NoDup (map id (items app)) /\
  NoDup (map a_id (pending app)) /\
  forall i, In i (items app) ->
    (status i = ANALYZING <-> In (id i) (map a_id (pending app))).
Proof.
  intros R. pose proof (reachable_inv rt app R) as I.
  pose proof (reachable_tracked rt app R) as T.
  split; [apply (inv_items_nodup _ I)|].
  split; [apply (inv_pending_nodup _ I)|].
  intros i Hi. split.
  - apply (tr_analyzing _ _ T i Hi).
  - intros H. apply in_map_iff in H as [a [E Ha]].
    apply (inv_pending _ I a i Ha Hi (eq_sym E)).
Qed.

Lemma analyzing_iff_suspended_witness :
  reachable keyedRuntime appDispatched /\
  pending appDispatched = [dispatchedAttempt] /\
  forall i, In i (items appDispatched) ->
    (status i = ANALYZING <-> In (id i) (map a_id (pending appDispatched))).
Proof.
  split; [apply appDispatched_reachable|]. split; [reflexivity|].
  apply (analyzing_iff_suspended keyedRuntime appDispatched
           appDispatched_reachable).
Defined.

(** X14: the image of an item never changes, and a call in flight holds the
    image of the item it was made for: whatever happens in between, the
    request that is sent for an item carries that item's image. *)
Theorem attempt_carries_item_image (rt : Runtime) (app : App) :
  reachable rt app ->
  (forall a i, In a (pending app) -> In i (items app) -> id i = a_id a ->
     a_base64Data a = base64Data i /\ a_mimeType a = mimeType i) /\
  (forall act i i',
     enabled act app -> In i (items app) ->
     In i' (items (perform rt act app)) -> id i' = id i ->
     base64Data i' = base64Data i /\ mimeType i' = mimeType i).
Proof.
  intros R. pose proof (reachable_inv rt app R) as I.
  pose proof (reachable_tracked rt app R) as T.
  split.
  - intros a i Ha Hi E. apply (tr_payload _ _ T a i Ha Hi E).
  - intros act i i' En Hi Hi' E.
    destruct (perform_origin rt act app i' Hi')
      as [[j [Hj [Ej P]]]|[files [-> Hn]]].
    + assert (j = i) as ->; [|exact P].
      apply (NoDup_map_inj id (items app));
        [apply (inv_items_nodup _ I)|assumption..|congruence].
    + exfalso. destruct En as [_ [_ F]].
      apply (proj1 (F (id i') (in_map id _ _ Hn))).
      rewrite E. apply in_map. exact Hi.
Qed.

Lemma attempt_carries_item_image_witness :
  reachable keyedRuntime appDispatched /\
  In dispatchedAttempt (pending appDispatched) /\
  In (with_analyzing idleItem) (items appDispatched) /\
  a_base64Data dispatchedAttempt = "AAAA" /\
  a_mimeType dispatchedAttempt = "image/png".
Proof.
  split; [apply appDispatched_reachable|].
  split; [left; reflexivity|]. split; [left; reflexivity|].
  apply (proj1 (attempt_carries_item_image keyedRuntime appDispatched
                  appDispatched_reachable)
           dispatchedAttempt (with_analyzing idleItem));
    [left; reflexivity|left; reflexivity|reflexivity].
Defined.

(** X15: every request that the application sends, to Gemini or to Claude,
    carries a credential that is not empty: the checks of [translateItem]
    see to it that [getAiClient] never builds a client without a key.  The
    calls in flight hold what their provider needs. *)
Theorem requests_carry_credentials (rt : Runtime) (app : App) :
  reachable rt app ->
  (forall e, In e (network app) -> credentialed e = true) /\
  (forall a, In a (pending app) -> attempt_credentialed rt a = true) /\
  (forall a t, In a (pending app) ->
     exists evs, snd (runStrategy rt a t) = (t ++ evs)%list /\
                 Forall (fun e => credentialed e = true) evs).
Proof.
  intros R. pose proof (reachable_tracked rt app R) as T.
  split; [apply (tr_network _ _ T)|]. split; [apply (tr_keys _ _ T)|].
  intros a t Ha. apply run_credentialed. apply (tr_keys _ _ T a Ha).
Qed.

Lemma requests_carry_credentials_witness :
  reachable keyedRuntime (perform keyedRuntime (Complete 0) appDispatched) /\
  network (perform keyedRuntime (Complete 0) appDispatched) <> [] /\
  forall e, In e (network (perform keyedRuntime (Complete 0) appDispatched)) ->
            credentialed e = true.
Proof.
  assert (R : reachable keyedRuntime
                (perform keyedRuntime (Complete 0) appDispatched)).
  { apply reachable_step; [apply appDispatched_reachable|].
    split; [reflexivity|]. simpl. apply Nat.lt_0_1. }
  split; [exact R|]. split; [discriminate|].
  apply (proj1 (requests_carry_credentials keyedRuntime _ R)).
Defined.

(** X16: removing an item, or clearing the list, does not cancel the call
    that is in flight for it.  When that call settles, its requests have
    gone over the network all the same, and its outcome changes no item. *)
Theorem removed_item_call_still_settles (rt : Runtime) (app : App)
    (k : nat) (a : Attempt) :
  nth_error (pending app) k = Some a ->
  (let app1 := perform rt (Remove (a_id a)) app in
   let app2 := perform rt (Complete k) app1 in
   pending app1 = pending app /\
   items app2 = items app1 /\
   (forall i, In i (items app2) -> id i <> a_id a) /\
   pending app2 = remove_nth k (pending app) /\
   network app2 = snd (runStrategy rt a (network app))) /\
  (let app1 := perform rt ClearAll app in
   let app2 := perform rt (Complete k) app1 in
   pending app1 = pending app /\
   items app2 = [] /\
   pending app2 = remove_nth k (pending app) /\
   network app2 = snd (runStrategy rt a (network app))).
Proof.
  intros Hk. split.
  - cbv zeta. split; [reflexivity|].
    assert (Hf : forall i,
               In i (filter (fun i => negb (String.eqb (id i) (a_id a)))
                            (items app)) -> id i <> a_id a).
    { intros i Hi. apply filter_In in Hi as [_ Hi].
      apply String.eqb_neq. destruct (String.eqb (id i) (a_id a));
        [discriminate|reflexivity]. }
    assert (Hn : ~ In (a_id a)
                   (map id (filter (fun i => negb (String.eqb (id i) (a_id a)))
                                   (items app)))).
    { intros H. apply in_map_iff in H as [i [E Hi]]. exact (Hf i Hi E). }
    unfold perform. simpl pending. rewrite Hk.
    unfold translateItem_settle. simpl network.
    destruct (runStrategy rt a (network app)) as [[r|e] t]; simpl;
      rewrite (update_item_untouched _ _ _ Hn); auto.
  - cbv zeta. split; [reflexivity|].
    unfold perform. simpl pending. rewrite Hk.
    unfold translateItem_settle. simpl network.
    destruct (runStrategy rt a (network app)) as [[r|e] t]; simpl; auto.
Qed.

Lemma removed_item_call_still_settles_witness :
  nth_error (pending appDispatched) 0 = Some dispatchedAttempt /\
  items (perform keyedRuntime (Complete 0)
           (perform keyedRuntime (Remove "id-1") appDispatched)) = [] /\
  network (perform keyedRuntime (Complete 0)
             (perform keyedRuntime (Remove "id-1") appDispatched))
  = snd (runStrategy keyedRuntime dispatchedAttempt []).
Proof.
  split; [reflexivity|].
  destruct (proj1 (removed_item_call_still_settles keyedRuntime appDispatched
                     0 dispatchedAttempt eq_refl))
    as [_ [Hi [_ [_ Hn]]]].
  split; [exact Hi|exact Hn].
Defined.

(* ===================================================================== *)
(** * A whole batch, and what a completion shows *)
(* ===================================================================== *)

Section OrchestratorBatch.

Variable rt : Runtime.

Lemma visit_accepted s item app :
  turned_down rt s = false ->
  visit rt s item app =
  setPending (pending app ++ [attempt_with s item])
    (setItems (update_item (id item) with_analyzing) app).
Proof.
  intros H. unfold turned_down in H. apply orb_false_elim in H as [H1 H2].
  unfold visit, translateItem.
  change (missesClaudeKey rt (s_provider s) (with_settings s app))
    with (is_claude (s_provider s) && negb (nonempty (s_claudeApiKey s))
          && negb (key_truthy (rt_CLAUDE_API_KEY rt))).
  change (hasGeminiKey rt (with_settings s app))
    with (nonempty (s_geminiApiKey s) || key_truthy (rt_API_KEY rt)).
  rewrite H1, H2. reflexivity.
Qed.

Lemma visit_turned_down s item app :
  turned_down rt s = true ->
  visit rt s item app =
  setIsSettingsOpen true
    (setItems (update_item (id item)
                 (with_error (Some (rejection_of rt s)))) app).
Proof.
  intros H. unfold turned_down in H. unfold visit, translateItem, rejection_of.
  change (missesClaudeKey rt (s_provider s) (with_settings s app))
    with (is_claude (s_provider s) && negb (nonempty (s_claudeApiKey s))
          && negb (key_truthy (rt_CLAUDE_API_KEY rt))).
  change (hasGeminiKey rt (with_settings s app))
    with (nonempty (s_geminiApiKey s) || key_truthy (rt_API_KEY rt)).
  destruct (is_claude (s_provider s) && negb (nonempty (s_claudeApiKey s))
            && negb (key_truthy (rt_CLAUDE_API_KEY rt))); [reflexivity|].
  simpl in H. rewrite H. reflexivity.
Qed.

(** The visit of the transition system is the visit of the handler as long
    as the settings are those the handler holds. *)
Lemma dispatchNext_visit app x rest :
  todo app = x :: rest ->
  dispatchNext rt app = visit rt (snapshot app) x (setTodo rest app).
Proof.
  intros T. unfold dispatchNext. rewrite T.
  destruct (turned_down rt (snapshot app)) eqn:D.
  - rewrite (visit_turned_down _ _ _ D).
    unfold turned_down in D. unfold translateItem, rejection_of.
    change (missesClaudeKey rt (modelProvider app) (setTodo rest app))
      with (is_claude (s_provider (snapshot app))
            && negb (nonempty (s_claudeApiKey (snapshot app)))
            && negb (key_truthy (rt_CLAUDE_API_KEY rt))).
    change (hasGeminiKey rt (setTodo rest app))
      with (nonempty (s_geminiApiKey (snapshot app))
            || key_truthy (rt_API_KEY rt)).
    destruct (is_claude (s_provider (snapshot app))
              && negb (nonempty (s_claudeApiKey (snapshot app)))
              && negb (key_truthy (rt_CLAUDE_API_KEY rt))); [reflexivity|].
    change (negb (nonempty (s_geminiApiKey (snapshot app))
                  || key_truthy (rt_API_KEY rt)) = true) in D.
    rewrite D. reflexivity.
  - rewrite (visit_accepted _ _ _ D).
    unfold turned_down in D. apply orb_false_elim in D as [D1 D2].
    unfold translateItem.
    change (missesClaudeKey rt (modelProvider app) (setTodo rest app))
      with (is_claude (s_provider (snapshot app))
            && negb (nonempty (s_claudeApiKey (snapshot app)))
            && negb (key_truthy (rt_CLAUDE_API_KEY rt))).
    change (hasGeminiKey rt (setTodo rest app))
      with (nonempty (s_geminiApiKey (snapshot app))
            || key_truthy (rt_API_KEY rt)).
    rewrite D1, D2. reflexivity.
Qed.

Lemma update_item_visit f x done rest :
  ~ In (id x) (map id done) -> ~ In (id x) (map id rest) ->
  update_item (id x) f (done ++ x :: rest)
  = ((done ++ [f x]) ++ rest)%list.
Proof.
  intros Hd Hr. rewrite update_item_app, update_item_cons_same.
  rewrite (update_item_untouched _ _ done Hd).
  rewrite (update_item_untouched _ _ rest Hr).
  rewrite <- app_assoc. reflexivity.
Qed.

Lemma visitAll_cons s x l app :
  visitAll rt s (x :: l) app = visitAll rt s l (visit rt s x app).
Proof. reflexivity. Qed.

Lemma visitAll_visits s l : forall app done,
  items app = (done ++ l)%list -> NoDup (map id l) ->
  (forall x, In x (map id l) -> ~ In x (map id done)) ->
  snapshot (visitAll rt s l app) = snapshot app /\
  todo (visitAll rt s l app) = todo app /\
  (turned_down rt s = false ->
   items (visitAll rt s l app) = (done ++ map with_analyzing l)%list /\
   pending (visitAll rt s l app)
   = (pending app ++ map (attempt_with s) l)%list /\
   isSettingsOpen (visitAll rt s l app) = isSettingsOpen app) /\
  (turned_down rt s = true ->
   items (visitAll rt s l app)
   = (done ++ map (with_error (Some (rejection_of rt s))) l)%list /\
   pending (visitAll rt s l app) = pending app /\
   isSettingsOpen (visitAll rt s l app)
   = match l with [] => isSettingsOpen app | _ => true end).
Proof.
  induction l as [|x rest IH]; intros app done E N F.
  - simpl. rewrite app_nil_r in E. rewrite !app_nil_r.
    split; [reflexivity|]. split; [reflexivity|]. split; intros _; auto.
  - inversion N as [|? ? Hx N']; subst.
    assert (Hd : ~ In (id x) (map id done))
      by (apply F; left; reflexivity).
    assert (F' : forall f y, id (f x) = id x -> In y (map id rest) ->
                   ~ In y (map id (done ++ [f x]))).
    { intros f y Ef Hy H. rewrite map_app in H.
      apply in_app_or in H as [H|[H|[]]].
      - apply (F y); [right; exact Hy|exact H].
      - apply Hx. rewrite <- Ef, H. exact Hy. }
    rewrite visitAll_cons.
    destruct (turned_down rt s) eqn:D.
    + pose proof (visit_turned_down s x app D) as V.
      destruct (IH (visit rt s x app)
                  (done ++ [with_error (Some (rejection_of rt s)) x])%list)
        as [Is [It [_ Ir]]].
      * rewrite V. simpl. rewrite E. apply update_item_visit; assumption.
      * exact N'.
      * intros y. apply (F' (with_error (Some (rejection_of rt s)))).
        reflexivity.
      * split; [rewrite Is, V; reflexivity|].
        split; [rewrite It, V; reflexivity|].
        split; [discriminate|]. intros _.
        destruct (Ir eq_refl) as [Ii [Ip Io]].
        split; [|split].
        -- rewrite Ii. rewrite <- app_assoc. reflexivity.
        -- rewrite Ip, V. reflexivity.
        -- rewrite Io, V. destruct rest; reflexivity.
    + pose proof (visit_accepted s x app D) as V.
      destruct (IH (visit rt s x app) (done ++ [with_analyzing x])%list)
        as [Is [It [Ia _]]].
      * rewrite V. simpl. rewrite E. apply update_item_visit; assumption.
      * exact N'.
      * intros y. apply (F' with_analyzing). reflexivity.
      * split; [rewrite Is, V; reflexivity|].
        split; [rewrite It, V; reflexivity|].
        split; [|discriminate]. intros _.
        destruct (Ia eq_refl) as [Ii [Ip Io]].
        split; [|split].
        -- rewrite Ii. rewrite <- app_assoc. reflexivity.
        -- rewrite Ip, V. simpl. rewrite <- app_assoc. reflexivity.
        -- rewrite Io, V. reflexivity.
Qed.

Lemma gemini_throws_two img mime lang apiKey proApiKey t e t1 :
  translateImageContent (rt_env rt) (rt_parse rt) (rt_typeErrorMessage rt)
    (rt_API_KEY rt) img mime lang apiKey proApiKey t = (Throw e, t1) ->
  e = newError geminiQuotaMessage \/ e = newError geminiFailureMessage.
Proof.
  unfold translateImageContent, try_catch.
  destruct (bind _ _ t) as [[r|e0] t0]; [discriminate|].
  destruct (isQuotaError e0); intros H; injection H as <- _; auto.
Qed.

End OrchestratorBatch.

(** X17: the [forEach] of [handleFileChange] visits every file that could be
    read, in order, with the settings that the handler of the change event
    holds: those of the render in which the files were chosen, whatever the
    settings of the application have become while the files were read.  If
    those settings pass the credential checks, each new item goes to
    ANALYZING and gets one call in flight that holds them, in the order of
    the files; if they do not, each new item goes to ERROR with the message
    of the missing key, no call is made and the settings are opened.  The
    items that were there stay as they are and the visits change no
    setting.  A visit of the transition system is such a visit, with the
    settings of the state. *)
Theorem batch_visits_every_file (rt : Runtime) (s : Settings) (app : App)
    (files : list FileRead) :
  NoDup (map id (newItems files)) ->
  (forall x, In x (map id (newItems files)) ->
             ~ In x (map id (items app))) ->
  snapshot (handleFileChange_in rt s files app) = snapshot app /\
  (turned_down rt s = false ->
   items (handleFileChange_in rt s files app)
   = (items app ++ map with_analyzing (newItems files))%list /\
   pending (handleFileChange_in rt s files app)
   = (pending app ++ map (attempt_with s) (newItems files))%list /\
   isSettingsOpen (handleFileChange_in rt s files app)
   = isSettingsOpen app) /\
  (turned_down rt s = true ->
   items (handleFileChange_in rt s files app)
   = (items app
      ++ map (with_error (Some (rejection_of rt s))) (newItems files))%list /\
   pending (handleFileChange_in rt s files app) = pending app /\
   (newItems files <> [] ->
    isSettingsOpen (handleFileChange_in rt s files app) = true)) /\
  (forall x rest, todo app = x :: rest ->
     perform rt Dispatch app = visit rt (snapshot app) x (setTodo rest app)).
Proof.
  intros N F. unfold handleFileChange_in.
  destruct (visitAll_visits rt s (newItems files)
              (setItems (fun prev => (prev ++ newItems files)%list) app)
              (items app) eq_refl N F)
    as [Is [_ [Ia Ir]]].
  split; [exact Is|]. split; [exact Ia|]. split.
  - intros D. destruct (Ir D) as [Ii [Ip Io]].
    split; [exact Ii|]. split; [exact Ip|].
    intros Hne. rewrite Io. destruct (newItems files); [contradiction|].
    reflexivity.
  - intros x rest T. apply dispatchNext_visit, T.
Qed.

Lemma batch_visits_every_file_witness :
  NoDup (map id (newItems threeFiles)) /\
  turned_down keyedRuntime settingsWithGemini = false /\
  snapshot appWithClaudeKey <> settingsWithGemini /\
  items (handleFileChange_in keyedRuntime settingsWithGemini threeFiles
           appWithClaudeKey)
  = map with_analyzing (newItems threeFiles) /\
  pending (handleFileChange_in keyedRuntime settingsWithGemini threeFiles
             appWithClaudeKey)
  = map (attempt_with settingsWithGemini) (newItems threeFiles).
Proof.
  assert (N : NoDup (map id (newItems threeFiles)))
    by (repeat constructor; simpl; intuition discriminate).
  split; [exact N|]. split; [reflexivity|]. split; [discriminate|].
  destruct (batch_visits_every_file keyedRuntime settingsWithGemini
              appWithClaudeKey threeFiles N (fun x _ H => H))
    as [_ [Ha _]].
  destruct (Ha eq_refl) as [Hi [Hp _]].
  split; [exact Hi|exact Hp].
Defined.

(** X18: what a completion shows on the item.  A result puts the item in
    SUCCESS with that result.  A failure puts it in ERROR with the message
    of the error that the service threw, which is never empty: the services
    throw nothing but [Error]s, so the stand-in message of the handler is
    not used.  With the Gemini provider the message is one of two. *)
Theorem completion_shows_outcome (rt : Runtime) (a : Attempt) (app : App)
    (i' : BatchItem) :
  In i' (items (translateItem_settle rt a app)) -> id i' = a_id a ->
  match fst (runStrategy rt a (network app)) with
  | Ok r => status i' = SUCCESS /\ result i' = Some r
  | Throw e =>
      status i' = ERROR /\ isError e = true /\ error i' = err_message e /\
      (exists msg, error i' = Some msg /\ msg <> EmptyString) /\
      (a_provider a = GEMINI ->
       error i' = Some geminiQuotaMessage \/
       error i' = Some geminiFailureMessage)
  end.
Proof.
  unfold translateItem_settle.
  destruct (runStrategy rt a (network app)) as [[r|e] t] eqn:R; simpl;
    intros H E; apply In_update_item in H as [j [Hj [[Ej ->]|[Ej ->]]]];
    try congruence.
  - split; reflexivity.
  - destruct (runStrategy_throws rt a _ e t R) as [He [msg [Hm Hne]]].
    simpl. rewrite He. split; [reflexivity|]. split; [reflexivity|].
    split; [reflexivity|]. split; [exists msg; auto|].
    intros P. unfold runStrategy in R. rewrite P in R.
    apply gemini_throws_two in R as [-> | ->]; [left|right]; reflexivity.
Qed.

Lemma completion_shows_outcome_witness :
  In (with_success emptyResult (with_analyzing idleItem))
     (items (translateItem_settle keyedRuntime dispatchedAttempt
               appDispatched)) /\
  status (with_success emptyResult (with_analyzing idleItem)) = SUCCESS /\
  result (with_success emptyResult (with_analyzing idleItem))
  = Some emptyResult.
Proof.
  assert (H : In (with_success emptyResult (with_analyzing idleItem))
                (items (translateItem_settle keyedRuntime dispatchedAttempt
                          appDispatched)))
    by (left; reflexivity).
  split; [exact H|].
  exact (completion_shows_outcome keyedRuntime dispatchedAttempt
           appDispatched _ H eq_refl).
Defined.

(* ===================================================================== *)
(** * The second way of the Claude service to the JSON text *)
(* ===================================================================== *)

Lemma indexOf_app_none c a b :
  indexOf c a = None -> indexOf c b = None ->
  indexOf c (a ++ b)%list = None.
Proof.
  intros Ha Hb. induction a as [|d a IH]; [exact Hb|].
  simpl in Ha |- *. destruct (d =? c)%N; [discriminate|].
  destruct (indexOf c a); [discriminate|]. rewrite IH by reflexivity.
  reflexivity.
Qed.

Lemma strip_keep c s :
  (c =? 96)%N = false ->
  prefix (newline ++ fence)%list (c :: s) = false ->
  strip_fences 0 (c :: s) = c :: strip_fences 0 s.
Proof.
  intros Hc Hn. cbn [strip_fences]. rewrite Hn.
  change (fence_json ++ newline)%list
    with (96%N :: (js "``json" ++ newline))%list.
  change fence_json with (96%N :: js "``json").
  change fence with (96%N :: js "``").
  rewrite !(prefix_backtick_false c _ _ Hc). reflexivity.
Qed.

Lemma strip_body tail body :
  prefix fence tail = false -> no_backtick body ->
  strip_fences 0 (body ++ tail)%list = (body ++ strip_fences 0 tail)%list.
Proof.
  intros Ht. induction body as [|c body IH]; intros Hb; [reflexivity|].
  apply no_backtick_cons in Hb as [Hc Hb].
  change ((c :: body) ++ tail)%list with (c :: (body ++ tail))%list.
  rewrite strip_keep; [rewrite IH by exact Hb; reflexivity|exact Hc|].
  change (newline ++ fence)%list with (LF :: fence).
  rewrite prefix_cons. destruct (LF =? c)%N; [|reflexivity].
  apply prefix_fence_body; assumption.
Qed.

Lemma strip_fenced_body body :
  no_backtick body ->
  strip_fences 0 body = body /\
  strip_fences 0 (body ++ newline ++ fence)%list = body.
Proof.
  intros Hb. split.
  - rewrite <- (app_nil_r body) at 1.
    rewrite strip_body; [apply app_nil_r|reflexivity|exact Hb].
  - rewrite strip_body; [apply app_nil_r|reflexivity|exact Hb].
Qed.

(** X19: an answer of Claude without an opening brace goes the second way:
    the fences are taken out and the rest is trimmed.  So a body without
    backticks comes out trimmed, whether it stands alone, between a
    [```json] fence and a closing fence, or between two plain fences. *)
Theorem claude_fallback_unwraps (body : jsstr) :
  no_backtick body -> indexOf 123 body = None ->
  claude_json_text body = trim body /\
  claude_json_text (fence_json ++ newline ++ body ++ newline ++ fence)%list
  = trim body /\
  claude_json_text (fence ++ newline ++ body ++ newline ++ fence)%list
  = trim body.
Proof.
  intros Hb Hi. destruct (strip_fenced_body body Hb) as [S0 S1].
  assert (Ht : indexOf 123 (body ++ newline ++ fence)%list = None)
    by (apply indexOf_app_none; [exact Hi|reflexivity]).
  unfold claude_json_text. split; [|split].
  - rewrite Hi, S0. reflexivity.
  - assert (E : indexOf 123
                  (fence_json ++ newline ++ body ++ newline ++ fence)%list
                = None)
      by (apply indexOf_app_none; [reflexivity|];
          apply indexOf_app_none; [reflexivity|exact Ht]).
    rewrite E.
    assert (O : strip_fences 0
                  (fence_json ++ newline ++ body ++ newline ++ fence)%list
                = strip_fences 0 (body ++ newline ++ fence)%list).
    { destruct (body ++ newline ++ fence)%list; reflexivity. }
    rewrite O, S1. reflexivity.
  - assert (E : indexOf 123
                  (fence ++ newline ++ body ++ newline ++ fence)%list
                = None)
      by (apply indexOf_app_none; [reflexivity|];
          apply indexOf_app_none; [reflexivity|exact Ht]).
    rewrite E.
    assert (O : strip_fences 0
                  (fence ++ newline ++ body ++ newline ++ fence)%list
                = strip_fences 0 (LF :: (body ++ newline ++ fence))%list).
    { reflexivity. }
    rewrite O, strip_keep, S1; [reflexivity|reflexivity|].
    change (newline ++ fence)%list with (LF :: fence).
    rewrite prefix_cons. apply prefix_fence_body; [reflexivity|exact Hb].
Qed.

Lemma claude_fallback_unwraps_witness :
  no_backtick "[1, 2] " /\ indexOf 123 "[1, 2] " = None /\
  claude_json_text
    (fence_json ++ newline ++ js "[1, 2] " ++ newline ++ fence)%list
  = "[1, 2]".
Proof.
  split; [reflexivity|]. split; [reflexivity|].
  exact (proj1 (proj2 (claude_fallback_unwraps "[1, 2] " eq_refl eq_refl))).
Defined.
